(** * tinypdf: a shallow embedding of the document builder

    The development follows the TypeScript source function by function:
    text metrics, the colour codec, the JPEG header scanner, the value
    serializer, the object graph with its page and build operations, the
    byte-level writer with its cross-reference table, and the two layout
    loops of the markdown front end (word wrap and pagination).

    Conventions of the embedding.
    - A JS string is a [string]: a sequence of code units, here restricted
      to U+0000..U+00FF ([ascii]).
    - A [Uint8Array] is a [list byte].
    - A JS number is read as an exact rational ([Q]) where the statement
      holds whatever the rounding and whichever way a comparison goes.
      Where rounding or the outcome of a comparison decides (text
      metrics, word wrap, pagination), modules [F64] and [Markdown64]
      give the same code over IEEE binary64 ([PrimFloat]).
    - [throw] is a result in a sum type; mutable builder variables are the
      fields of a record threaded through every operation.
    - A callback is the list of the context calls it makes when it does
      nothing but draw, and a script of calls on the builder in
      general. *)

From Stdlib Require Import ZArith QArith Qround Qabs String Ascii List Lia.
From Stdlib.Strings Require Import Byte.
From Stdlib Require Import Floats Uint63.
From Stdlib Require Import Qpower Lqa.
From stdpp Require Import base list gmap strings.
Import ListNotations.

Local Open Scope string_scope.
Local Open Scope list_scope.
Local Open Scope nat_scope.

(** ** JS string primitives *)

Module Js.

Definition nl : string := String "010"%char EmptyString.

(** Truthiness of a string: non-empty. *)
Definition truthy (s : string) : bool :=
  match s with EmptyString => false | String _ _ => true end.

(** [s.startsWith(c)] for a one-character prefix. *)
Definition startsWith (c : ascii) (s : string) : bool :=
  match s with
  | EmptyString => false
  | String a _ => Ascii.eqb a c
  end.

(** [parts.join(sep)]. *)
Fixpoint join (sep : string) (parts : list string) : string :=
  match parts with
  | [] => EmptyString
  | [p] => p
  | p :: rest => p +:+ sep +:+ join sep rest
  end.

(** [s.split(c)] for a one-character separator: never the empty list. *)
Fixpoint split (c : ascii) (s : string) : list string :=
  match s with
  | EmptyString => [EmptyString]
  | String a rest =>
      if Ascii.eqb a c then EmptyString :: split c rest
      else match split c rest with
           | [] => [String a EmptyString]
           | w :: ws => String a w :: ws
           end
  end.

(** [s.replace(/c/g, by)] for a single-character pattern and a
    replacement without [$] patterns. *)
Fixpoint replaceAll (c : ascii) (by_ : string) (s : string) : string :=
  match s with
  | EmptyString => EmptyString
  | String a rest =>
      if Ascii.eqb a c then by_ +:+ replaceAll c by_ rest
      else String a (replaceAll c by_ rest)
  end.

(** [s.padStart(n, "0")]. *)
Definition padStart0 (n : nat) (s : string) : string :=
  string_of_list_ascii (repeat "0"%char (n - String.length s)) +:+ s.

(** Decimal digits of a natural number, most significant first. *)
Definition digit (n : N) : ascii := ascii_of_N (48 + n).

Fixpoint digits (fuel : nat) (n : N) (acc : string) : string :=
  match fuel with
  | O => acc
  | S fuel' =>
      let acc' := String (digit (n mod 10)) acc in
      if (n / 10 =? 0)%N then acc' else digits fuel' (n / 10)%N acc'
  end.

(** [String(n)] for a non-negative integer. *)
Definition String_N (n : N) : string :=
  digits (S (N.to_nat (N.log2 n))) n EmptyString.

Definition String_nat (n : nat) : string := String_N (N.of_nat n).

(** [String(z)] for an integer (below 10^21 in magnitude, where JS still
    prints plain digits). *)
Definition String_Z (z : Z) : string :=
  match z with
  | Z0 => "0"
  | Zpos p => String_N (Npos p)
  | Zneg p => "-" +:+ String_N (Npos p)
  end.

(** [new TextEncoder().encode(s)]: UTF-8, one byte below U+0080 and two
    bytes for U+0080..U+00FF. *)
Definition encode_char (c : ascii) : list byte :=
  let n := N_of_ascii c in
  if (n <? 128)%N then [byte_of_ascii c]
  else [byte_of_ascii (ascii_of_N (192 + n / 64));
        byte_of_ascii (ascii_of_N (128 + n mod 64))].

Fixpoint encode (s : string) : list byte :=
  match s with
  | EmptyString => []
  | String c rest => encode_char c ++ encode rest
  end.

End Js.

(** ** JS numbers, read exactly *)

Abbreviation number := Q.

Module Num.

Definition of_nat (n : nat) : number := inject_Z (Z.of_nat n).
Definition of_Z (z : Z) : number := inject_Z z.

(** [Number.isInteger(x)]. *)
Definition isInteger (x : number) : bool :=
  Pos.eqb (Qden (Qred x)) 1.

Definition leb (a b : number) : bool := Qle_bool a b.
(** [a > b] *)
Definition gtb (a b : number) : bool := negb (Qle_bool a b).
(** [a < b] *)
Definition ltb (a b : number) : bool := negb (Qle_bool b a).

(** [x.toFixed(d)] (ECMAScript Number.prototype.toFixed): with n the
    integer nearest to |x| * 10^d, the larger one on a tie, print n with
    at least d+1 digits and a point before the last d of them; a minus
    sign in front when x < 0. *)
Definition toFixed (d : nat) (x : number) : string :=
  let scaled := (Qabs x * inject_Z (10 ^ Z.of_nat d) + (1 # 2))%Q in
  let n := Z.to_N (Qfloor scaled) in
  let ds := Js.padStart0 (S d) (Js.String_N n) in
  let k := String.length ds - d in
  let body :=
    match d with
    | O => ds
    | S _ => substring 0 k ds +:+ "." +:+ substring k d ds
    end in
  if Qle_bool 0 x then body else "-" +:+ body.

(** [s.replace(/\.?0+$/, '')]: the leftmost match is the maximal run of
    trailing zeros, together with a point right before it. *)
Fixpoint drop_zeros (rev_s : list ascii) : list ascii :=
  match rev_s with
  | "0"%char :: rest => drop_zeros rest
  | _ => rev_s
  end.

Definition strip_zeros (s : string) : string :=
  let r := rev (list_ascii_of_string s) in
  match r with
  | "0"%char :: _ =>
      match drop_zeros r with
      | "."%char :: rest => string_of_list_ascii (rev rest)
      | rest => string_of_list_ascii (rev rest)
      end
  | _ => s
  end.

End Num.

(** [String(x)] on a number that is not an integer prints the shortest
    decimal that reads back as the same double.  That is a service of the
    JS runtime, not of this library; the builder takes it as a parameter. *)
Class NumberToString := number_to_string : number -> string.

Definition String_number `{NumberToString} (x : number) : string :=
  if Num.isInteger x then Js.String_Z (Qnum (Qred x)) else number_to_string x.

(** ** Text metrics *)

(** Helvetica advance widths for the code points 32..126, per 1000 units. *)
Definition WIDTHS : list Z := [
  278; 278; 355; 556; 556; 889; 667; 191; 333; 333; 389; 584; 278; 333; 278; 278;
  556; 556; 556; 556; 556; 556; 556; 556; 556; 556; 278; 278; 584; 584; 584; 556;
  1015; 667; 667; 722; 722; 667; 611; 778; 722; 278; 500; 667; 556; 833; 722; 778;
  667; 778; 722; 667; 611; 722; 667; 944; 667; 667; 611; 278; 278; 278; 469; 556;
  333; 556; 556; 500; 556; 556; 278; 556; 556; 222; 222; 500; 222; 833; 556; 556;
  556; 556; 333; 500; 278; 556; 500; 722; 500; 500; 500; 334; 260; 334; 584
]%Z.

(** The summand of the loop: [(code >= 32 && code <= 126) ? WIDTHS[code - 32] : 556]. *)
Definition advance (c : ascii) : Z :=
  let code := nat_of_ascii c in
  if (32 <=? code) && (code <=? 126) then nth (code - 32) WIDTHS 0%Z else 556%Z.

(** The accumulator [width] after the loop over the code units of [str]. *)
Fixpoint total_width (str : string) (width : Z) : Z :=
  match str with
  | EmptyString => width
  | String c rest => total_width rest (width + advance c)
  end.

Definition measureText (str : string) (size : number) : number :=
  ((inject_Z (total_width str 0) * size) / 1000)%Q.

(** The same function over IEEE binary64, the arithmetic JS runs it in:
    every [+], [*] and [/] rounds to nearest, ties to even. *)
Module F64.

Definition of_Z (z : Z) : float := PrimFloat.of_uint63 (Uint63.of_Z z).

Fixpoint total_width (str : string) (width : float) : float :=
  match str with
  | EmptyString => width
  | String c rest => total_width rest (width + of_Z (advance c))%float
  end.

Definition measureText (str : string) (size : float) : float :=
  ((total_width str 0 * size) / 1000)%float.

(** [a === b] on numbers. *)
Definition strict_eq (a b : float) : bool := PrimFloat.eqb a b.

End F64.

(** ** Colour codec *)

Definition hex_value (c : ascii) : option Z :=
  let n := Z.of_nat (nat_of_ascii c) in
  if (48 <=? n)%Z && (n <=? 57)%Z then Some (n - 48)%Z
  else if (97 <=? n)%Z && (n <=? 102)%Z then Some (n - 87)%Z
  else if (65 <=? n)%Z && (n <=? 70)%Z then Some (n - 55)%Z
  else None.

(** [parseInt(pair, 16) / 255] on two characters already known to be hex
    digits. *)
Definition channel (hi lo : ascii) : option number :=
  match hex_value hi, hex_value lo with
  | Some h, Some l => Some (inject_Z (16 * h + l) / 255)%Q
  | _, _ => None
  end.

Definition parseColor (hex : option string) : option (list number) :=
  match hex with
  | None => None
  | Some hex =>
      if negb (Js.truthy hex) || String.eqb hex "none" then None
      else
        (* hex.replace(/^#/, '') *)
        let hex := match hex with
                   | String "#"%char rest => rest
                   | _ => hex
                   end in
        let hex := match list_ascii_of_string hex with
                   | [a; b; c] => [a; a; b; b; c; c]
                   | cs => cs
                   end in
        (* /^[0-9a-fA-F]{6}$/ *)
        match hex with
        | [r1; r2; g1; g2; b1; b2] =>
            match channel r1 r2, channel g1 g2, channel b1 b2 with
            | Some r, Some g, Some b => Some [r; g; b]
            | _, _, _ => None
            end
        | _ => None
        end
  end.

Definition colorOp (rgb : option (list number)) (op : string) : string :=
  match rgb with
  | Some [r; g; b] =>
      Num.toFixed 3 r +:+ " " +:+ Num.toFixed 3 g +:+ " " +:+ Num.toFixed 3 b
      +:+ " " +:+ op
  | _ => ""
  end.

(** ** Errors

    The source throws [Error] objects told apart by their message; the
    constructors stand for the four messages, [message] gives the text and
    [kind] the class of failure. *)

Inductive Error :=
| MissingSOI
| NoValidSOF
| NoPagesError
| BuildTwice.

Definition message (e : Error) : string :=
  match e with
  | MissingSOI => "Invalid JPEG: missing SOI marker"
  | NoValidSOF => "Invalid JPEG: no valid SOF marker found"
  | NoPagesError => "PDF must have at least one page"
  | BuildTwice => "build() can only be called once"
  end.

Inductive ErrorKind := MalformedImage | NoPages | AlreadyBuilt.

Definition kind (e : Error) : ErrorKind :=
  match e with
  | MissingSOI | NoValidSOF => MalformedImage
  | NoPagesError => NoPages
  | BuildTwice => AlreadyBuilt
  end.

Definition result (A : Type) : Type := Error + A.
Definition Ok {A} (a : A) : result A := inr a.
Definition Throw {A} (e : Error) : result A := inl e.

Definition fails_with {A} (r : result A) (k : ErrorKind) : Prop :=
  exists e, r = Throw e /\ kind e = k.

(** ** JPEG header scanner *)

Record JpegInfo := {
  jpeg_width : Z;
  jpeg_height : Z;
  jpeg_colorSpace : string
}.

Section Jpeg.

Variable bytes : list byte.

(** [bytes[i]] as a number; every read below is guarded by a length
    test, so the default is never observed. *)
Definition at_ (i : nat) : Z :=
  Z.of_N (Byte.to_N (nth i bytes "000"%byte)).

(** [(bytes[i] << 8) | bytes[i + 1]] *)
Definition be16 (i : nat) : Z :=
  Z.lor (Z.shiftl (at_ i) 8) (at_ (i + 1)).

Definition has_SOI : bool :=
  (2 <=? length bytes) && (at_ 0 =? 255)%Z && (at_ 1 =? 216)%Z.

Definition colorSpace_of (c : Z) : string :=
  if (c =? 1)%Z then "/DeviceGray"
  else if (c =? 4)%Z then "/DeviceCMYK"
  else "/DeviceRGB".

(** What one turn of the [while] body does at index [i]. *)
Inductive Step :=
| Next (i : nat)
| Return (r : JpegInfo)
| BreakSOS
| BreakShort.

(** The tail of the body: skip the segment by its length field. *)
Definition skip (i : nat) : Step :=
  if length bytes <=? i + 3 then BreakShort
  else Next (i + (2 + Z.to_nat (be16 (i + 2)))).

Definition body (i : nat) : Step :=
  if negb (at_ i =? 255)%Z then Next (i + 1)
  else
    let marker := at_ (i + 1) in
    if (marker =? 218)%Z then BreakSOS
    else if (marker =? 192)%Z || (marker =? 194)%Z then
      if length bytes <=? i + 9 then BreakShort
      else
        let height := be16 (i + 5) in
        let width := be16 (i + 7) in
        let c := at_ (i + 9) in
        if negb (width =? 0)%Z && negb (height =? 0)%Z then
          Return {| jpeg_width := width; jpeg_height := height;
                    jpeg_colorSpace := colorSpace_of c |}
        else skip i
    else skip i.

(** How the loop ends. *)
Inductive ScanEnd :=
| Found (r : JpegInfo)
| StoppedAtSOS
| CutShort
| RanOut.

(** [while (i < bytes.length - 1) { body }]; every turn moves [i]
    forward, so [length bytes] turns are enough. *)
Fixpoint scan (fuel : nat) (i : nat) : ScanEnd :=
  match fuel with
  | O => RanOut
  | S fuel' =>
      if i <? length bytes - 1 then
        match body i with
        | Next j => scan fuel' j
        | Return r => Found r
        | BreakSOS => StoppedAtSOS
        | BreakShort => CutShort
        end
      else RanOut
  end.

Definition parseJpeg : result JpegInfo :=
  if negb has_SOI then Throw MissingSOI
  else match scan (length bytes) 2 with
       | Found r => Ok r
       | _ => Throw NoValidSOF
       end.

(** The indices at which the loop evaluates its body. *)
Inductive visits : nat -> Prop :=
| visits_start : visits 2
| visits_next i j :
    visits i -> i < length bytes - 1 -> body i = Next j -> visits j.

(** Markers, as the bytes of the stream spell them. *)
Definition SOS_at (i : nat) : Prop :=
  at_ i = 255%Z /\ at_ (i + 1) = 218%Z.

Definition SOF_at (i : nat) : Prop :=
  at_ i = 255%Z /\ (at_ (i + 1) = 192%Z \/ at_ (i + 1) = 194%Z).

(** A frame-header marker at [i] with its nine following bytes inside
    the stream. *)
Definition frame_header_at (i : nat) : Prop :=
  SOF_at i /\ i + 9 < length bytes.

Definition nonzero_size_at (i : nat) : Prop :=
  be16 (i + 5) <> 0%Z /\ be16 (i + 7) <> 0%Z.

(** The stream ends at [i]: no room for a marker code, for the nine
    bytes of a frame header, or for the length field of another
    segment. *)
Definition cut_at (i : nat) : Prop :=
  length bytes - 1 <= i
  \/ (SOF_at i /\ length bytes <= i + 9)
  \/ (at_ i = 255%Z /\ at_ (i + 1) <> 218%Z /\ ~ SOF_at i
      /\ length bytes <= i + 3).

End Jpeg.

(** ** Values and their serializer *)

Record Ref := new_Ref { ref_id : nat }.

Local Set Warnings "-register-all".

(** [PDFValue], with [undefined] as a value of its own: a dictionary
    entry may hold it, and the serializer tests for it. *)
Inductive PDFValue :=
| VNull
| VUndefined
| VBool (b : bool)
| VNum (x : number)
| VStr (s : string)
| VArr (items : list PDFValue)
| VRef (r : Ref)
| VDict (entries : list (string * PDFValue)).

(** A JS object used as a record: its keys in insertion order (no key of
    the builder looks like an array index). *)
Definition Dict := list (string * PDFValue).

Fixpoint dict_get (k : string) (d : Dict) : option PDFValue :=
  match d with
  | [] => None
  | (k', v) :: rest => if String.eqb k' k then Some v else dict_get k rest
  end.

(** [d[k] = v]: an existing key keeps its place, a new one goes last. *)
Fixpoint dict_set (k : string) (v : PDFValue) (d : Dict) : Dict :=
  match d with
  | [] => [(k, v)]
  | (k', v') :: rest =>
      if String.eqb k' k then (k, v) :: rest else (k', v') :: dict_set k v rest
  end.

Definition is_undefined (v : PDFValue) : bool :=
  match v with VUndefined => true | _ => false end.

Definition pdfString (str : string) : string :=
  "(" +:+
  Js.replaceAll "010"%char "\n"
    (Js.replaceAll "013"%char "\r"
      (Js.replaceAll ")"%char "\)"
        (Js.replaceAll "("%char "\("
          (Js.replaceAll "\"%char "\\" str))))
  +:+ ")".

Fixpoint serialize (val : PDFValue) : string :=
  match val with
  | VNull | VUndefined => "null"
  | VBool b => if b then "true" else "false"
  | VNum x =>
      if Num.isInteger x then Js.String_Z (Qnum (Qred x))
      else Num.strip_zeros (Num.toFixed 4 x)
  | VStr s =>
      if Js.startsWith "/"%char s then s
      else if Js.startsWith "("%char s then s
      else pdfString s
  | VArr items => "[" +:+ Js.join " " (map serialize items) +:+ "]"
  | VRef r => Js.String_nat (ref_id r) +:+ " 0 R"
  | VDict entries =>
      (* Object.entries(val).filter(v !== undefined).map(`/${k} ${serialize(v)}`) *)
      let pairs :=
        (fix entries_of (es : list (string * PDFValue)) : list string :=
           match es with
           | [] => []
           | (k, v) :: rest =>
               if is_undefined v then entries_of rest
               else ("/" +:+ k +:+ " " +:+ serialize v) :: entries_of rest
           end) entries in
      "<<" +:+ Js.nl +:+ Js.join Js.nl pairs +:+ Js.nl +:+ ">>"
  end.

(** The text-string rule in the words of the specification: each
    character on its own, five of them escaped. *)
Definition escape_char (c : ascii) : string :=
  if Ascii.eqb c "\"%char then "\\"
  else if Ascii.eqb c "("%char then "\("
  else if Ascii.eqb c ")"%char then "\)"
  else if Ascii.eqb c "013"%char then "\r"
  else if Ascii.eqb c "010"%char then "\n"
  else String c EmptyString.

Fixpoint escape (s : string) : string :=
  match s with
  | EmptyString => EmptyString
  | String c rest => escape_char c +:+ escape rest
  end.

(** ** Object graph and builder *)

Record PDFObject := {
  id : nat;
  dict : Dict;
  stream : option (list byte)
}.

(** The variables closed over by [pdf()]: [objects], [pages], [nextId]
    and [built]. *)
Record Builder := {
  objects : list PDFObject;
  pages : list Ref;
  nextId : nat;
  built : bool
}.

Definition pdf : Builder :=
  {| objects := []; pages := []; nextId := 1; built := false |}.

Definition addObject (d : Dict) (streamBytes : option (list byte))
    (b : Builder) : Builder * Ref :=
  let id_ := nextId b in
  ({| objects := objects b ++ [{| id := id_; dict := d; stream := streamBytes |}];
      pages := pages b;
      nextId := S id_;
      built := built b |},
   new_Ref id_).

Inductive Align := AlignLeft | AlignCenter | AlignRight.

Record TextOptions := TextOptions_of {
  align : option Align;
  width : option number;
  color : option string
}.

Record LinkOptions := { underline : option string }.

(** One call of the drawing callback on its context.  An absent optional
    argument is [None]. *)
Inductive Call :=
| Text (str : string) (x y size : number) (opts : option TextOptions)
| Rect (x y w h : number) (fill : string)
| Line (x1 y1 x2 y2 : number) (stroke : string) (lineWidth : option number)
| Image (jpegBytes : list byte) (x y w h : number)
| Link (url : string) (x y w h : number) (opts : option LinkOptions).

(** A callback that only draws: the context calls it makes, in order.
    It catches no exception, so that the first call that throws ends it,
    and it calls neither [page] nor [build]; what callbacks do in
    general is the subject of [Script] below. *)
Definition Callback := list Call.

(** The variables local to one [page] call. *)
Record PageLocal := {
  ops : list string;
  images : list (string * Ref);
  links : list (string * list number);
  imageCount : nat
}.

Definition push_ops (new : list string) (p : PageLocal) : PageLocal :=
  {| ops := ops p ++ new; images := images p; links := links p;
     imageCount := imageCount p |}.

Definition fx2 (x : number) : string := Num.toFixed 2 x.

(** The methods of the page context.  Each works on the variables local
    to the page; [image] also allocates an object and may throw. *)
Module ctx.

Definition text `{NumberToString} (str : string) (x y size : number)
    (opts : option TextOptions) (p : PageLocal) : PageLocal :=
  let opts := default {| align := None; width := None; color := None |} opts in
  let align := default AlignLeft (align opts) in
  let boxWidth := width opts in
  let color := default "#000000" (color opts) in
  let tx :=
    match align, boxWidth with
    | AlignLeft, _ => x
    | _, None => x
    | AlignCenter, Some boxWidth =>
        (x + (boxWidth - measureText str size) / 2)%Q
    | AlignRight, Some boxWidth =>
        (x + boxWidth - measureText str size)%Q
    end in
  let c := colorOp (parseColor (Some color)) "rg" in
  let c := if Js.truthy c then c else "0.000 0.000 0.000 rg" in
  push_ops [c; "BT"; "/F1 " +:+ String_number size +:+ " Tf";
            fx2 tx +:+ " " +:+ fx2 y +:+ " Td";
            pdfString str +:+ " Tj"; "ET"] p.

Definition rect (x y w h : number) (fill : string) (p : PageLocal)
    : PageLocal :=
  let c := colorOp (parseColor (Some fill)) "rg" in
  if Js.truthy c then
    push_ops [c;
              fx2 x +:+ " " +:+ fx2 y +:+ " " +:+ fx2 w +:+ " " +:+ fx2 h
              +:+ " re";
              "f"] p
  else p.

Definition line (x1 y1 x2 y2 : number) (stroke : string)
    (lineWidth : option number) (p : PageLocal) : PageLocal :=
  let lineWidth := default 1%Q lineWidth in
  let c := colorOp (parseColor (Some stroke)) "RG" in
  if Js.truthy c then
    push_ops [fx2 lineWidth +:+ " w"; c;
              fx2 x1 +:+ " " +:+ fx2 y1 +:+ " m";
              fx2 x2 +:+ " " +:+ fx2 y2 +:+ " l";
              "S"] p
  else p.

(** The dictionary of the image object. *)
Definition image_dict (info : JpegInfo) (jpegBytes : list byte) : Dict :=
  [("Type", VStr "/XObject"); ("Subtype", VStr "/Image");
   ("Width", VNum (Num.of_Z (jpeg_width info)));
   ("Height", VNum (Num.of_Z (jpeg_height info)));
   ("ColorSpace", VStr (jpeg_colorSpace info));
   ("BitsPerComponent", VNum 8%Q); ("Filter", VStr "/DCTDecode");
   ("Length", VNum (Num.of_nat (length jpegBytes)))].

Definition image (jpegBytes : list byte) (x y w h : number)
    (b : Builder) (p : PageLocal) : Builder * result PageLocal :=
  match parseJpeg jpegBytes with
  | inl e => (b, Throw e)
  | inr info =>
      let imgName := "/Im" +:+ Js.String_nat (imageCount p) in
      let '(b, imgRef) :=
        addObject (image_dict info jpegBytes) (Some jpegBytes) b in
      let p := {| ops := ops p;
                  images := images p ++ [(imgName, imgRef)];
                  links := links p;
                  imageCount := S (imageCount p) |} in
      (b, Ok (push_ops
                ["q";
                 fx2 w +:+ " 0 0 " +:+ fx2 h +:+ " " +:+ fx2 x +:+ " "
                 +:+ fx2 y +:+ " cm";
                 imgName +:+ " Do";
                 "Q"] p))
  end.

Definition link (url : string) (x y w h : number)
    (opts : option LinkOptions) (p : PageLocal) : PageLocal :=
  let opts := default {| underline := None |} opts in
  let p := {| ops := ops p; images := images p;
              links := links p ++ [(url, [x; y; (x + w)%Q; (y + h)%Q])];
              imageCount := imageCount p |} in
  match underline opts with
  | Some u =>
      if Js.truthy u then
        let c := colorOp (parseColor (Some u)) "RG" in
        if Js.truthy c then
          push_ops ["0.75 w"; c;
                    fx2 x +:+ " " +:+ fx2 (y + 2)%Q +:+ " m";
                    fx2 (x + w)%Q +:+ " " +:+ fx2 (y + 2)%Q +:+ " l";
                    "S"] p
        else p
      else p
  | None => p
  end.

End ctx.

Section Builder.

Context `{NumberToString}.

(** One call of the callback on the context. *)
Definition call (c : Call) (b : Builder) (p : PageLocal)
    : Builder * result PageLocal :=
  match c with
  | Text str x y size opts => (b, Ok (ctx.text str x y size opts p))
  | Rect x y w h fill => (b, Ok (ctx.rect x y w h fill p))
  | Line x1 y1 x2 y2 stroke lw => (b, Ok (ctx.line x1 y1 x2 y2 stroke lw p))
  | Image bytes x y w h => ctx.image bytes x y w h b p
  | Link url x y w h opts => (b, Ok (ctx.link url x y w h opts p))
  end.

(** [fn(ctx)]: the calls in order; the first exception ends the
    callback, and what was allocated before it stays allocated. *)
Fixpoint run (fn : Callback) (b : Builder) (p : PageLocal)
    : Builder * result PageLocal :=
  match fn with
  | [] => (b, Ok p)
  | c :: rest =>
      match call c b p with
      | (b', inr p') => run rest b' p'
      | (b', inl e) => (b', Throw e)
      end
  end.

(** [links.map(lnk => addObject({...}))] *)
Fixpoint add_annots (lnks : list (string * list number)) (b : Builder)
    : Builder * list Ref :=
  match lnks with
  | [] => (b, [])
  | (url, rect) :: rest =>
      let '(b, r) :=
        addObject
          [("Type", VStr "/Annot"); ("Subtype", VStr "/Link");
           ("Rect", VArr (map VNum rect));
           ("Border", VArr [VNum 0%Q; VNum 0%Q; VNum 0%Q]);
           ("A", VDict [("Type", VStr "/Action"); ("S", VStr "/URI");
                        ("URI", VStr url)])]
          None b in
      let '(b, rs) := add_annots rest b in
      (b, r :: rs)
  end.

(** [name.slice(1)] *)
Definition slice1 (s : string) : string :=
  match s with EmptyString => EmptyString | String _ rest => rest end.

(** The two overloads of [page]. *)
Inductive PageArgs :=
| page_fn (fn : Callback)
| page_sized (width height : number) (fn : Callback).

Definition page_dict (width height : number) (contentRef : Ref)
    (xobjects : Dict) (annots : list Ref) : Dict :=
  [("Type", VStr "/Page"); ("Parent", VNull);
   ("MediaBox", VArr [VNum 0%Q; VNum 0%Q; VNum width; VNum height]);
   ("Contents", VRef contentRef);
   ("Resources",
     VDict [("Font", VDict [("F1", VNull)]);
            ("XObject",
              if 0 <? length xobjects then VDict xobjects else VUndefined)]);
   ("Annots",
     if 0 <? length annots then VArr (map VRef annots) else VUndefined)].

Definition page (args : PageArgs) (b : Builder) : Builder * result unit :=
  let '(width, height, fn) :=
    match args with
    | page_fn fn => (612%Q, 792%Q, fn)
    | page_sized w h fn => (w, h, fn)
    end in
  match run fn b {| ops := []; images := []; links := []; imageCount := 0 |} with
  | (b, inl e) => (b, Throw e)
  | (b, inr p) =>
      let content := Js.join Js.nl (ops p) in
      let contentBytes := Js.encode content in
      let '(b, contentRef) :=
        addObject [("Length", VNum (Num.of_nat (length contentBytes)))]
                  (Some contentBytes) b in
      let xobjects :=
        fold_left (fun d img => dict_set (slice1 (fst img)) (VRef (snd img)) d)
                  (images p) [] in
      let '(b, annots) := add_annots (links p) b in
      let '(b, pageRef) :=
        addObject (page_dict width height contentRef xobjects annots) None b in
      ({| objects := objects b; pages := pages b ++ [pageRef];
          nextId := nextId b; built := built b |},
       Ok tt)
  end.

End Builder.

(** ** Build: finishing the graph and writing the bytes *)

(** The state of the writer: [chunks], [offsets] (a sparse array indexed
    by object id) and [byteOffset]. *)
Record Writer := {
  chunks : list (list byte);
  offsets : gmap nat nat;
  byteOffset : nat
}.

(** [push(data)] *)
Definition push (data : list byte) (w : Writer) : Writer :=
  {| chunks := chunks w ++ [data];
     offsets := offsets w;
     byteOffset := byteOffset w + length data |}.

Definition push_string (data : string) (w : Writer) : Writer :=
  push (Js.encode data) w.

(** [`${obj.id} 0 obj\n${serialize(obj.dict)}\n`] *)
Definition head (obj : PDFObject) : string :=
  Js.String_nat (id obj) +:+ " 0 obj" +:+ Js.nl
  +:+ serialize (VDict (dict obj)) +:+ Js.nl.

(** The body of the loop over [objects]. *)
Definition write_object (w : Writer) (obj : PDFObject) : Writer :=
  let w := {| chunks := chunks w;
              offsets := <[id obj := byteOffset w]> (offsets w);
              byteOffset := byteOffset w |} in
  match stream obj with
  | Some bytes =>
      push_string (Js.nl +:+ "endstream" +:+ Js.nl +:+ "endobj" +:+ Js.nl)
        (push bytes
          (push_string (head obj +:+ "stream" +:+ Js.nl) w))
  | None => push_string (head obj +:+ "endobj" +:+ Js.nl) w
  end.

(** ['%PDF-1.4\n%\xFF\xFF\xFF\xFF\n'] *)
Definition file_header : string :=
  let xFF := ascii_of_nat 255 in
  "%PDF-1.4" +:+ Js.nl +:+ String "%"%char
    (String xFF (String xFF (String xFF (String xFF Js.nl)))).

(** [String(offsets[i]).padStart(10, '0') + ' 00000 n \n'] *)
Definition xref_entry (offsets : gmap nat nat) (i : nat) : string :=
  Js.padStart0 10
    (match offsets !! i with
     | Some off => Js.String_nat off
     | None => "undefined"
     end)
  +:+ " 00000 n " +:+ Js.nl.

Definition xref_head (n : nat) : string :=
  "xref" +:+ Js.nl +:+ "0 " +:+ Js.String_nat (n + 1) +:+ Js.nl
  +:+ "0000000000 65535 f " +:+ Js.nl.

(** The [xref] string after the loop [for (i = 1; i <= objects.length; i++)]. *)
Definition xref_table (offsets : gmap nat nat) (n : nat) : string :=
  fold_left (fun xref i => xref +:+ xref_entry offsets i) (seq 1 n)
            (xref_head n).

Definition trailer (n : nat) (catalogRef : Ref) : string :=
  "trailer" +:+ Js.nl
  +:+ serialize (VDict [("Size", VNum (Num.of_nat (n + 1)));
                        ("Root", VRef catalogRef)])
  +:+ Js.nl.

Definition startxref (xrefOffset : nat) : string :=
  "startxref" +:+ Js.nl +:+ Js.String_nat xrefOffset +:+ Js.nl
  +:+ "%%EOF" +:+ Js.nl.

(** The writer after the last [push] of [build], over a finished object
    list. *)
Definition written (objs : list PDFObject) (catalogRef : Ref) : Writer :=
  let w := push_string file_header
             {| chunks := []; offsets := ∅; byteOffset := 0 |} in
  let w := fold_left write_object objs w in
  let xrefOffset := byteOffset w in
  let w := push_string (xref_table (offsets w) (length objs)) w in
  let w := push_string (trailer (length objs) catalogRef) w in
  push_string (startxref xrefOffset) w.

(** [result.set(chunk, offset)] on a buffer the chunk fits in. *)
Definition set_at (result chunk : list byte) (offset : nat) : list byte :=
  take offset result ++ chunk ++ drop (offset + length chunk) result.

(** The copy loop: [result], and [offset] after each chunk. *)
Definition copy_chunk (st : list byte * nat) (chunk : list byte)
    : list byte * nat :=
  (set_at (fst st) chunk (snd st), snd st + length chunk).

(** The writer pass of [build]: the chunks, copied one after the other
    into a zeroed buffer of [byteOffset] bytes. *)
Definition write (objs : list PDFObject) (catalogRef : Ref) : list byte :=
  let w := written objs catalogRef in
  let result := repeat "000"%byte (byteOffset w) in
  fst (fold_left copy_chunk (chunks w) (result, 0)).

(** The loop that completes every page object: its [Parent], and the
    [F1] slot of its [Resources.Font].  ([Resources.Font] is always a
    dictionary in an object made by [page]; any other shape is left as it
    is.) *)
Definition backfill (pagesRef fontRef : Ref) (obj : PDFObject) : PDFObject :=
  match dict_get "Type" (dict obj) with
  | Some (VStr t) =>
      if String.eqb t "/Page" then
        let d := dict_set "Parent" (VRef pagesRef) (dict obj) in
        let d :=
          match dict_get "Resources" d with
          | Some (VDict resources) =>
              match dict_get "Font" resources with
              | Some (VDict font) =>
                  dict_set "Resources"
                    (VDict (dict_set "Font"
                              (VDict (dict_set "F1" (VRef fontRef) font))
                              resources)) d
              | _ => d
              end
          | _ => d
          end in
        {| id := id obj; dict := d; stream := stream obj |}
      else obj
  | _ => obj
  end.

(** [build()].  [Kids] holds the page array itself; the writer reads it
    within this call, so the dictionary records its content at this
    point. *)
Definition build (b : Builder) : Builder * result (list byte) :=
  if length (pages b) =? 0 then (b, Throw NoPagesError)
  else if built b then (b, Throw BuildTwice)
  else
    let b := {| objects := objects b; pages := pages b; nextId := nextId b;
                built := true |} in
    let '(b, fontRef) :=
      addObject [("Type", VStr "/Font"); ("Subtype", VStr "/Type1");
                 ("BaseFont", VStr "/Helvetica")] None b in
    let '(b, pagesRef) :=
      addObject [("Type", VStr "/Pages");
                 ("Kids", VArr (map VRef (pages b)));
                 ("Count", VNum (Num.of_nat (length (pages b))))] None b in
    let b := {| objects := map (backfill pagesRef fontRef) (objects b);
                pages := pages b; nextId := nextId b; built := built b |} in
    let '(b, catalogRef) :=
      addObject [("Type", VStr "/Catalog"); ("Pages", VRef pagesRef)] None b in
    (b, Ok (write (objects b) catalogRef)).

(** ** The layout loops of [markdown]

    Here with numbers read exactly: the shape of the loops, for what
    holds whichever way a comparison goes (which letters are kept, which
    items make which pages, what is drawn for an item).  What the
    comparisons decide is the subject of [Markdown64] below. *)

Module Markdown.

(** *** Word wrap *)

Section Wrap.

Variables (size maxW : number).

(** The body of [for (const ch of word)], on [lines] and [chunk]. *)
Definition wrap_char (st : list string * string) (ch : ascii)
    : list string * string :=
  let '(lines, chunk) := st in
  let '(lines, chunk) :=
    if Num.gtb (measureText (chunk +:+ String ch EmptyString) size) maxW
       && Js.truthy chunk
    then (lines ++ [chunk], EmptyString)
    else (lines, chunk) in
  (lines, chunk +:+ String ch EmptyString).

(** The body of [for (const word of words)], on [lines] and [line]. *)
Definition wrap_word (st : list string * string) (word : string)
    : list string * string :=
  let '(lines, line) := st in
  if Num.gtb (measureText word size) maxW then
    let lines := if Js.truthy line then lines ++ [line] else lines in
    (* line = chunk; continue *)
    fold_left wrap_char (list_ascii_of_string word) (lines, EmptyString)
  else
    let test := if Js.truthy line then line +:+ " " +:+ word else word in
    if Num.leb (measureText test size) maxW then (lines, test)
    else ((if Js.truthy line then lines ++ [line] else lines), word).

Definition wrap (text : string) : list string :=
  let words := Js.split " "%char text in
  let '(lines, line) := fold_left wrap_word words ([], EmptyString) in
  let lines := if Js.truthy line then lines ++ [line] else lines in
  if 0 <? length lines then lines else [EmptyString].

End Wrap.

(** *** Pagination *)

Record Item := {
  text : string;
  size : number;
  indent : number;
  spaceBefore : number;
  spaceAfter : number;
  rule : option bool;
  color : option string
}.

Record Page := { items : list Item; ys : list number }.

(** The variables of the pagination loop: [pages], [y], [pg], [ys]. *)
Record Cursor := {
  pages : list Page;
  y : number;
  pg : list Item;
  cur_ys : list number
}.

Definition needed (item : Item) : number :=
  (spaceBefore item + size item + spaceAfter item)%Q.

Section Paginate.

Variables (H M : number).

Definition start : Cursor :=
  {| pages := []; y := (H - M)%Q; pg := []; cur_ys := [] |}.

(** [if (pg.length) pages.push({ items: pg, ys })] *)
Definition flush (c : Cursor) : list Page :=
  if 0 <? length (pg c)
  then pages c ++ [{| items := pg c; ys := cur_ys c |}]
  else pages c.

(** The body of [for (const item of items)]. *)
Definition place (c : Cursor) (item : Item) : Cursor :=
  let c :=
    if Num.ltb (y c - needed item)%Q M
    then {| pages := flush c; y := (H - M)%Q; pg := []; cur_ys := [] |}
    else c in
  let y1 := (y c - spaceBefore item)%Q in
  {| pages := pages c;
     y := (y1 - (size item + spaceAfter item))%Q;
     pg := pg c ++ [item];
     cur_ys := cur_ys c ++ [y1] |}.

Definition paginate (all : list Item) : list Page :=
  let c := fold_left place all start in
  let pages := flush c in
  if 0 <? length pages then pages else [{| items := []; ys := [] |}].

End Paginate.

(** *** Block classification *)

(** [\s] and what [trim] strips, among the code units below U+0100. *)
Definition is_space (c : ascii) : bool :=
  let n := nat_of_ascii c in
  ((9 <=? n) && (n <=? 13)) || (n =? 32) || (n =? 160).

(** [\d] *)
Definition is_digit (c : ascii) : bool :=
  let n := nat_of_ascii c in (48 <=? n) && (n <=? 57).

Fixpoint trimStart (cs : list ascii) : list ascii :=
  match cs with
  | c :: rest => if is_space c then trimStart rest else cs
  | [] => []
  end.

Definition trimEnd (cs : list ascii) : list ascii :=
  rev (trimStart (rev cs)).

Definition trim (cs : list ascii) : list ascii := trimEnd (trimStart cs).

(** The length of the longest prefix of characters satisfying [f]. *)
Fixpoint run_length (f : ascii -> bool) (cs : list ascii) : nat :=
  match cs with
  | c :: rest => if f c then S (run_length f rest) else 0
  | [] => 0
  end.

Definition space_at (k : nat) (cs : list ascii) : bool :=
  match cs !! k with Some c => is_space c | None => false end.

(** [/^#{1,6}\s/]: the character after the hashes is not a hash, so the
    match takes the whole run of them. *)
Definition is_heading (cs : list ascii) : bool :=
  let n := run_length (Ascii.eqb "#"%char) cs in
  (1 <=? n) && (n <=? 6) && space_at n cs.

(** [/^[-*]\s/] *)
Definition is_bullet (cs : list ascii) : bool :=
  match cs with
  | c :: s :: _ =>
      (Ascii.eqb c "-"%char || Ascii.eqb c "*"%char) && is_space s
  | _ => false
  end.

(** [/^\d+\.\s/] *)
Definition is_numbered (cs : list ascii) : bool :=
  let n := run_length is_digit cs in
  (1 <=? n)
  && match cs !! n with Some c => Ascii.eqb c "."%char | None => false end
  && space_at (S n) cs.

(** [/^(-{3,}|\*{3,}|_{3,})$/] *)
Definition is_rule (cs : list ascii) : bool :=
  let all_of c := (3 <=? length cs) && (run_length (Ascii.eqb c) cs =? length cs) in
  all_of "-"%char || all_of "*"%char || all_of "_"%char.

Inductive BlockType := start_ | header | list_ | rule_ | blank | para.

Definition is_start_or_blank (t : BlockType) : bool :=
  match t with start_ | blank => true | _ => false end.

(** [lines.forEach((l, i) => items.push(make(l, i)))] *)
Definition push_lines (make : string -> bool -> Item) (lines : list string)
    : list Item :=
  match lines with
  | [] => []
  | l :: rest => make l true :: map (fun l => make l false) rest
  end.

Section Blocks.

Variable textW : number.

Definition bodySize : number := 11%Q.

(** The body of [for (const raw of md.split('\n'))], on [items] and
    [prevType]. *)
Definition classify (st : list Item * BlockType) (raw : string)
    : list Item * BlockType :=
  let '(items, prevType) := st in
  let cs := trimEnd (list_ascii_of_string raw) in
  let slice k := string_of_list_ascii (drop k cs) in
  if is_heading cs then
    let rawLvl := run_length (Ascii.eqb "#"%char) cs in
    let lvl := Nat.min rawLvl 3 in
    let size := nth (lvl - 1) [22%Q; 16%Q; 13%Q] 0%Q in
    let before :=
      match prevType with
      | start_ => 0%Q
      | _ => nth (lvl - 1) [14%Q; 12%Q; 10%Q] 0%Q
      end in
    (items ++ push_lines
       (fun l first =>
          {| text := l; size := size; indent := 0%Q;
             spaceBefore := if first then before else 0%Q;
             spaceAfter := 4%Q; rule := None; color := Some "#111111" |})
       (wrap size textW (slice (rawLvl + 1))),
     header)
  else if is_bullet cs then
    (items ++ push_lines
       (fun l first =>
          {| text := (if first then "- " else "  ") +:+ l; size := bodySize;
             indent := 12%Q; spaceBefore := 0%Q; spaceAfter := 2%Q;
             rule := None; color := None |})
       (wrap bodySize (textW - 18)%Q (slice 2)),
     list_)
  else if is_numbered cs then
    let n := run_length is_digit cs in
    let num := string_of_list_ascii (take n cs) in
    (items ++ push_lines
       (fun l first =>
          {| text := (if first then num +:+ ". " else "   ") +:+ l;
             size := bodySize; indent := 12%Q; spaceBefore := 0%Q;
             spaceAfter := 2%Q; rule := None; color := None |})
       (wrap bodySize (textW - 18)%Q (slice (n + 2))),
     list_)
  else if is_rule cs then
    (items ++ [{| text := ""; size := bodySize; indent := 0%Q;
                  spaceBefore := 8%Q; spaceAfter := 8%Q; rule := Some true;
                  color := None |}],
     rule_)
  else if 0 =? length (trim cs) then
    ((if is_start_or_blank prevType then items
      else items ++ [{| text := ""; size := bodySize; indent := 0%Q;
                        spaceBefore := 0%Q; spaceAfter := 4%Q; rule := None;
                        color := None |}]),
     blank)
  else
    (items ++ push_lines
       (fun l _ =>
          {| text := l; size := bodySize; indent := 0%Q; spaceBefore := 0%Q;
             spaceAfter := 4%Q; rule := None; color := Some "#111111" |})
       (wrap bodySize textW (string_of_list_ascii cs)),
     para).

Definition blocks (md : string) : list Item :=
  fst (fold_left classify (Js.split "010"%char md) ([], start_)).

End Blocks.

(** *** The whole of [markdown] *)

Record Options := {
  opt_width : option number;
  opt_height : option number;
  opt_margin : option number
}.

Section Driver.

Context `{NumberToString}.




End Driver.

End Markdown.

(** ** The layout loops of [markdown], in the arithmetic they run in *)

(** The loops of [markdown] compare and subtract doubles; here they are
    over IEEE binary64, every operation rounded as the runtime rounds it
    and every comparison false on NaN. *)
Module Markdown64.

(** *** Word wrap *)

Section Wrap.

Variables (size maxW : float).

(** The body of [for (const ch of word)], on [lines] and [chunk]. *)
Definition wrap_char (st : list string * string) (ch : ascii)
    : list string * string :=
  let '(lines, chunk) := st in
  let '(lines, chunk) :=
    if PrimFloat.ltb maxW
         (F64.measureText (chunk +:+ String ch EmptyString) size)
       && Js.truthy chunk
    then (lines ++ [chunk], EmptyString)
    else (lines, chunk) in
  (lines, chunk +:+ String ch EmptyString).

(** The body of [for (const word of words)], on [lines] and [line]. *)
Definition wrap_word (st : list string * string) (word : string)
    : list string * string :=
  let '(lines, line) := st in
  if PrimFloat.ltb maxW (F64.measureText word size) then
    let lines := if Js.truthy line then lines ++ [line] else lines in
    (* line = chunk; continue *)
    fold_left wrap_char (list_ascii_of_string word) (lines, EmptyString)
  else
    let test := if Js.truthy line then line +:+ " " +:+ word else word in
    if PrimFloat.leb (F64.measureText test size) maxW then (lines, test)
    else ((if Js.truthy line then lines ++ [line] else lines), word).

Definition wrap (text : string) : list string :=
  let words := Js.split " "%char text in
  let '(lines, line) := fold_left wrap_word words ([], EmptyString) in
  let lines := if Js.truthy line then lines ++ [line] else lines in
  if 0 <? length lines then lines else [EmptyString].

End Wrap.

(** *** Pagination *)

Record Item := {
  text : string;
  size : float;
  indent : float;
  spaceBefore : float;
  spaceAfter : float;
  rule : option bool;
  color : option string
}.

Record Page := { items : list Item; ys : list float }.

(** The variables of the pagination loop: [pages], [y], [pg], [ys]. *)
Record Cursor := {
  pages : list Page;
  y : float;
  pg : list Item;
  cur_ys : list float
}.

(** [item.spaceBefore + item.size + item.spaceAfter] *)
Definition needed (item : Item) : float :=
  (spaceBefore item + size item + spaceAfter item)%float.

Section Paginate.

Variables (H M : float).

Definition start : Cursor :=
  {| pages := []; y := (H - M)%float; pg := []; cur_ys := [] |}.

(** [if (pg.length) pages.push({ items: pg, ys })] *)
Definition flush (c : Cursor) : list Page :=
  if 0 <? length (pg c)
  then pages c ++ [{| items := pg c; ys := cur_ys c |}]
  else pages c.

(** The body of [for (const item of items)]. *)
Definition place (c : Cursor) (item : Item) : Cursor :=
  let c :=
    if PrimFloat.ltb (y c - needed item)%float M
    then {| pages := flush c; y := (H - M)%float; pg := []; cur_ys := [] |}
    else c in
  let y1 := (y c - spaceBefore item)%float in
  {| pages := pages c;
     y := (y1 - (size item + spaceAfter item))%float;
     pg := pg c ++ [item];
     cur_ys := cur_ys c ++ [y1] |}.

Definition paginate (all : list Item) : list Page :=
  let c := fold_left place all start in
  let pages := flush c in
  if 0 <? length pages then pages else [{| items := []; ys := [] |}].

End Paginate.

(** *** Block classification *)

(** [lines.forEach((l, i) => items.push(make(l, i)))] *)
Definition push_lines (make : string -> bool -> Item) (lines : list string)
    : list Item :=
  match lines with
  | [] => []
  | l :: rest => make l true :: map (fun l => make l false) rest
  end.

Section Blocks.

Variable textW : float.

Definition bodySize : float := 11%float.

(** The body of [for (const raw of md.split('\n'))], on [items] and
    [prevType]. *)
Definition classify (st : list Item * Markdown.BlockType) (raw : string)
    : list Item * Markdown.BlockType :=
  let '(items, prevType) := st in
  let cs := Markdown.trimEnd (list_ascii_of_string raw) in
  let slice k := string_of_list_ascii (drop k cs) in
  if Markdown.is_heading cs then
    let rawLvl := Markdown.run_length (Ascii.eqb "#"%char) cs in
    let lvl := Nat.min rawLvl 3 in
    let size := nth (lvl - 1) [22%float; 16%float; 13%float] 0%float in
    let before :=
      match prevType with
      | Markdown.start_ => 0%float
      | _ => nth (lvl - 1) [14%float; 12%float; 10%float] 0%float
      end in
    (items ++ push_lines
       (fun l first =>
          {| text := l; size := size; indent := 0%float;
             spaceBefore := if first then before else 0%float;
             spaceAfter := 4%float; rule := None; color := Some "#111111" |})
       (wrap size textW (slice (rawLvl + 1))),
     Markdown.header)
  else if Markdown.is_bullet cs then
    (items ++ push_lines
       (fun l first =>
          {| text := (if first then "- " else "  ") +:+ l; size := bodySize;
             indent := 12%float; spaceBefore := 0%float;
             spaceAfter := 2%float; rule := None; color := None |})
       (wrap bodySize (textW - 18)%float (slice 2)),
     Markdown.list_)
  else if Markdown.is_numbered cs then
    let n := Markdown.run_length Markdown.is_digit cs in
    let num := string_of_list_ascii (take n cs) in
    (items ++ push_lines
       (fun l first =>
          {| text := (if first then num +:+ ". " else "   ") +:+ l;
             size := bodySize; indent := 12%float; spaceBefore := 0%float;
             spaceAfter := 2%float; rule := None; color := None |})
       (wrap bodySize (textW - 18)%float (slice (n + 2))),
     Markdown.list_)
  else if Markdown.is_rule cs then
    (items ++ [{| text := ""; size := bodySize; indent := 0%float;
                  spaceBefore := 8%float; spaceAfter := 8%float;
                  rule := Some true; color := None |}],
     Markdown.rule_)
  else if 0 =? length (Markdown.trim cs) then
    ((if Markdown.is_start_or_blank prevType then items
      else items ++ [{| text := ""; size := bodySize; indent := 0%float;
                        spaceBefore := 0%float; spaceAfter := 4%float;
                        rule := None; color := None |}]),
     Markdown.blank)
  else
    (items ++ push_lines
       (fun l _ =>
          {| text := l; size := bodySize; indent := 0%float;
             spaceBefore := 0%float; spaceAfter := 4%float; rule := None;
             color := Some "#111111" |})
       (wrap bodySize textW (string_of_list_ascii cs)),
     Markdown.para).

Definition blocks (md : string) : list Item :=
  fst (fold_left classify (Js.split "010"%char md) ([], Markdown.start_)).

End Blocks.

(** *** The pages [markdown] draws *)

Record Options := {
  opt_width : option float;
  opt_height : option float;
  opt_margin : option float
}.

(** [pages] when the drawing loop starts (l.336): the items of the
    text, paginated, with [W], [H] and [M] from the options. *)
Definition layout (md : string) (opts : Options) : list Page :=
  let W := default 612%float (opt_width opts) in
  let H := default 792%float (opt_height opts) in
  let M := default 72%float (opt_margin opts) in
  let textW := (W - M * 2)%float in
  paginate H M (blocks textW md).

End Markdown64.

(** * The vocabulary of the statements *)

(** A runtime printer for the examples below; no statement depends on
    what it prints. *)
Definition sample_printer : NumberToString := fun x => Num.toFixed 4 x.

(** The five replacements of [pdfString], one after the other. *)
Definition replacements (str : string) : string :=
  Js.replaceAll "010"%char "\n"
    (Js.replaceAll "013"%char "\r"
      (Js.replaceAll ")"%char "\)"
        (Js.replaceAll "("%char "\("
          (Js.replaceAll "\"%char "\\" str)))).

(** What an operation leaves alone: the page list and the flag. *)
Definition same_pages (b b' : Builder) : Prop :=
  pages b' = pages b /\ built b' = built b.

(** Ids are handed out in order, from 1: the object at position [k] of
    the list has id [k + 1], and the counter is one past the last id. *)
Definition ids_ok (b : Builder) : Prop :=
  map id (objects b) = seq 1 (length (objects b))
  /\ nextId b = S (length (objects b)).

(** The running offset is the number of bytes in the chunks. *)
Definition in_step (w : Writer) : Prop :=
  byteOffset w = length (concat (chunks w)).

(** The bytes one object contributes to the file. *)
Definition object_bytes (o : PDFObject) : list byte :=
  match stream o with
  | Some bytes =>
      Js.encode (head o +:+ "stream" +:+ Js.nl) ++ bytes
      ++ Js.encode (Js.nl +:+ "endstream" +:+ Js.nl +:+ "endobj" +:+ Js.nl)
  | None => Js.encode (head o +:+ "endobj" +:+ Js.nl)
  end.

(** The bytes written before the object at position [k]. *)
Definition bytes_before (objs : list PDFObject) (k : nat) : list byte :=
  Js.encode file_header ++ concat (map object_bytes (take k objs)).

Arguments bytes_before : simpl never.

Fixpoint concat_strings (l : list string) : string :=
  match l with
  | [] => EmptyString
  | s :: rest => s +:+ concat_strings rest
  end.

(** An entry of the table for an offset that was recorded. *)
Definition entry_of (off : nat) : string :=
  Js.padStart0 10 (Js.String_nat off) +:+ " 00000 n " +:+ Js.nl.

(** The offsets the table lists, by position in the object list. *)
Definition recorded_offsets (objs : list PDFObject) : list nat :=
  map (fun k => length (bytes_before objs k)) (seq 0 (length objs)).

(** The number a string of decimal digits denotes. *)
Fixpoint decimal_value (s : string) : N :=
  match s with
  | EmptyString => 0
  | String c rest =>
      ((N_of_ascii c - 48) * 10 ^ N.of_nat (String.length rest)
       + decimal_value rest)%N
  end.

Section PaginateVocabulary.

Import Markdown.

Variables (H M : number).

(** No item is lost or moved: the pages in order, then the page in
    progress, hold the items placed so far. *)
Definition placed (c : Cursor) : list Item :=
  concat (map items (pages c)) ++ pg c.

End PaginateVocabulary.

(** ** The layout in binary64 *)

(** A line the wrap loops may keep: not empty, and a single character or
    not measured wider than the budget (the test [measure > maxW] is
    false). *)
Definition kept (size maxW : float) (l : string) : Prop :=
  l <> EmptyString
  /\ (String.length l = 1
      \/ PrimFloat.ltb maxW (F64.measureText l size) = false).

(** The invariant of both loops of [wrap]. *)
Definition wrap64_inv (size maxW : float) (st : list string * string) : Prop :=
  Forall (kept size maxW) (fst st)
  /\ (snd st = EmptyString \/ kept size maxW (snd st)).

Section Paginate64Vocabulary.

Import Markdown64.

(** The cursor after placing items one below the other from [y], with
    the two rounded subtractions the loop makes for each. *)
Fixpoint descend (y : float) (its : list Item) : float :=
  match its with
  | [] => y
  | it :: rest =>
      descend (y - spaceBefore it - (size it + spaceAfter it))%float rest
  end.

(** The coordinates the items get on the way. *)
Fixpoint coords (y : float) (its : list Item) : list float :=
  match its with
  | [] => []
  | it :: rest =>
      (y - spaceBefore it)%float
      :: coords (y - spaceBefore it - (size it + spaceAfter it))%float rest
  end.

Variables (H M : float).

(** What the overflow test of the loop looks at: the cursor less what
    the item needs. *)
Definition reach (y0 : float) (item : Item) : float :=
  (y0 - needed item)%float.

(** What holds of every page, closed or in progress: its coordinates
    are those of its items placed from the top margin down, and every
    item but the first was placed after the overflow test had failed on
    the cursor the items before it left. *)
Definition page_ok64 (p : Page) : Prop :=
  ys p = coords (H - M)%float (items p)
  /\ forall k item,
       items p !! k = Some item -> 1 <= k ->
       PrimFloat.ltb (reach (descend (H - M)%float (take k (items p))) item) M
       = false.

Definition current64 (c : Cursor) : Page :=
  {| items := pg c; ys := cur_ys c |}.

Definition cursor_ok64 (c : Cursor) : Prop :=
  Forall page_ok64 (pages c)
  /\ page_ok64 (current64 c)
  /\ y c = descend (H - M)%float (pg c)
  /\ Forall (fun p => items p <> []) (pages c).

Definition placed64 (c : Cursor) : list Item :=
  concat (map items (pages c)) ++ pg c.

End Paginate64Vocabulary.

(** ** The serializer, call by call *)

(** The calls of [serialize] as a relation: [returns val out] when the
    call [serialize(val)] comes back with [out], each rule one [return]
    of l.96-114 and each premise one call it waits for.  That every
    value has a derivation is what it means for the function to be
    total. *)
Inductive returns : PDFValue -> string -> Prop :=
| returns_null : returns VNull "null"
| returns_undefined : returns VUndefined "null"
| returns_bool b : returns (VBool b) (if b then "true" else "false")
| returns_integer x :
    Num.isInteger x = true ->
    returns (VNum x) (Js.String_Z (Qnum (Qred x)))
| returns_fraction x :
    Num.isInteger x = false ->
    returns (VNum x) (Num.strip_zeros (Num.toFixed 4 x))
| returns_name s :
    Js.startsWith "/"%char s = true -> returns (VStr s) s
| returns_escaped s :
    Js.startsWith "/"%char s = false ->
    Js.startsWith "("%char s = true ->
    returns (VStr s) s
| returns_text s :
    Js.startsWith "/"%char s = false ->
    Js.startsWith "("%char s = false ->
    returns (VStr s) (pdfString s)
| returns_array items outs :
    returns_items items outs ->
    returns (VArr items) ("[" +:+ Js.join " " outs +:+ "]")
| returns_ref r : returns (VRef r) (Js.String_nat (ref_id r) +:+ " 0 R")
| returns_dict entries pairs :
    returns_entries entries pairs ->
    returns (VDict entries)
            ("<<" +:+ Js.nl +:+ Js.join Js.nl pairs +:+ Js.nl +:+ ">>")
with returns_items : list PDFValue -> list string -> Prop :=
| returns_items_nil : returns_items [] []
| returns_items_cons v out vs outs :
    returns v out -> returns_items vs outs ->
    returns_items (v :: vs) (out :: outs)
with returns_entries : list (string * PDFValue) -> list string -> Prop :=
| returns_entries_nil : returns_entries [] []
| returns_entries_skip k v rest pairs :
    is_undefined v = true ->
    returns_entries rest pairs ->
    returns_entries ((k, v) :: rest) pairs
| returns_entries_keep k v out rest pairs :
    is_undefined v = false ->
    returns v out ->
    returns_entries rest pairs ->
    returns_entries ((k, v) :: rest) (("/" +:+ k +:+ " " +:+ out) :: pairs).

Scheme returns_mut := Induction for returns Sort Prop
  with returns_items_mut := Induction for returns_items Sort Prop
  with returns_entries_mut := Induction for returns_entries Sort Prop.

(** ** The doubles as rationals

    What the statements about rounding are measured in: the rational a
    finite double stands for (a zero, an infinity and NaN count as 0),
    and the test that a double is normal, that is, finite with the full
    53 digits. *)
Definition SF2Q (x : spec_float) : Q :=
  match x with
  | S754_finite s m e =>
      ((if s then -1 else 1) * inject_Z (Zpos m) * 2 ^ e)%Q
  | _ => 0%Q
  end.

Definition value (x : float) : Q := SF2Q (Prim2SF x).

Definition normal (x : float) : bool :=
  match Prim2SF x with
  | S754_finite _ m _ => (2 ^ 52 <=? Zpos m)%Z
  | _ => false
  end.

(** A double that is a number and not an infinity. *)
Definition finite (x : float) : bool :=
  match Prim2SF x with
  | S754_zero _ | S754_finite _ _ _ => true
  | _ => false
  end.

(** Where a rational lies between [m] and [m + 1] units of [P], in the
    words of [location]: on [m], below the middle, on it, or above. *)
Definition located (P v : Q) (m : Z) (l : location) : Prop :=
  match l with
  | loc_Exact => (v == inject_Z m * P)%Q
  | loc_Inexact Lt =>
      (inject_Z m * P < v /\ v < (inject_Z m + (1 # 2)) * P)%Q
  | loc_Inexact Eq => (v == (inject_Z m + (1 # 2)) * P)%Q
  | loc_Inexact Gt =>
      ((inject_Z m + (1 # 2)) * P < v /\ v < (inject_Z m + 1) * P)%Q
  end.

(** The same of the mantissa, round bit and sticky bit the shifts keep. *)
Definition located_record (P v : Q) (mrs : shr_record) : Prop :=
  (0 <= shr_m mrs)%Z /\ located P v (shr_m mrs) (loc_of_shr_record mrs).

(** [a] is [x] up to the share [eps] of [a]. *)
Definition close (eps a x : Q) : Prop := (Qabs (a - x) <= eps * Qabs a)%Q.

(** The share one rounded product or quotient is proved to keep to:
    three halves of 2^-52, for a result that is normal. *)
Definition one_rounding : Q := 3 # 9007199254740992.

(** No product or quotient on the way to [measureText s z] and to
    [measureText s 1 * z] underflows, overflows or is not a number. *)
Definition normal_throughout (s : string) (z : float) : bool :=
  normal (F64.total_width s 0 * z)
  && normal (F64.measureText s z)
  && normal (F64.total_width s 0 * 1)
  && normal (F64.measureText s 1)
  && normal (F64.measureText s 1 * z).

(** ** Vocabulary of the further properties *)

(** [hex.replace(/^#/, '')] *)
Definition strip_hash (hex : string) : string :=
  match hex with
  | String c rest => if Ascii.eqb c "#"%char then rest else hex
  | EmptyString => hex
  end.

(** The character class [[0-9a-fA-F]]. *)
Definition is_hex_digit (c : ascii) : bool :=
  let n := nat_of_ascii c in
  ((48 <=? n) && (n <=? 57)) || ((65 <=? n) && (n <=? 70))
  || ((97 <=? n) && (n <=? 102)).

(** A token the colour codec accepts: after one leading hash, three or six
    hexadecimal digits. *)
Definition hex_token (s : string) : Prop :=
  let t := list_ascii_of_string (strip_hash s) in
  (length t = 3 \/ length t = 6) /\ forallb is_hex_digit t = true.

Definition channel_ok (x : number) : Prop := (0 <= x <= 1)%Q.

(** What [parseColor] does after its first test, on the characters left
    once the hash is stripped. *)
Definition parse_digits (t : list ascii) : option (list number) :=
  match (match t with [a; b; c] => [a; a; b; b; c; c] | cs => cs end) with
  | [r1; r2; g1; g2; b1; b2] =>
      match channel r1 r2, channel g1 g2, channel b1 b2 with
      | Some r, Some g, Some b => Some [r; g; b]
      | _, _, _ => None
      end
  | _ => None
  end.


(** A reader of string literals, as a consumer of the file would do it:
    after a backslash, [n] and [r] stand for line feed and carriage
    return and any other character for itself; the literal ends at the
    first parenthesis that is not escaped. *)
Definition unescape_char (c : ascii) : ascii :=
  if Ascii.eqb c "n"%char then "010"%char
  else if Ascii.eqb c "r"%char then "013"%char
  else c.

(** The text up to the closing parenthesis, and what follows it. *)
Fixpoint read_body (s : string) : option (string * string) :=
  match s with
  | EmptyString => None
  | String c rest =>
      if Ascii.eqb c ")"%char then Some (EmptyString, rest)
      else if Ascii.eqb c "\"%char then
        match rest with
        | EmptyString => None
        | String d rest' =>
            match read_body rest' with
            | Some (t, r) => Some (String (unescape_char d) t, r)
            | None => None
            end
        end
      else
        match read_body rest with
        | Some (t, r) => Some (String c t, r)
        | None => None
        end
  end.

Definition read_literal (s : string) : option (string * string) :=
  match s with
  | String c body => if Ascii.eqb c "("%char then read_body body else None
  | EmptyString => None
  end.

(** The characters of a string other than the space, in order. *)
Definition letters (s : string) : list ascii :=
  List.filter (fun c => negb (Ascii.eqb c " "%char)) (list_ascii_of_string s).

(** The letters the loops of [wrap] hold: those of the lines pushed, then
    those of the line in progress. *)
Definition held (st : list string * string) : list ascii :=
  flat_map letters (fst st) ++ letters (snd st).

(** A raw line of white space only, the empty line included. *)
Definition is_blank (raw : string) : bool :=
  forallb Markdown.is_space (list_ascii_of_string raw).

(** The item a blank line leaves between two blocks. *)
Definition spacer : Markdown.Item :=
  {| Markdown.text := ""; Markdown.size := Markdown.bodySize;
     Markdown.indent := 0%Q; Markdown.spaceBefore := 0%Q;
     Markdown.spaceAfter := 4%Q; Markdown.rule := None;
     Markdown.color := None |}.

(** ** The builder, as its callers see it *)

(** A call the page context serves without an exception: every call but
    an [image] of bytes [parseJpeg] rejects. *)
Definition accepts (c : Call) : bool :=
  match c with
  | Image jpegBytes _ _ _ _ =>
      match parseJpeg jpegBytes with inr _ => true | inl _ => false end
  | _ => true
  end.

Definition is_image (c : Call) : bool :=
  match c with Image _ _ _ _ _ => true | _ => false end.

Definition is_link (c : Call) : bool :=
  match c with Link _ _ _ _ _ _ => true | _ => false end.

(** The callback of a [page] call, in either overload. *)
Definition callback (args : PageArgs) : Callback :=
  match args with page_fn fn => fn | page_sized _ _ fn => fn end.

(** The stream of an object is as long as its [Length] entry says. *)
Definition stream_ok (o : PDFObject) : Prop :=
  forall bytes, stream o = Some bytes ->
    dict_get "Length" (dict o) = Some (VNum (Num.of_nat (length bytes))).

(** The shape [build] completes: a page object whose resources hold a
    font dictionary. *)
Definition page_like (o : PDFObject) : Prop :=
  dict_get "Type" (dict o) = Some (VStr "/Page")
  /\ stream o = None
  /\ exists resources font,
       dict_get "Resources" (dict o) = Some (VDict resources)
       /\ dict_get "Font" resources = Some (VDict font).

(** The object a reference names, ids counting from 1. *)
Definition resolve (objs : list PDFObject) (r : Ref) : option PDFObject :=
  match ref_id r with
  | O => None
  | S k => match objs !! k with
           | Some o => if id o =? ref_id r then Some o else None
           | None => None
           end
  end.

(** Every page reference names a page object. *)
Definition pages_ok (b : Builder) : Prop :=
  Forall (fun r => exists o, resolve (objects b) r = Some o /\ page_like o)
         (pages b).

(** [b'] is [b] with the objects [new] allocated after its own, under
    the next ids in order. *)
Definition extends (b b' : Builder) (new : list PDFObject) : Prop :=
  objects b' = objects b ++ new
  /\ nextId b' = nextId b + length new
  /\ map id new = seq (nextId b) (length new)
  /\ built b' = built b.

Section Reachable.

Context `{NumberToString}.

(** The states of a builder its three operations lead to. *)
Inductive reachable : Builder -> Prop :=
| reachable_pdf : reachable pdf
| reachable_page args b : reachable b -> reachable (fst (page args b))
| reachable_build b : reachable b -> reachable (fst (build b)).

End Reachable.

(** The bytes of the [image] calls of a callback, in order. *)
Definition image_calls (fn : Callback) : list (list byte) :=
  flat_map (fun c => match c with
                     | Image jpegBytes _ _ _ _ => [jpegBytes]
                     | _ => []
                     end) fn.

(** The [links] entries the [link] calls of a callback leave, in order. *)
Definition link_calls (fn : Callback) : list (string * list number) :=
  flat_map (fun c => match c with
                     | Link url x y w h _ => [(url, [x; y; (x + w)%Q; (y + h)%Q])]
                     | _ => []
                     end) fn.

(** The names and references of consecutive images, counted from [k]
    and allocated from id [id0]. *)
Fixpoint named_from {A} (k id0 : nat) (imgs : list A) : list (string * Ref) :=
  match imgs with
  | [] => []
  | _ :: rest =>
      ("/Im" +:+ Js.String_nat k, new_Ref id0) :: named_from (S k) (S id0) rest
  end.

(** The same as entries of the [XObject] dictionary: the names without
    their slash. *)
Definition xobject_entries {A} (k id0 : nat) (imgs : list A) : Dict :=
  map (fun img : string * Ref => (slice1 (fst img), VRef (snd img)))
      (named_from k id0 imgs).

(** The dictionary of a link annotation. *)
Definition annot_dict (lnk : string * list number) : Dict :=
  [("Type", VStr "/Annot"); ("Subtype", VStr "/Link");
   ("Rect", VArr (map VNum (snd lnk)));
   ("Border", VArr [VNum 0%Q; VNum 0%Q; VNum 0%Q]);
   ("A", VDict [("Type", VStr "/Action"); ("S", VStr "/URI");
                ("URI", VStr (fst lnk))])].

(** ** Callbacks in general

    [fn(ctx)] at l.191 runs code of the caller.  That code holds the
    builder and the contexts it has been handed: besides drawing it can
    call [page] and [build] again, catch what they throw, and throw an
    exception of its own.  A script is what such code does to the
    builder, call by call; what it computes in between is the Rocq
    function that gives the rest of the script.  Scripts are finite: code
    that never returns is not among them. *)

(** What is thrown: an [Error] of this library, or anything else. *)
Inductive Thrown :=
| Own (what : string)
| Lib (e : Error).

Inductive Outcome :=
| Returned
| Threw (t : Thrown).

(** A context is named by the number of the [page] call that made it,
    which [page] hands to its callback; a call on a number no [page]
    call has handed out does nothing. *)
Inductive Script :=
| Done
| Raise (t : Thrown)
| CtxCall (i : nat) (c : Call) (k : Script)
| PageCall (size : option (number * number)) (fn : nat -> Script) (k : Script)
| BuildCall (k : list byte -> Script)
| TryCatch (body : Script) (handler : Thrown -> Script) (k : Script).

(** The builder, and the local variables of every [page] call so far:
    they outlive the call when the callback has kept its context. *)
Record World := {
  doc : Builder;
  frames : list PageLocal
}.

Definition no_locals : PageLocal :=
  {| ops := []; images := []; links := []; imageCount := 0 |}.

Section Scripts.

Context `{NumberToString}.

(** [page] from the line after [fn(ctx)] on. *)
Definition finish_page (width height : number) (p : PageLocal) (b : Builder)
    : Builder :=
  let content := Js.join Js.nl (ops p) in
  let contentBytes := Js.encode content in
  let '(b, contentRef) :=
    addObject [("Length", VNum (Num.of_nat (length contentBytes)))]
              (Some contentBytes) b in
  let xobjects :=
    fold_left (fun d img => dict_set (slice1 (fst img)) (VRef (snd img)) d)
              (images p) [] in
  let '(b, annots) := add_annots (links p) b in
  let '(b, pageRef) :=
    addObject (page_dict width height contentRef xobjects annots) None b in
  {| objects := objects b; pages := pages b ++ [pageRef];
     nextId := nextId b; built := built b |}.

(** [page] up to [fn(ctx)]: fresh local variables, and their context. *)
Definition enter (w : World) : World :=
  {| doc := doc w; frames := frames w ++ [no_locals] |}.

(** [page] after [fn(ctx)] has returned, for the context [i]. *)
Definition leave (size : option (number * number)) (i : nat) (w : World)
    : World :=
  let '(width, height) := default (612%Q, 792%Q) size in
  {| doc := finish_page width height (default no_locals (frames w !! i)) (doc w);
     frames := frames w |}.

Fixpoint exec (s : Script) (w : World) : World * Outcome :=
  match s with
  | Done => (w, Returned)
  | Raise t => (w, Threw t)
  | CtxCall i c k =>
      match frames w !! i with
      | None => exec k w
      | Some p =>
          match call c (doc w) p with
          | (b, inr p') =>
              exec k {| doc := b; frames := <[i := p']> (frames w) |}
          | (b, inl e) => ({| doc := b; frames := frames w |}, Threw (Lib e))
          end
      end
  | PageCall size fn k =>
      let i := length (frames w) in
      match exec (fn i) (enter w) with
      | (w, Returned) => exec k (leave size i w)
      | (w, Threw t) => (w, Threw t)
      end
  | BuildCall k =>
      match build (doc w) with
      | (b, inr bytes) => exec (k bytes) {| doc := b; frames := frames w |}
      | (b, inl e) => ({| doc := b; frames := frames w |}, Threw (Lib e))
      end
  | TryCatch body handler k =>
      match exec body w with
      | (w, Returned) => exec k w
      | (w, Threw t) =>
          match exec (handler t) w with
          | (w, Returned) => exec k w
          | (w, Threw t') => (w, Threw t')
          end
      end
  end.

(** The callbacks of [Callback]: the calls one after the other on the
    context handed over, and nothing else. *)
Fixpoint straight (fn : Callback) (i : nat) : Script :=
  match fn with
  | [] => Done
  | c :: rest => CtxCall i c (straight rest i)
  end.

Definition size_of (args : PageArgs) : option (number * number) :=
  match args with
  | page_fn _ => None
  | page_sized w h _ => Some (w, h)
  end.

Definition outcome_of {A} (r : result A) : Outcome :=
  match r with
  | inl e => Threw (Lib e)
  | inr _ => Returned
  end.

End Scripts.

(** A script that never calls [build]. *)
Fixpoint no_build (s : Script) : Prop :=
  match s with
  | Done | Raise _ => True
  | CtxCall _ _ k => no_build k
  | PageCall _ fn k => (forall i, no_build (fn i)) /\ no_build k
  | BuildCall _ => False
  | TryCatch body handler k =>
      no_build body /\ (forall t, no_build (handler t)) /\ no_build k
  end.

(** What is thrown without [build]: an exception of the caller's own
    making, or that of a malformed image. *)
Definition not_of_build (t : Thrown) : Prop :=
  match t with
  | Own _ => True
  | Lib e => kind e = MalformedImage
  end.

(** A script that never calls [build] and throws no error of [build]
    of its own accord: what it throws is of its own making, or what it
    has caught and passes on. *)
Fixpoint clear_of_build (s : Script) : Prop :=
  match s with
  | Done => True
  | Raise t => not_of_build t
  | CtxCall _ _ k => clear_of_build k
  | PageCall _ fn k => (forall i, clear_of_build (fn i)) /\ clear_of_build k
  | BuildCall _ => False
  | TryCatch body handler k =>
      clear_of_build body
      /\ (forall t, not_of_build t -> clear_of_build (handler t))
      /\ clear_of_build k
  end.

(** What no call undoes: the flag once set, and the pages there are. *)
Definition grown (b b' : Builder) : Prop :=
  (built b = true -> built b' = true)
  /\ exists more, pages b' = pages b ++ more.

Definition set_built (flag : bool) (w : World) : World :=
  {| doc := {| objects := objects (doc w); pages := pages (doc w);
               nextId := nextId (doc w); built := flag |};
     frames := frames w |}.


(** * Properties *)

(** ** Text metrics *)


(** ** Rounding in binary64 *)

Lemma pow2_pos (e : Z) : (0 < 2 ^ e)%Q.
Proof. apply Qpower_0_lt. reflexivity. Qed.

Lemma pow2_add (a b : Z) : (2 ^ (a + b) == 2 ^ a * 2 ^ b)%Q.
Proof. apply Qpower_plus. discriminate. Qed.

Lemma pow2_succ (e : Z) : (2 ^ (e + 1) == 2 * 2 ^ e)%Q.
Proof. rewrite pow2_add. change (2 ^ 1)%Q with 2%Q. ring. Qed.

Lemma pow2_inject (n : Z) : (0 <= n)%Z -> (inject_Z (2 ^ n) == 2 ^ n)%Q.
Proof. intros Hn. exact (Zpower_Qpower 2 n Hn). Qed.

Lemma pow2_ge_1 (n : Z) : (0 <= n)%Z -> (1 <= 2 ^ n)%Q.
Proof.
  intros Hn. rewrite <- (pow2_inject n Hn).
  change 1%Q with (inject_Z 1). rewrite <- Zle_Qle.
  pose proof (Z.pow_pos_nonneg 2 n ltac:(lia) Hn). lia.
Qed.

Lemma located_scale P P' v m l :
  (P == P')%Q -> located P v m l -> located P' v m l.
Proof.
  intros HP. unfold located. destruct l as [|[| |]]; rewrite HP; tauto.
Qed.

(** Whatever the location says, the value is within the unit. *)
Lemma located_within P v m l :
  (0 < P)%Q -> located P v m l ->
  (inject_Z m * P <= v /\ v < (inject_Z m + 1) * P)%Q.
Proof.
  intros HP. unfold located. destruct l as [|[| |]]; intros Hl; lra.
Qed.

Section Rounding.

Variables (prec emax : Z).

Lemma shr_1_halves mrs :
  (0 <= shr_m mrs)%Z ->
  shr_1 mrs = {| shr_m := Z.div2 (shr_m mrs); shr_r := Z.odd (shr_m mrs);
                 shr_s := shr_r mrs || shr_s mrs |}.
Proof.
  destruct mrs as [m r s]. simpl. intros Hm.
  destruct m as [|[p|p|]|p]; try reflexivity; lia.
Qed.

(** One shift to the right keeps the value located, in units twice as
    large. *)
Lemma shr_1_located P v mrs :
  (0 < P)%Q -> located_record P v mrs -> located_record (2 * P) v (shr_1 mrs).
Proof.
  intros HP [Hm Hl]. rewrite (shr_1_halves mrs Hm).
  destruct mrs as [m r s]. simpl in *.
  pose proof (Z.div2_odd m) as Hodd.
  assert (Hq : (inject_Z m
                == 2 * inject_Z (Z.div2 m) + inject_Z (Z.b2z (Z.odd m)))%Q).
  { rewrite Hodd at 1. rewrite inject_Z_plus, inject_Z_mult. reflexivity. }
  split; [apply Z.div2_nonneg; exact Hm|].
  destruct (Z.odd m); simpl in Hq;
    destruct r, s; simpl in Hl |- *; rewrite Hq in Hl;
    change (inject_Z 1) with 1%Q in Hl; change (inject_Z 0) with 0%Q in Hl;
    set (h := inject_Z (Z.div2 m)) in *; clearbody h;
    lra.
Qed.

Lemma iter_shr_1_located p : forall e v mrs,
  located_record (2 ^ e) v mrs ->
  located_record (2 ^ (e + Zpos p)) v (SpecFloat.iter_pos shr_1 p mrs).
Proof.
  assert (Hstep : forall e v mrs,
            located_record (2 ^ e) v mrs ->
            located_record (2 ^ (e + 1)) v (shr_1 mrs)).
  { intros e v mrs Hl.
    destruct (shr_1_located _ v mrs (pow2_pos e) Hl) as [Hm Hl'].
    split; [exact Hm|].
    eapply located_scale; [|exact Hl']. symmetry. apply pow2_succ. }
  induction p as [p IH|p IH|]; intros e v mrs Hl; simpl.
  - replace (e + Zpos p~1)%Z with (e + 1 + Zpos p + Zpos p)%Z by lia.
    apply IH, IH, Hstep, Hl.
  - replace (e + Zpos p~0)%Z with (e + Zpos p + Zpos p)%Z by lia.
    apply IH, IH, Hl.
  - apply Hstep, Hl.
Qed.

(** [shr]: the value stays located, and the exponent does not go
    down. *)
Lemma shr_located v mrs e n :
  located_record (2 ^ e) v mrs ->
  located_record (2 ^ (snd (shr mrs e n))) v (fst (shr mrs e n))
  /\ (2 ^ e <= 2 ^ (snd (shr mrs e n)))%Q.
Proof.
  intros Hl. destruct n as [|p|p]; simpl; try (split; [exact Hl | lra]).
  split; [apply iter_shr_1_located, Hl|].
  rewrite pow2_add.
  pose proof (pow2_ge_1 (Zpos p) ltac:(lia)). pose proof (pow2_pos e). nra.
Qed.

Lemma record_of_loc m l :
  shr_m (shr_record_of_loc m l) = m
  /\ loc_of_shr_record (shr_record_of_loc m l) = l.
Proof. destruct l as [|[| |]]; split; reflexivity. Qed.

(** Rounding to nearest moves the value by at most half a unit. *)
Lemma round_nearest_even_near P v m l :
  (0 < P)%Q -> (0 <= m)%Z -> located P v m l ->
  (0 <= round_nearest_even m l)%Z
  /\ (- ((1 # 2) * P) <= inject_Z (round_nearest_even m l) * P - v <= (1 # 2) * P)%Q.
Proof.
  intros HP Hm Hl. unfold located in Hl.
  destruct l as [|[| |]]; cbn [round_nearest_even].
  - split; [exact Hm | lra].
  - destruct (Z.even m); [split; [exact Hm | lra]|].
    split; [lia|]. rewrite inject_Z_plus. change (inject_Z 1) with 1%Q. lra.
  - split; [exact Hm | lra].
  - split; [lia|]. rewrite inject_Z_plus. change (inject_Z 1) with 1%Q. lra.
Qed.

(** What [binary_round_aux] returns, when it is a finite number, is
    within a unit and a half of its last place of the value it was given
    to round. *)
Lemma binary_round_aux_near sx mx ex lx v s m e :
  (0 <= mx)%Z ->
  located (2 ^ ex) v mx lx ->
  binary_round_aux prec emax sx mx ex lx = S754_finite s m e ->
  s = sx
  /\ (- ((3 # 2) * 2 ^ e) < inject_Z (Zpos m) * 2 ^ e - v
      < (3 # 2) * 2 ^ e)%Q.
Proof.
  intros Hmx Hl. unfold binary_round_aux, shr_fexp.
  assert (Hrec : located_record (2 ^ ex) v (shr_record_of_loc mx lx)).
  { destruct (record_of_loc mx lx) as [E1 E2]. unfold located_record.
    rewrite E1, E2. split; assumption. }
  match goal with
  | |- context [shr ?mrs ex ?n] =>
      destruct (shr_located v mrs ex n Hrec) as [[Hm1 Hl1] _];
      destruct (shr mrs ex n) as [mrs1 e1]
  end.
  simpl in Hm1, Hl1.
  destruct (round_nearest_even_near _ v _ _ (pow2_pos e1) Hm1 Hl1)
    as [Hm2 Hnear].
  set (m2 := round_nearest_even (shr_m mrs1) (loc_of_shr_record mrs1)) in *.
  assert (Hrec2 : located_record (2 ^ e1) (inject_Z m2 * 2 ^ e1)
                    (shr_record_of_loc m2 loc_Exact)).
  { split; [exact Hm2 | simpl; reflexivity]. }
  match goal with
  | |- context [shr ?mrs e1 ?n] =>
      destruct (shr_located _ mrs e1 n Hrec2) as [[Hm3 Hl3] Hle];
      destruct (shr mrs e1 n) as [mrs3 e3]
  end.
  simpl in Hm3, Hl3, Hle.
  destruct (shr_m mrs3) as [|m3|m3] eqn:E3; [discriminate| |discriminate].
  destruct (e3 <=? emax - prec)%Z; [|discriminate].
  intros [= <- <- <-]. split; [reflexivity|].
  pose proof (located_within _ _ _ _ (pow2_pos e3) Hl3) as Hin.
  pose proof (pow2_pos e1). pose proof (pow2_pos e3).
  lra.
Qed.

(** The product. *)
Lemma SFmul_near x y s m e :
  SFmul prec emax x y = S754_finite s m e ->
  (- ((3 # 2) * 2 ^ e) < SF2Q (S754_finite s m e) - SF2Q x * SF2Q y
   < (3 # 2) * 2 ^ e)%Q.
Proof.
  destruct x as [sx|sx| |sx mx ex], y as [sy|sy| |sy my ey];
    try discriminate.
  unfold SFmul. intros Hr.
  apply (binary_round_aux_near _ _ _ _
           (inject_Z (Zpos mx) * 2 ^ ex * (inject_Z (Zpos my) * 2 ^ ey)))
    in Hr as [-> Hnear].
  - pose proof (pow2_pos e).
    destruct sx, sy; cbn [xorb SF2Q]; lra.
  - lia.
  - unfold located. rewrite Pos2Z.inj_mul, inject_Z_mult, pow2_add. ring.
Qed.

(** The quotient. *)
Lemma new_location_spec (d r : Z) :
  (0 < d)%Z -> (0 <= r < d)%Z ->
  match new_location d r with
  | loc_Exact => r = 0%Z
  | loc_Inexact Lt => (0 < r /\ 2 * r < d)%Z
  | loc_Inexact Eq => (2 * r = d)%Z
  | loc_Inexact Gt => (d < 2 * r)%Z
  end.
Proof.
  intros Hd Hr. unfold new_location, new_location_even, new_location_odd.
  destruct (Z.even d) eqn:Ev.
  - destruct (Z.eqb_spec r 0) as [E|E]; [exact E|].
    destruct (Z.compare_spec (2 * r) d); lia.
  - assert (Hodd : Z.odd d = true) by (rewrite <- Z.negb_even, Ev; reflexivity).
    apply Z.odd_spec in Hodd as [k Hk].
    destruct (Z.eqb_spec r 0) as [E|E]; [exact E|].
    destruct (Z.compare_spec (2 * r + 1) d); lia.
Qed.

Lemma quotient_located (P v M R : Q) (q : Z) (l : location) :
  (0 < P)%Q -> (0 < M)%Q -> (R < M)%Q ->
  (v * M == (inject_Z q * M + R) * P)%Q ->
  match l with
  | loc_Exact => (R == 0)%Q
  | loc_Inexact Lt => (0 < R /\ 2 * R < M)%Q
  | loc_Inexact Eq => (2 * R == M)%Q
  | loc_Inexact Gt => (M < 2 * R)%Q
  end ->
  located P v q l.
Proof.
  intros HP HM HR Heq Hl. unfold located.
  set (a := inject_Z q) in *. clearbody a.
  assert (Hnz : ~ (M == 0)%Q) by lra.
  destruct l as [|[| |]].
  - apply (Qmult_inj_r _ _ M Hnz). nra.
  - apply (Qmult_inj_r _ _ M Hnz). nra.
  - split; apply (Qmult_lt_r _ _ M HM); nra.
  - split; apply (Qmult_lt_r _ _ M HM); nra.
Qed.

Lemma SFdiv_core_located mx ex my ey :
  let '(q, e, l) := SFdiv_core_binary prec emax (Zpos mx) ex (Zpos my) ey in
  (0 <= q)%Z
  /\ located (2 ^ e)
       (inject_Z (Zpos mx) * 2 ^ ex / (inject_Z (Zpos my) * 2 ^ ey)) q l.
Proof.
  unfold SFdiv_core_binary.
  set (e := Z.min _ _).
  assert (He : (e <= ex - ey)%Z) by (unfold e; lia).
  set (s := (ex - ey - e)%Z).
  assert (Hs : (0 <= s)%Z) by (unfold s; lia).
  set (m' := match s with
             | 0%Z => Zpos mx
             | Zpos _ => Z.shiftl (Zpos mx) s
             | Zneg _ => 0%Z
             end).
  assert (Hm' : m' = (Zpos mx * 2 ^ s)%Z).
  { unfold m'. destruct s as [|p|p] eqn:Es.
    - rewrite Z.mul_1_r. reflexivity.
    - apply Z.shiftl_mul_pow2. lia.
    - lia. }
  clearbody m'.
  pose proof (Z_div_mod m' (Zpos my) ltac:(lia)) as Hdiv.
  destruct (Z.div_eucl m' (Zpos my)) as [q r]. destruct Hdiv as [Hqr Hr].
  assert (Hq : (0 <= q)%Z) by nia.
  split; [exact Hq|].
  pose proof (new_location_spec (Zpos my) r ltac:(lia) Hr) as Hloc.
  apply (quotient_located _ _ (inject_Z (Zpos my)) (inject_Z r)).
  - apply pow2_pos.
  - change 0%Q with (inject_Z 0). rewrite <- Zlt_Qlt. lia.
  - rewrite <- Zlt_Qlt. lia.
  - assert (HP : (2 ^ ex == inject_Z (2 ^ s) * 2 ^ e * 2 ^ ey)%Q).
    { rewrite (pow2_inject s Hs), <- !pow2_add.
      replace (s + e + ey)%Z with ex by (unfold s; lia). reflexivity. }
    assert (HM : (inject_Z (Zpos mx) * inject_Z (2 ^ s)
                  == inject_Z q * inject_Z (Zpos my) + inject_Z r)%Q).
    { rewrite <- !inject_Z_mult, <- inject_Z_plus, <- Hm', Hqr.
      rewrite (Z.mul_comm q). reflexivity. }
    rewrite <- HM, HP.
    field. split.
    + pose proof (pow2_pos ey). lra.
    + change 0%Q with (inject_Z 0). rewrite inject_Z_injective. lia.
  - destruct (new_location (Zpos my) r) as [|[| |]].
    + rewrite Hloc. reflexivity.
    + rewrite <- Hloc, inject_Z_mult. reflexivity.
    + destruct Hloc as [H1 H2]. split.
      * change 0%Q with (inject_Z 0). rewrite <- Zlt_Qlt. exact H1.
      * change 2%Q with (inject_Z 2). rewrite <- inject_Z_mult, <- Zlt_Qlt.
        exact H2.
    + change 2%Q with (inject_Z 2). rewrite <- inject_Z_mult, <- Zlt_Qlt.
      exact Hloc.
Qed.

Lemma SFdiv_near x y s m e :
  SFdiv prec emax x y = S754_finite s m e ->
  (- ((3 # 2) * 2 ^ e) < SF2Q (S754_finite s m e) - SF2Q x / SF2Q y
   < (3 # 2) * 2 ^ e)%Q.
Proof.
  destruct x as [sx|sx| |sx mx ex], y as [sy|sy| |sy my ey];
    try discriminate.
  unfold SFdiv.
  pose proof (SFdiv_core_located mx ex my ey) as Hcore.
  destruct (SFdiv_core_binary prec emax (Zpos mx) ex (Zpos my) ey)
    as [[q e'] l].
  destruct Hcore as [Hq Hl]. intros Hr.
  apply (binary_round_aux_near _ _ _ _ _ _ _ _ Hq Hl) in Hr as [-> Hnear].
  pose proof (pow2_pos ey) as Hpy.
  assert (Hmy : (0 < inject_Z (Zpos my))%Q)
    by (change 0%Q with (inject_Z 0); rewrite <- Zlt_Qlt; lia).
  assert (E : (SF2Q (S754_finite sx mx ex) / SF2Q (S754_finite sy my ey)
               == (if xorb sx sy then -1 else 1)
                  * (inject_Z (Zpos mx) * 2 ^ ex
                     / (inject_Z (Zpos my) * 2 ^ ey)))%Q).
  { unfold SF2Q. revert Hpy Hmy.
    generalize (inject_Z (Zpos my)) (2 ^ ey)%Q (inject_Z (Zpos mx)) (2 ^ ex)%Q.
    intros b Pb a Pa Hpy Hmy.
    destruct sx, sy; cbn [xorb]; field; repeat split; lra. }
  rewrite E. clear E. revert Hnear.
  generalize (inject_Z (Zpos mx) * 2 ^ ex / (inject_Z (Zpos my) * 2 ^ ey))%Q.
  intros v Hnear. pose proof (pow2_pos e).
  destruct sx, sy; cbn [xorb SF2Q]; lra.
Qed.

End Rounding.

(** ** One rounded operation, and several *)

Lemma close_eq eps a x x' : (x == x')%Q -> close eps a x -> close eps a x'.
Proof. unfold close. intros ->. tauto. Qed.

Lemma close_weaken eps eps' a x :
  (eps <= eps')%Q -> close eps a x -> close eps' a x.
Proof.
  unfold close. intros He Hc. pose proof (Qabs_nonneg a).
  eapply Qle_trans; [exact Hc|]. nra.
Qed.

(** A rounded operation on a rounded operand: the shares add up, and
    their product comes on top. *)
Lemma close_compose e1 e2 p x a c :
  (0 <= e1)%Q -> (0 <= e2)%Q ->
  close e1 p x -> close e2 a (p * c) ->
  close (e1 + e2 + e1 * e2) a (x * c).
Proof.
  unfold close. intros He1 He2 H1 H2.
  assert (Hsplit : (a - x * c == (a - p * c) + c * (p - x))%Q) by ring.
  assert (Hpc : (p * c == a - (a - p * c))%Q) by ring.
  pose proof (Qabs_triangle (a - p * c) (c * (p - x))) as Ht.
  rewrite <- Hsplit, Qabs_Qmult in Ht.
  pose proof (Qabs_triangle a (- (a - p * c))) as Ht'.
  rewrite Qabs_opp in Ht'.
  assert (Hpc' : (Qabs (p * c) <= Qabs a + Qabs (a - p * c))%Q).
  { rewrite Hpc at 1. exact Ht'. }
  rewrite Qabs_Qmult in Hpc'.
  pose proof (Qabs_nonneg a). pose proof (Qabs_nonneg c).
  pose proof (Qabs_nonneg p). pose proof (Qabs_nonneg (p - x)).
  pose proof (Qabs_nonneg (a - p * c)).
  revert Ht Hpc' H1 H2 H H0 H3 H4 H5.
  generalize (Qabs (a - x * c)) (Qabs (a - p * c)) (Qabs (p - x))
             (Qabs a) (Qabs c) (Qabs p).
  intros G D1 D2 A C Pp Ht Hpc' H1 H2 HA HC HPp HD2 HD1.
  assert (S1 : (C * D2 <= e1 * (C * Pp))%Q) by nra.
  assert (S2 : (e1 * (C * Pp) <= e1 * A + e1 * D1)%Q) by nra.
  assert (S3 : (e1 * D1 <= e1 * e2 * A)%Q) by nra.
  nra.
Qed.

Lemma normal_finite x :
  normal x = true ->
  exists s m e, Prim2SF x = S754_finite s m e /\ (2 ^ 52 <= Zpos m)%Z.
Proof.
  unfold normal. destruct (Prim2SF x) as [| | |s m e]; try discriminate.
  intros Hm. exists s, m, e. split; [reflexivity|]. apply Z.leb_le, Hm.
Qed.

(** The distance [binary_round_aux] keeps to, as a share of a normal
    result. *)
Lemma near_close s m e v :
  (2 ^ 52 <= Zpos m)%Z ->
  (- ((3 # 2) * 2 ^ e) < SF2Q (S754_finite s m e) - v < (3 # 2) * 2 ^ e)%Q ->
  close one_rounding (SF2Q (S754_finite s m e)) v.
Proof.
  intros Hm Hnear. unfold close, one_rounding.
  assert (Hmq : (inject_Z (2 ^ 52) <= inject_Z (Zpos m))%Q)
    by (rewrite <- Zle_Qle; exact Hm).
  change (inject_Z (2 ^ 52)) with 4503599627370496%Q in Hmq.
  pose proof (pow2_pos e) as HP.
  assert (Habs : (Qabs (SF2Q (S754_finite s m e))
                  == inject_Z (Zpos m) * 2 ^ e)%Q).
  { unfold SF2Q. destruct s.
    - rewrite Qabs_neg by nra. ring.
    - rewrite Qabs_pos by nra. ring. }
  rewrite Habs. apply Qabs_Qle_condition.
  revert Hnear. generalize (SF2Q (S754_finite s m e)). intros r Hnear.
  nra.
Qed.

(** A product that is normal is the exact product up to one rounding. *)
Lemma mul_close (x y : float) :
  normal (x * y) = true ->
  close one_rounding (value (x * y)) (value x * value y).
Proof.
  intros Hn. destruct (normal_finite _ Hn) as (s & m & e & Hr & Hm).
  unfold value. rewrite Hr. apply near_close; [exact Hm|].
  rewrite FloatAxioms.mul_spec in Hr. exact (SFmul_near _ _ _ _ _ _ _ Hr).
Qed.

(** And so is a quotient. *)
Lemma div_close (x y : float) :
  normal (x / y) = true ->
  close one_rounding (value (x / y)) (value x / value y).
Proof.
  intros Hn. destruct (normal_finite _ Hn) as (s & m & e & Hr & Hm).
  unfold value. rewrite Hr. apply near_close; [exact Hm|].
  rewrite FloatAxioms.div_spec in Hr. exact (SFdiv_near _ _ _ _ _ _ _ Hr).
Qed.

Lemma value_1000 : (value 1000 == 1000)%Q.
Proof. vm_compute. reflexivity. Qed.

Lemma value_1 : (value 1 == 1)%Q.
Proof. vm_compute. reflexivity. Qed.

(** The measure of the empty string is zero at every size that is a
    number, and so is the measure at size 1 times the size. *)
Lemma measureText_empty_string (z : float) :
  finite z = true ->
  F64.strict_eq (F64.measureText "" z) (F64.measureText "" 1 * z)%float = true
  /\ F64.strict_eq (F64.measureText "" z) 0 = true.
Proof.
  unfold finite, F64.strict_eq, F64.measureText. intros Hz.
  change (F64.total_width "" 0) with 0%float.
  rewrite !FloatAxioms.eqb_spec, !FloatAxioms.div_spec, !FloatAxioms.mul_spec,
    !FloatAxioms.div_spec, !FloatAxioms.mul_spec.
  assert (E0 : Prim2SF 0 = S754_zero false) by reflexivity.
  assert (E1 : Prim2SF 1 = S754_finite false 4503599627370496 (-52))
    by reflexivity.
  assert (E2 : Prim2SF 1000 = S754_finite false 8796093022208000 (-43))
    by reflexivity.
  rewrite E0, E1, E2.
  destruct (Prim2SF z) as [s|s| |s m e]; try discriminate;
    split; reflexivity.
Qed.

(** C9, as the code runs it.  In binary64, [(width * 3) / 1000] and
    [((width * 1) / 1000) * 3] round differently for the one-letter
    string "a" (width 556): 1.6679999999999999 against
    1.6680000000000001. *)
Lemma measureText_binary64_not_linear :
  PrimFloat.ltb 0 3 = true
  /\ F64.strict_eq (F64.measureText "a" 3)
                   (F64.measureText "a" 1 * 3)%float = false.
Proof. split; vm_compute; reflexivity. Qed.

(** C9, amended.  In the doubles the code computes with,
    [measureText s z] and [measureText s 1 * z] are the same number up
    to rounding: they differ by at most 2^-49 of the sum of their
    magnitudes, for every string and every size for which no product or
    quotient on the way underflows, overflows or is not a number.  Two
    roundings lead to the one and three to the other, each of them
    within three halves of 2^-52 of its result.  For the empty string
    the two are equal, both zero, at every size that is a number. *)
Theorem measureText_linear_up_to_rounding (s : string) (z : float) :
  (normal_throughout s z = true ->
   (Qabs (value (F64.measureText s z) - value (F64.measureText s 1 * z))
    <= (1 # 562949953421312)
       * (Qabs (value (F64.measureText s z))
          + Qabs (value (F64.measureText s 1 * z))))%Q)
  /\ (finite z = true ->
      F64.strict_eq (F64.measureText "" z) (F64.measureText "" 1 * z)%float
      = true).
Proof.
  split; [|intros Hz; apply (measureText_empty_string z Hz)].
  unfold normal_throughout. rewrite !andb_true_iff.
  intros ((((N1 & N2) & N3) & N4) & N5).
  unfold F64.measureText in *.
  set (W := F64.total_width s 0) in *.
  assert (He : (0 <= one_rounding)%Q) by (unfold one_rounding; lra).
  (* the left side: two roundings *)
  pose proof (mul_close W z N1) as C1.
  pose proof (div_close (W * z) 1000 N2) as C2.
  apply (close_eq _ _ _ (value (W * z) * (1 # 1000))) in C2;
    [|rewrite value_1000; field].
  pose proof (close_compose _ _ _ _ _ _ He He C1 C2) as CA.
  (* the right side: three *)
  pose proof (mul_close W 1 N3) as C3.
  apply (close_eq _ _ _ (value W)) in C3; [|rewrite value_1; ring].
  pose proof (div_close (W * 1) 1000 N4) as C4.
  apply (close_eq _ _ _ (value (W * 1) * (1 # 1000))) in C4;
    [|rewrite value_1000; field].
  pose proof (close_compose _ _ _ _ _ _ He He C3 C4) as C34.
  pose proof (mul_close (W * 1 / 1000) z N5) as C5.
  assert (He2 : (0 <= one_rounding + one_rounding
                      + one_rounding * one_rounding)%Q)
    by (unfold one_rounding; lra).
  pose proof (close_compose _ _ _ _ _ _ He2 He C34 C5) as CB.
  apply (close_eq _ _ _ (value W * value z * (1 # 1000))) in CB; [|ring].
  apply (close_weaken _ (1 # 562949953421312)) in CA;
    [|unfold one_rounding; lra].
  apply (close_weaken _ (1 # 562949953421312)) in CB;
    [|unfold one_rounding; lra].
  unfold close in CA, CB.
  revert CA CB.
  generalize (value W * value z * (1 # 1000))%Q.
  generalize (value (W * z / 1000)) (value (W * 1 / 1000 * z)).
  intros a b x CA CB.
  assert (Hsplit : (a - b == (a - x) + - (b - x))%Q) by ring.
  rewrite Hsplit.
  eapply Qle_trans; [apply Qabs_triangle|]. rewrite Qabs_opp.
  revert CA CB. generalize (Qabs (a - x)) (Qabs (b - x)) (Qabs a) (Qabs b).
  intros. lra.
Qed.

Lemma measureText_linear_up_to_rounding_witness :
  (Qabs (value (F64.measureText "a" 3) - value (F64.measureText "a" 1 * 3))
   <= (1 # 562949953421312)
      * (Qabs (value (F64.measureText "a" 3))
         + Qabs (value (F64.measureText "a" 1 * 3))))%Q.
Proof.
  apply (proj1 (measureText_linear_up_to_rounding "a" 3)).
  vm_compute. reflexivity.
Defined.

(** ** Strings and their encoding *)

Lemma append_assoc (s1 s2 s3 : string) :
  (s1 +:+ s2) +:+ s3 = s1 +:+ (s2 +:+ s3).
Proof.
  induction s1 as [|a s1 IH]; [reflexivity|].
  change (String a ((s1 +:+ s2) +:+ s3) = String a (s1 +:+ s2 +:+ s3)).
  f_equal. exact IH.
Qed.

Lemma append_empty_r (s : string) : s +:+ EmptyString = s.
Proof.
  induction s as [|a s IH]; [reflexivity|].
  change (String a (s +:+ EmptyString) = String a s). f_equal. exact IH.
Qed.

Lemma encode_app (s1 s2 : string) :
  Js.encode (s1 +:+ s2) = Js.encode s1 ++ Js.encode s2.
Proof.
  induction s1 as [|a s1 IH]; simpl; [reflexivity|].
  rewrite IH. apply app_assoc.
Qed.

(** ** Value serializer *)

Lemma replaceAll_app c by_ s1 s2 :
  Js.replaceAll c by_ (s1 +:+ s2)
  = Js.replaceAll c by_ s1 +:+ Js.replaceAll c by_ s2.
Proof.
  induction s1 as [|a s1 IH]; simpl; [reflexivity|].
  destruct (Ascii.eqb a c); simpl; rewrite IH.
  - symmetry. apply append_assoc.
  - reflexivity.
Qed.

Lemma replacements_cons c rest :
  replacements (String c rest) = escape_char c +:+ replacements rest.
Proof.
  unfold replacements, escape_char. simpl.
  destruct (Ascii.eqb_spec c "\"%char) as [->|_]; [reflexivity|]. simpl.
  destruct (Ascii.eqb_spec c "("%char) as [->|_]; [reflexivity|]. simpl.
  destruct (Ascii.eqb_spec c ")"%char) as [->|_]; [reflexivity|]. simpl.
  destruct (Ascii.eqb_spec c "013"%char) as [->|_]; [reflexivity|]. simpl.
  destruct (Ascii.eqb_spec c "010"%char) as [->|_]; reflexivity.
Qed.

(** The chain of global replacements escapes character by character:
    no later replacement touches what an earlier one wrote. *)
Lemma pdfString_escape str : pdfString str = "(" +:+ escape str +:+ ")".
Proof.
  change (pdfString str) with ("(" +:+ replacements str +:+ ")").
  do 2 f_equal.
  induction str as [|c rest IH]; [reflexivity|].
  rewrite replacements_cons, IH. reflexivity.
Qed.

(** The entries of a dictionary, as the source lists them: those that
    are not [undefined], each as a slash, the key, a space and the
    value. *)
Lemma serialize_VDict (entries : list (string * PDFValue)) :
  serialize (VDict entries)
  = "<<" +:+ Js.nl
    +:+ Js.join Js.nl
          (map (fun kv => "/" +:+ fst kv +:+ " " +:+ serialize (snd kv))
               (List.filter (fun kv => negb (is_undefined (snd kv))) entries))
    +:+ Js.nl +:+ ">>".
Proof.
  simpl. do 4 f_equal.
  induction entries as [|[k v] entries IH]; [reflexivity|]. simpl.
  destruct (is_undefined v); simpl; rewrite IH; reflexivity.
Qed.

(** Every call of [serialize] returns, with the string the function
    computes: by induction on the value tree, the calls on the items of
    an array and on the entries of a dictionary returning first. *)
Lemma serialize_returns : forall v : PDFValue, returns v (serialize v).
Proof.
  fix serialize_returns 1.
  intros v. destruct v as [| |b|x|s|items|r|entries].
  - constructor.
  - constructor.
  - constructor.
  - simpl. destruct (Num.isInteger x) eqn:E; constructor; exact E.
  - simpl. destruct (Js.startsWith "/"%char s) eqn:E1;
      [constructor; exact E1|].
    destruct (Js.startsWith "("%char s) eqn:E2; constructor; assumption.
  - simpl. constructor.
    induction items as [|v items IH]; simpl; constructor;
      [apply serialize_returns | exact IH].
  - constructor.
  - rewrite serialize_VDict. constructor.
    induction entries as [|[k v] entries IH]; simpl; [constructor|].
    destruct (is_undefined v) eqn:E; simpl.
    + apply returns_entries_skip; [exact E | exact IH].
    + apply (returns_entries_keep k v (serialize v)); [exact E | |exact IH].
      apply serialize_returns.
Qed.

(** A call returns one string only. *)
Lemma returns_serialize v out : returns v out -> out = serialize v.
Proof.
  intros Hr.
  induction Hr using returns_mut with
    (P0 := fun items outs _ => outs = map serialize items)
    (P1 := fun entries pairs _ =>
             pairs
             = map (fun kv => "/" +:+ fst kv +:+ " " +:+ serialize (snd kv))
                   (List.filter (fun kv => negb (is_undefined (snd kv)))
                                entries)).
  all: simpl;
    repeat match goal with
           | E : Num.isInteger _ = _ |- _ => rewrite E; clear E
           | E : Js.startsWith _ _ = _ |- _ => rewrite E; clear E
           | E : is_undefined _ = _ |- _ => rewrite E; clear E; simpl
           | E : _ = map _ _ |- _ => rewrite E; clear E
           | E : _ = serialize _ |- _ => rewrite E; clear E
           end;
    try reflexivity.
  rewrite <- serialize_VDict. reflexivity.
Qed.

(** C5, as stated, fails on a text string that begins with an open
    parenthesis: the serializer takes it for a string escaped already and
    emits it as it is. *)
Lemma serialize_paren_prefix_verbatim :
  Js.startsWith "/"%char "(a" = false
  /\ serialize (VStr "(a") = "(a"
  /\ serialize (VStr "(a") <> "(" +:+ escape "(a" +:+ ")".
Proof. repeat split; discriminate. Qed.

(** C5, amended.  On every value the call of [serialize] returns, and
    returns one string only, the one the function computes.  A string
    that begins with a slash or with an open parenthesis is emitted as it
    is; every other string is emitted between parentheses, with
    backslash, both parentheses, carriage return and line feed escaped
    and every other character unchanged. *)
Theorem serialize_text_string :
  (forall v : PDFValue, exists out : string, returns v out)
  /\ (forall (v : PDFValue) (out : string),
        returns v out <-> out = serialize v)
  /\ (forall s : string,
        Js.startsWith "/"%char s = true -> serialize (VStr s) = s)
  /\ (forall s : string,
        Js.startsWith "("%char s = true -> serialize (VStr s) = s)
  /\ (forall s : string,
        Js.startsWith "/"%char s = false ->
        Js.startsWith "("%char s = false ->
        serialize (VStr s) = "(" +:+ escape s +:+ ")").
Proof.
  split; [|split; [|split; [|split]]].
  - intros v. exists (serialize v). apply serialize_returns.
  - intros v out. split; [apply returns_serialize|].
    intros ->. apply serialize_returns.
  - intros s Hname. simpl. rewrite Hname. reflexivity.
  - intros s Hparen. simpl. rewrite Hparen.
    destruct (Js.startsWith "/"%char s); reflexivity.
  - intros s Hname Hparen. simpl. rewrite Hname, Hparen.
    apply pdfString_escape.
Qed.

Lemma serialize_text_string_witness :
  serialize (VStr "a(b)\c") = "(a\(b\)\\c)"
  /\ serialize (VStr "(a(b") = "(a(b"
  /\ serialize (VStr "/Name") = "/Name".
Proof.
  destruct serialize_text_string as (_ & _ & Hname & Hparen & Htext).
  split; [|split].
  - exact (Htext "a(b)\c" eq_refl eq_refl).
  - exact (Hparen "(a(b" eq_refl).
  - exact (Hname "/Name" eq_refl).
Defined.

(** ** JPEG header scanner *)

Section JpegFacts.

Variable bytes : list byte.

Abbreviation len := (length bytes).

(** Every turn of the loop moves the index forward. *)
Lemma body_Next_gt i j : body bytes i = Next j -> i < j.
Proof.
  unfold body, skip.
  repeat match goal with
         | |- context [if ?c then _ else _] => destruct c
         end; intros E; inversion E; lia.
Qed.

(** Fuel beyond the distance to the end of the stream changes nothing. *)
Lemma scan_fuel f1 : forall f2 i,
  len <= i + f1 -> len <= i + f2 -> scan bytes f1 i = scan bytes f2 i.
Proof.
  induction f1 as [|f1 IH]; intros f2 i H1 H2.
  - destruct f2 as [|f2]; [reflexivity|]. simpl.
    destruct (Nat.ltb_spec i (len - 1)); [lia | reflexivity].
  - destruct f2 as [|f2]; simpl.
    + destruct (Nat.ltb_spec i (len - 1)); [lia | reflexivity].
    + destruct (Nat.ltb_spec i (len - 1)); [|reflexivity].
      destruct (body bytes i) as [j| | |] eqn:E; try reflexivity.
      apply body_Next_gt in E. apply IH; lia.
Qed.

Lemma scan_unfold i :
  i < len - 1 ->
  scan bytes len i =
    match body bytes i with
    | Next j => scan bytes len j
    | Return r => Found r
    | BreakSOS => StoppedAtSOS
    | BreakShort => CutShort
    end.
Proof.
  intros Hi. rewrite (scan_fuel len (S len) i) by lia. simpl.
  destruct (Nat.ltb_spec i (len - 1)); [reflexivity | lia].
Qed.

Lemma scan_end i : len - 1 <= i -> scan bytes len i = RanOut.
Proof.
  intros Hi. rewrite (scan_fuel len (S len) i) by lia. simpl.
  destruct (Nat.ltb_spec i (len - 1)); [lia | reflexivity].
Qed.

(** The loop started at 2 goes through every visited index. *)
Lemma visits_scan i : visits bytes i -> scan bytes len 2 = scan bytes len i.
Proof.
  induction 1 as [|i j _ IH Hi E]; [reflexivity|].
  rewrite IH, (scan_unfold i Hi), E. reflexivity.
Qed.

(** Where the loop stops, read off the way it ends. *)
Lemma scan_stops f : forall i,
  visits bytes i -> len <= i + f ->
  match scan bytes f i with
  | Found r => exists j, visits bytes j /\ j < len - 1 /\ body bytes j = Return r
  | StoppedAtSOS => exists j, visits bytes j /\ j < len - 1 /\ body bytes j = BreakSOS
  | CutShort => exists j, visits bytes j /\ j < len - 1 /\ body bytes j = BreakShort
  | RanOut => exists j, visits bytes j /\ len - 1 <= j
  end.
Proof.
  induction f as [|f IH]; intros i Hv Hf; simpl.
  - exists i. split; [assumption | lia].
  - destruct (Nat.ltb_spec i (len - 1)) as [Hi|Hi].
    + destruct (body bytes i) as [j| | |] eqn:E; eauto.
      apply IH.
      * eapply visits_next; eauto.
      * apply body_Next_gt in E. lia.
    + exists i. split; [assumption | lia].
Qed.

(** The three ways of leaving the body without going on, in terms of
    the bytes at the index. *)
Lemma body_BreakSOS i : body bytes i = BreakSOS <-> SOS_at bytes i.
Proof.
  unfold body, skip, SOS_at.
  destruct (Z.eqb_spec (at_ bytes i) 255); simpl;
    [|split; [discriminate | tauto]].
  destruct (Z.eqb_spec (at_ bytes (i + 1)) 218); [tauto|].
  split; [|tauto].
  repeat match goal with
         | |- context [if ?c then _ else _] => destruct c
         end; discriminate.
Qed.

Lemma SOF_at_test i :
  at_ bytes i = 255%Z ->
  ((at_ bytes (i + 1) =? 192)%Z || (at_ bytes (i + 1) =? 194)%Z = true
   <-> SOF_at bytes i).
Proof.
  intros E. unfold SOF_at. rewrite orb_true_iff, !Z.eqb_eq. tauto.
Qed.

Lemma body_BreakShort i :
  body bytes i = BreakShort <->
  (SOF_at bytes i /\ len <= i + 9)
  \/ (at_ bytes i = 255%Z /\ at_ bytes (i + 1) <> 218%Z /\ ~ SOF_at bytes i
      /\ len <= i + 3).
Proof.
  unfold body, skip.
  destruct (Z.eqb_spec (at_ bytes i) 255) as [E|E]; simpl.
  2:{ unfold SOF_at. intuition discriminate. }
  pose proof (SOF_at_test i E) as Hsof.
  destruct (Z.eqb_spec (at_ bytes (i + 1)) 218) as [E1|E1].
  { unfold SOF_at. rewrite E1. intuition (try discriminate; try lia). }
  destruct ((at_ bytes (i + 1) =? 192)%Z || (at_ bytes (i + 1) =? 194)%Z).
  - assert (Hs : SOF_at bytes i) by (apply Hsof; reflexivity). clear Hsof.
    destruct (Nat.leb_spec len (i + 9)) as [H9|H9]; [tauto|].
    destruct (negb _ && negb _).
    + intuition (try discriminate; try lia).
    + destruct (Nat.leb_spec len (i + 3)); [lia|].
      intuition (try discriminate; try lia).
  - assert (Hs : ~ SOF_at bytes i).
    { intros Hs. apply Hsof in Hs. discriminate. }
    clear Hsof.
    destruct (Nat.leb_spec len (i + 3)) as [H3|H3]; [tauto|].
    intuition (try discriminate; try lia).
Qed.

Lemma at_range i : (0 <= at_ bytes i < 256)%Z.
Proof.
  unfold at_. pose proof (Byte.to_N_bounded (nth i bytes "000"%byte)). lia.
Qed.

(** [be16] reads two bytes as one number, the first byte the high one. *)
Lemma be16_value i :
  be16 bytes i = (256 * at_ bytes i + at_ bytes (i + 1))%Z.
Proof.
  unfold be16. pose proof (at_range (i + 1)) as Hlo.
  rewrite Z.shiftl_mul_pow2 by lia.
  rewrite <- Z.add_nocarry_lor; [lia|].
  apply Z.bits_inj'. intros n Hn. rewrite Z.land_spec, Z.bits_0.
  destruct (Z.lt_ge_cases n 8) as [Hlt|Hge].
  - rewrite Z.mul_pow2_bits_low by lia. reflexivity.
  - destruct (Z.eq_dec (at_ bytes (i + 1)) 0%Z) as [->|Hnz].
    + rewrite Z.bits_0. apply andb_false_r.
    + rewrite (Z.bits_above_log2 (at_ bytes (i + 1)) n), andb_false_r;
        [reflexivity | lia |].
      assert (Z.log2 (at_ bytes (i + 1)) < 8)%Z; [|lia].
      apply Z.log2_lt_pow2; lia.
Qed.

Lemma body_Return i :
  frame_header_at bytes i -> nonzero_size_at bytes i ->
  body bytes i =
    Return {| jpeg_width := be16 bytes (i + 7);
              jpeg_height := be16 bytes (i + 5);
              jpeg_colorSpace := colorSpace_of (at_ bytes (i + 9)) |}.
Proof.
  intros [[E Hm] H9] [Hh Hw]. unfold body. rewrite E. simpl.
  assert (Hsof : (at_ bytes (i + 1) =? 192)%Z || (at_ bytes (i + 1) =? 194)%Z = true).
  { apply SOF_at_test; [assumption | split; assumption]. }
  destruct (Z.eqb_spec (at_ bytes (i + 1)) 218) as [E1|_]; [lia|].
  rewrite Hsof.
  destruct (Nat.leb_spec len (i + 9)); [lia|].
  destruct (Z.eqb_spec (be16 bytes (i + 7)) 0); [tauto|].
  destruct (Z.eqb_spec (be16 bytes (i + 5)) 0); [tauto|].
  reflexivity.
Qed.

(** Both exceptions of the parser are of the malformed-image kind. *)
Lemma parseJpeg_Throw_kind e :
  parseJpeg bytes = Throw e -> kind e = MalformedImage.
Proof.
  destruct e; try reflexivity; unfold parseJpeg;
    destruct (negb (has_SOI bytes)); try discriminate;
    destruct (scan bytes (length bytes) 2); discriminate.
Qed.

End JpegFacts.

(** C3, as stated, fails on a stream whose first frame header declares a
    height of zero.  The stream opens with the start-of-image marker and
    the scan finds a frame header, with its nine bytes, at index 2, before
    any start-of-scan marker and before the stream ends; the parser
    passes over it and fails all the same. *)
Lemma parseJpeg_fails_after_frame_header :
  let bytes := [xff; xd8; xff; xc0; x00; x0b; x08; x00; x00; x00; x10; x03;
                x01; x11; x00; xff; xd9] in
  has_SOI bytes = true
  /\ visits bytes 2
  /\ frame_header_at bytes 2
  /\ fails_with (parseJpeg bytes) MalformedImage.
Proof.
  repeat split; try reflexivity.
  - constructor.
  - left. reflexivity.
  - simpl. lia.
  - exists NoValidSOF. split; reflexivity.
Qed.

(** C3, amended.  [parseJpeg] throws exactly when the stream does not
    open with the start-of-image marker, or the scan reaches a
    start-of-scan marker, or the scan reaches the end of the stream (no
    room left for a marker code, for the nine bytes after a frame-header
    marker, or for the length field of a segment).  The scan passes over a
    frame header whose height or width is zero as over any other segment,
    so "before a frame header is found" reads "before a frame header with
    non-zero height and width is found".  Every failure is of the kind
    [MalformedImage]. *)
Theorem parseJpeg_fails_iff (bytes : list byte) :
  (fails_with (parseJpeg bytes) MalformedImage <->
     has_SOI bytes = false
     \/ (exists i, visits bytes i /\ i < length bytes - 1 /\ SOS_at bytes i)
     \/ (exists i, visits bytes i /\ cut_at bytes i))
  /\ (forall e, parseJpeg bytes = Throw e -> kind e = MalformedImage).
Proof.
  split; [|intros e; apply parseJpeg_Throw_kind].
  unfold parseJpeg, fails_with. split.
  - intros (e & E & _).
    destruct (has_SOI bytes); [|left; reflexivity]. right. simpl in E.
    pose proof (scan_stops bytes (length bytes) 2 (visits_start bytes)
                  ltac:(lia)) as Hstop.
    destruct (scan bytes (length bytes) 2); [discriminate| | |].
    + left. destruct Hstop as (j & Hv & Hj & Hb).
      exists j. rewrite <- body_BreakSOS. auto.
    + right. destruct Hstop as (j & Hv & Hj & Hb).
      exists j. split; [assumption|]. right. apply body_BreakShort. exact Hb.
    + right. destruct Hstop as (j & Hv & Hj).
      exists j. split; [assumption|]. left. exact Hj.
  - intros [E|Hscan].
    { rewrite E. exists MissingSOI. split; reflexivity. }
    destruct (has_SOI bytes); [|exists MissingSOI; split; reflexivity].
    simpl. exists NoValidSOF. split; [|reflexivity].
    destruct Hscan as [(i & Hv & Hi & Hsos)|(i & Hv & Hcut)];
      rewrite (visits_scan bytes i Hv).
    + apply body_BreakSOS in Hsos.
      rewrite (scan_unfold bytes i Hi), Hsos. reflexivity.
    + destruct (Nat.lt_ge_cases i (length bytes - 1)) as [Hi|Hi].
      * assert (Hb : body bytes i = BreakShort).
        { apply body_BreakShort. destruct Hcut as [?|Hcut]; [lia | exact Hcut]. }
        rewrite (scan_unfold bytes i Hi), Hb. reflexivity.
      * rewrite (scan_end bytes i Hi). reflexivity.
Qed.

(** C4, as stated, fails when the frame header declares a width of zero:
    the scan reaches a baseline frame-header marker followed by nine
    bytes, and parsing does not succeed. *)
Lemma parseJpeg_zero_width_not_returned :
  let bytes := [xff; xd8; xff; xc0; x00; x0b; x08; x00; x20; x00; x00; x03;
                x01; x11; x00; xff; xda; x00; x02] in
  has_SOI bytes = true
  /\ visits bytes 2
  /\ frame_header_at bytes 2
  /\ parseJpeg bytes = Throw NoValidSOF.
Proof.
  repeat split; try reflexivity.
  - constructor.
  - left. reflexivity.
  - simpl. lia.
Qed.

(** C4, amended.  When the scan reaches a baseline or progressive
    frame-header marker with its nine following bytes inside the stream
    and the height and width it declares are both non-zero, parsing
    succeeds with the big-endian height at bytes 5-6 and width at bytes
    7-8 after the marker prefix, and the colour space chosen by the byte
    at offset 9: 1 gives gray, 4 the four-channel space, anything else the
    three-channel space.  [image] then allocates one object, with the
    stream passed through, whose dictionary records these dimensions and
    this colour space. *)
Theorem parseJpeg_frame_header (bytes : list byte) (i : nat) :
  has_SOI bytes = true ->
  visits bytes i ->
  frame_header_at bytes i ->
  nonzero_size_at bytes i ->
  let height := (256 * at_ bytes (i + 5) + at_ bytes (i + 6))%Z in
  let width := (256 * at_ bytes (i + 7) + at_ bytes (i + 8))%Z in
  let c := at_ bytes (i + 9) in
  let cs := colorSpace_of c in
  parseJpeg bytes
    = Ok {| jpeg_width := width; jpeg_height := height; jpeg_colorSpace := cs |}
  /\ (c = 1%Z -> cs = "/DeviceGray")
  /\ (c = 4%Z -> cs = "/DeviceCMYK")
  /\ (c <> 1%Z -> c <> 4%Z -> cs = "/DeviceRGB")
  /\ forall x y w h b p,
       exists (b' : Builder) (p' : PageLocal) (o : PDFObject),
         ctx.image bytes x y w h b p = (b', Ok p')
         /\ objects b' = objects b ++ [o]
         /\ id o = nextId b
         /\ stream o = Some bytes
         /\ dict_get "Width" (dict o) = Some (VNum (Num.of_Z width))
         /\ dict_get "Height" (dict o) = Some (VNum (Num.of_Z height))
         /\ dict_get "ColorSpace" (dict o) = Some (VStr cs).
Proof.
  intros Hsoi Hv Hfh Hnz height width c cs.
  assert (Hparse : parseJpeg bytes
            = Ok {| jpeg_width := width; jpeg_height := height;
                    jpeg_colorSpace := cs |}).
  { unfold parseJpeg. rewrite Hsoi. simpl.
    rewrite (visits_scan bytes i Hv).
    assert (Hi : i < length bytes - 1) by (destruct Hfh; lia).
    rewrite (scan_unfold bytes i Hi), (body_Return bytes i Hfh Hnz).
    rewrite !be16_value. subst height width.
    replace (i + 5 + 1) with (i + 6) by lia.
    replace (i + 7 + 1) with (i + 8) by lia. reflexivity. }
  split; [exact Hparse|].
  split; [|split; [|split]].
  - intros E. subst cs. rewrite E. reflexivity.
  - intros E. subst cs. rewrite E. reflexivity.
  - intros H1 H4. subst cs. unfold colorSpace_of.
    destruct (Z.eqb_spec c 1); [contradiction|].
    destruct (Z.eqb_spec c 4); [contradiction|]. reflexivity.
  - intros x y w h b p. unfold ctx.image. rewrite Hparse. simpl.
    do 3 eexists. split; [reflexivity|]. simpl. repeat split.
Qed.

Lemma parseJpeg_frame_header_witness :
  let bytes := [xff; xd8; xff; xe0; x00; x04; x01; x02;
                xff; xc2; x00; x0b; x08; x01; x02; x03; x04; x04; x00] in
  parseJpeg bytes
  = Ok {| jpeg_width := 772; jpeg_height := 258;
          jpeg_colorSpace := "/DeviceCMYK" |}.
Proof.
  intros bytes.
  assert (Hv : visits bytes 8).
  { apply (visits_next bytes 2 8); [constructor | simpl; lia | reflexivity]. }
  assert (Hfh : frame_header_at bytes 8).
  { split; [split; [reflexivity | right; reflexivity] | simpl; lia]. }
  assert (Hnz : nonzero_size_at bytes 8) by (split; discriminate).
  exact (proj1 (parseJpeg_frame_header bytes 8 eq_refl Hv Hfh Hnz)).
Defined.

(** ** The builder: what [page] and [build] keep and change *)

Section BuilderFacts.

Context `{NumberToString}.

Lemma addObject_same_pages d st b : same_pages b (fst (addObject d st b)).
Proof. split; reflexivity. Qed.

Lemma call_same_pages c b p : same_pages b (fst (call c b p)).
Proof.
  destruct c; try (split; reflexivity).
  simpl. unfold ctx.image.
  destruct (parseJpeg jpegBytes); split; reflexivity.
Qed.

Lemma run_same_pages fn : forall b p, same_pages b (fst (run fn b p)).
Proof.
  induction fn as [|c fn IH]; intros b p; simpl; [split; reflexivity|].
  pose proof (call_same_pages c b p) as [Hp Hb].
  destruct (call c b p) as [b' [e|p']]; simpl in *; [split; assumption|].
  destruct (IH b' p') as [Hp' Hb']. split; congruence.
Qed.

Lemma add_annots_same_pages lnks : forall b,
  same_pages b (fst (add_annots lnks b)).
Proof.
  induction lnks as [|[url r] lnks IH]; intros b; simpl; [split; reflexivity|].
  match goal with
  | |- context [add_annots lnks ?b1] =>
      pose proof (IH b1) as [Hp Hb]; destruct (add_annots lnks b1) as [b2 rs]
  end.
  simpl in *. split; assumption.
Qed.

(** The only exceptions of a callback are those of [parseJpeg]. *)
Lemma call_Throw c b p b' e :
  call c b p = (b', Throw e) -> kind e = MalformedImage.
Proof.
  destruct c; simpl; try discriminate.
  unfold ctx.image.
  destruct (parseJpeg jpegBytes) as [e'|info] eqn:E; [|discriminate].
  intros [= _ <-]. eapply parseJpeg_Throw_kind. exact E.
Qed.

(** The shape of a [page] call: the callback runs on fresh local
    variables; when it throws, so does [page]; otherwise the content
    stream, the annotations and the page object are allocated, in this
    order, and the page reference is appended. *)
Lemma page_unfold args b :
  let '(width, height, fn) :=
    match args with
    | page_fn fn => (612%Q, 792%Q, fn)
    | page_sized w h fn => (w, h, fn)
    end in
  match run fn b {| ops := []; images := []; links := []; imageCount := 0 |} with
  | (b1, inl e) => page args b = (b1, Throw e)
  | (b1, inr p) =>
      exists (b2 : Builder) (o : PDFObject) (contentRef : Ref)
             (xobjects : Dict) (annots : list Ref),
        page args b =
          ({| objects := objects b2 ++ [o]; pages := pages b ++ [new_Ref (id o)];
              nextId := S (nextId b2); built := built b |}, Ok tt)
        /\ id o = nextId b2
        /\ dict o = page_dict width height contentRef xobjects annots
        /\ stream o = None
  end.
Proof.
  destruct args as [fn|w h fn]; unfold page;
    (match goal with
     | |- context [run fn b ?p0] =>
         pose proof (run_same_pages fn b p0) as [Hp Hb];
         destruct (run fn b p0) as [b1 [e|p]]
     end; [reflexivity|]; simpl in Hp, Hb; simpl;
     match goal with
     | |- context [add_annots ?l ?b2] =>
         pose proof (add_annots_same_pages l b2) as [Hp' Hb'];
         destruct (add_annots l b2) as [b3 annots]
     end; simpl in Hp', Hb'; simpl;
     eexists b3, {| id := nextId b3; dict := _; stream := None |}, _, _, _;
     (split; [rewrite Hp', Hb', Hp, Hb; reflexivity | repeat split])).
Qed.

Lemma build_Ok b b1 out :
  build b = (b1, Ok out) ->
  pages b <> [] /\ pages b1 = pages b /\ built b1 = true.
Proof.
  unfold build. destruct (pages b) as [|r rs] eqn:Hp; simpl; [discriminate|].
  destruct (built b); [discriminate|].
  intros [= <- _]. simpl. repeat split. discriminate.
Qed.


Lemma build_built b :
  pages b <> [] -> built b = true -> build b = (b, Throw BuildTwice).
Proof.
  intros Hne Hb. unfold build. destruct (pages b); [congruence|].
  simpl. rewrite Hb. reflexivity.
Qed.

End BuilderFacts.

(** C2.  [build] on a document without pages throws the no-pages error,
    returns no bytes, and leaves the object list, the page list, the id
    counter and the flag as they were. *)
Theorem build_without_pages (b : Builder) :
  pages b = [] ->
  build b = (b, Throw NoPagesError) /\ kind NoPagesError = NoPages.
Proof.
  intros Hp. unfold build. rewrite Hp. split; reflexivity.
Qed.

Lemma build_without_pages_witness :
  build pdf = (pdf, Throw NoPagesError) /\ kind NoPagesError = NoPages.
Proof. exact (build_without_pages pdf eq_refl). Defined.

(** ** Scripts *)

Section ScriptFacts.

Context `{NumberToString}.

Lemma finish_page_effect width height p b :
  exists (b2 : Builder) (o : PDFObject),
    finish_page width height p b
    = {| objects := objects b2 ++ [o]; pages := pages b ++ [new_Ref (id o)];
         nextId := S (nextId b2); built := built b |}.
Proof.
  unfold finish_page. simpl.
  match goal with
  | |- context [add_annots ?l ?b2] =>
      pose proof (add_annots_same_pages l b2) as [Hp Hb];
      destruct (add_annots l b2) as [b3 annots]
  end.
  simpl in Hp, Hb. simpl.
  eexists b3, {| id := nextId b3; dict := _; stream := None |}.
  rewrite Hp, Hb. reflexivity.
Qed.

(** [page] is the callback followed by the rest of [page]. *)
Lemma page_run args b :
  page args b
  = match run (callback args) b no_locals with
    | (b1, inl e) => (b1, Throw e)
    | (b1, inr p) =>
        (let '(width, height) := default (612%Q, 792%Q) (size_of args) in
         finish_page width height p b1, Ok tt)
    end.
Proof.
  destruct args as [fn|wd ht fn]; unfold page, no_locals; simpl;
    destruct (run fn b _) as [b1 [e|p]]; try reflexivity;
    unfold finish_page; simpl;
    destruct (add_annots _ _); reflexivity.
Qed.

(** A callback of [Callback] as a script, on the context [i] with the
    local variables [p]. *)
Lemma exec_straight fn : forall i w p,
  frames w !! i = Some p ->
  doc (fst (exec (straight fn i) w)) = fst (run fn (doc w) p)
  /\ snd (exec (straight fn i) w) = outcome_of (snd (run fn (doc w) p))
  /\ forall p', snd (run fn (doc w) p) = Ok p' ->
                frames (fst (exec (straight fn i) w)) = <[i := p']> (frames w).
Proof.
  induction fn as [|c fn IH]; intros i w p Hp; simpl.
  - repeat split. intros p' [= <-]. symmetry. apply list_insert_id, Hp.
  - rewrite Hp. destruct (call c (doc w) p) as [b [e|p1]] eqn:E; simpl.
    + repeat split. discriminate.
    + assert (Hp1 : frames {| doc := b; frames := <[i := p1]> (frames w) |} !! i
                    = Some p1).
      { simpl. apply list_lookup_insert_eq. eapply lookup_lt_Some, Hp. }
      destruct (IH i _ p1 Hp1) as (E1 & E2 & E3). simpl in E1, E2, E3.
      split; [exact E1|]. split; [exact E2|].
      intros p' Hret. rewrite (E3 p' Hret). apply list_insert_insert_eq.
Qed.

(** [page] with a callback of [Callback] is the [page] call of the
    script: the same builder, and the same outcome. *)
Lemma exec_page args w :
  doc (fst (exec (PageCall (size_of args) (straight (callback args)) Done) w))
  = fst (page args (doc w))
  /\ snd (exec (PageCall (size_of args) (straight (callback args)) Done) w)
     = outcome_of (snd (page args (doc w))).
Proof.
  rewrite page_run. simpl.
  assert (Hp : frames (enter w) !! length (frames w) = Some no_locals).
  { simpl. rewrite lookup_app_r by lia. rewrite Nat.sub_diag. reflexivity. }
  destruct (exec_straight (callback args) _ _ _ Hp) as (E1 & E2 & E3).
  simpl in E1, E2, E3.
  destruct (exec (straight (callback args) (length (frames w))) (enter w))
    as [w1 o] eqn:Eexec.
  simpl in E1, E2, E3. subst o.
  destruct (run (callback args) (doc w) no_locals) as [b [e|p']] eqn:Erun;
    simpl in *.
  - split; [exact E1 | reflexivity].
  - split; [|reflexivity].
    unfold leave. rewrite (E3 p' eq_refl), E1.
    rewrite list_lookup_insert_eq by (rewrite length_app; simpl; lia).
    simpl. destruct (default (612%Q, 792%Q) (size_of args)). reflexivity.
Qed.

Lemma grown_refl b : grown b b.
Proof. split; [tauto|]. exists []. rewrite app_nil_r. reflexivity. Qed.

Lemma grown_trans b1 b2 b3 : grown b1 b2 -> grown b2 b3 -> grown b1 b3.
Proof.
  intros [Hb (m & Hm)] [Hb' (m' & Hm')]. split; [tauto|].
  exists (m ++ m'). rewrite Hm', Hm, app_assoc. reflexivity.
Qed.

Lemma same_pages_grown b b' : same_pages b b' -> grown b b'.
Proof.
  intros [Hp Hb]. split; [congruence|]. exists []. rewrite app_nil_r.
  exact Hp.
Qed.

Lemma finish_page_grown width height p b :
  grown b (finish_page width height p b).
Proof.
  destruct (finish_page_effect width height p b) as (b2 & o & ->).
  split; [tauto|]. eexists. reflexivity.
Qed.

Lemma build_grown b : grown b (fst (build b)).
Proof.
  unfold build. destruct (length (pages b) =? 0); [apply grown_refl|].
  destruct (built b) eqn:Hb; [apply grown_refl|].
  simpl. split; [reflexivity|]. exists []. rewrite app_nil_r. reflexivity.
Qed.

Lemma exec_grown s : forall w, grown (doc w) (doc (fst (exec s w))).
Proof.
  induction s as [|t|i c k IH|size fn IHfn k IH|k IH|body IHb handler IHh k IH];
    intros w; simpl.
  - apply grown_refl.
  - apply grown_refl.
  - destruct (frames w !! i) as [p|]; [|apply IH].
    pose proof (call_same_pages c (doc w) p) as Hc.
    destruct (call c (doc w) p) as [b [e|p']]; simpl in Hc.
    + apply same_pages_grown, Hc.
    + eapply grown_trans; [apply same_pages_grown, Hc|]. apply (IH (Build_World _ _)).
  - pose proof (IHfn (length (frames w)) (enter w)) as Hfn.
    destruct (exec (fn _) (enter w)) as [w1 [|t]]; simpl in Hfn; [|exact Hfn].
    eapply grown_trans; [exact Hfn|].
    eapply grown_trans; [|apply IH].
    unfold leave. destruct (default _ size). apply finish_page_grown.
  - pose proof (build_grown (doc w)) as Hb.
    destruct (build (doc w)) as [b [e|bytes]]; simpl in Hb; [exact Hb|].
    eapply grown_trans; [exact Hb|]. apply (IH bytes (Build_World _ _)).
  - pose proof (IHb w) as Hbody.
    destruct (exec body w) as [w1 [|t]]; simpl in Hbody.
    + eapply grown_trans; [exact Hbody | apply IH].
    + pose proof (IHh t w1) as Hh.
      destruct (exec (handler t) w1) as [w2 [|t']]; simpl in Hh.
      * eapply grown_trans; [exact Hbody|].
        eapply grown_trans; [exact Hh | apply IH].
      * eapply grown_trans; eassumption.
Qed.

(** A script that never calls [build] runs the same whatever the
    flag. *)
Lemma call_set_built flag c b p :
  call c {| objects := objects b; pages := pages b; nextId := nextId b;
            built := flag |} p
  = ({| objects := objects (fst (call c b p));
        pages := pages (fst (call c b p));
        nextId := nextId (fst (call c b p)); built := flag |},
     snd (call c b p)).
Proof.
  destruct c; try reflexivity.
  simpl. unfold ctx.image. destruct (parseJpeg jpegBytes); reflexivity.
Qed.

Lemma add_annots_set_built lnks : forall o pg n flag flag',
  add_annots lnks {| objects := o; pages := pg; nextId := n; built := flag |}
  = (let r := add_annots lnks {| objects := o; pages := pg; nextId := n;
                                 built := flag' |} in
     ({| objects := objects (fst r); pages := pages (fst r);
         nextId := nextId (fst r); built := flag |}, snd r)).
Proof.
  induction lnks as [|[url r] lnks IH]; intros o pg n flag flag'; simpl;
    [reflexivity|].
  rewrite (IH _ _ _ flag flag'). simpl.
  destruct (add_annots lnks _) as [b2 rs]. reflexivity.
Qed.

Lemma finish_page_set_built flag width height p b :
  finish_page width height p
    {| objects := objects b; pages := pages b; nextId := nextId b;
       built := flag |}
  = {| objects := objects (finish_page width height p b);
       pages := pages (finish_page width height p b);
       nextId := nextId (finish_page width height p b); built := flag |}.
Proof.
  destruct b as [o pg n f]. unfold finish_page. simpl.
  rewrite (add_annots_set_built (links p) _ _ _ flag f). simpl.
  destruct (add_annots _ _) as [b2 rs]. reflexivity.
Qed.

Lemma exec_set_built flag s : forall w,
  no_build s ->
  exec s (set_built flag w)
  = (set_built flag (fst (exec s w)), snd (exec s w)).
Proof.
  induction s as [|t|i c k IH|size fn IHfn k IH|k IH|body IHb handler IHh k IH];
    intros w Hs; simpl in Hs |- *.
  - reflexivity.
  - reflexivity.
  - destruct (frames w !! i) as [p|]; [|apply IH, Hs].
    rewrite call_set_built.
    destruct (call c (doc w) p) as [b [e|p']]; simpl; [reflexivity|].
    apply (IH (Build_World _ _) Hs).
  - destruct Hs as [Hfn Hk].
    pose proof (IHfn (length (frames w)) (enter w) (Hfn _)) as E.
    change (enter (set_built flag w)) with (set_built flag (enter w)).
    rewrite E.
    destruct (exec (fn _) (enter w)) as [w1 [|t]]; simpl; [|reflexivity].
    rewrite <- (IH (leave size (length (frames w)) w1) Hk). f_equal.
    unfold leave, set_built. destruct (default _ size). simpl.
    rewrite finish_page_set_built. reflexivity.
  - destruct Hs.
  - destruct Hs as (Hb & Hh & Hk).
    rewrite (IHb w Hb).
    destruct (exec body w) as [w1 [|t]]; simpl; [apply IH, Hk|].
    rewrite (IHh t w1 (Hh t)).
    destruct (exec (handler t) w1) as [w2 [|t']]; simpl; [apply IH, Hk|].
    reflexivity.
Qed.

(** A script clear of [build] ends with nothing but an exception of the
    caller's own or that of a malformed image. *)
Lemma exec_clear_of_build s : forall w,
  clear_of_build s ->
  match snd (exec s w) with
  | Returned => True
  | Threw t => not_of_build t
  end.
Proof.
  induction s as [|t|i c k IH|size fn IHfn k IH|k IH|body IHb handler IHh k IH];
    intros w Hs; simpl in Hs |- *.
  - exact I.
  - exact Hs.
  - destruct (frames w !! i) as [p|]; [|apply IH, Hs].
    destruct (call c (doc w) p) as [b [e|p']] eqn:E; simpl.
    + eapply call_Throw. exact E.
    + apply IH, Hs.
  - destruct Hs as [Hfn Hk].
    pose proof (IHfn (length (frames w)) (enter w) (Hfn _)) as E.
    destruct (exec (fn _) (enter w)) as [w1 [|t]]; simpl in E |- *;
      [apply IH, Hk | exact E].
  - destruct Hs.
  - destruct Hs as (Hb & Hh & Hk).
    pose proof (IHb w Hb) as E.
    destruct (exec body w) as [w1 [|t]]; simpl in E |- *; [apply IH, Hk|].
    pose proof (IHh t w1 (Hh t E)) as E'.
    destruct (exec (handler t) w1) as [w2 [|t']]; simpl in E' |- *;
      [apply IH, Hk | exact E'].
Qed.

End ScriptFacts.

(** C1, as stated, fails for [page]: after a successful [build], a
    further [page] call is accepted and appends a page. *)
Lemma page_after_build_accepted :
  let P := sample_printer in
  let b0 := fst (page (page_fn []) pdf) in
  let b1 := fst (build b0) in
  (exists out, snd (build b0) = Ok out)
  /\ snd (page (page_fn []) b1) = Ok tt
  /\ length (pages (fst (page (page_fn []) b1))) = 2.
Proof.
  repeat split.
  eexists. vm_compute. reflexivity.
Qed.

(** C1, amended.  Once [build] has succeeded on a document, the flag
    stays set whatever is called afterwards ([page], the methods of any
    context, [build], inside callbacks or outside, exceptions caught or
    not), and every later [build] call throws the already-built error
    and changes nothing.  [page] does not look at the flag.  A later
    [page] call runs its callback; when the callback returns, so does
    [page], with one more page than the callback left; when the callback
    throws, [page] throws the same and adds no page.  Code that never
    calls [build] runs on the built document as on one whose flag is
    not set; and code that moreover throws no error of [build] of its
    own accord ends with nothing but an exception of its own making or
    that of a malformed image: the already-built error comes out of
    [page] only when the callback has called [build], or throws that
    error itself. *)
Theorem build_only_once `{NumberToString} (b b1 : Builder) (out : list byte)
    (fs : list PageLocal) (later : Script) :
  build b = (b1, Ok out) ->
  let w := fst (exec later {| doc := b1; frames := fs |}) in
  built (doc w) = true
  /\ build (doc w) = (doc w, Throw BuildTwice)
  /\ kind BuildTwice = AlreadyBuilt
  /\ (forall k, exec (BuildCall k) w = (w, Threw (Lib BuildTwice)))
  /\ (forall size fn,
        let w' := fst (exec (fn (length (frames w))) (enter w)) in
        match snd (exec (fn (length (frames w))) (enter w)) with
        | Returned =>
            exec (PageCall size fn Done) w
            = (leave size (length (frames w)) w', Returned)
            /\ built (doc (leave size (length (frames w)) w')) = true
            /\ exists r,
                 pages (doc (leave size (length (frames w)) w'))
                 = pages (doc w') ++ [r]
        | Threw t => exec (PageCall size fn Done) w = (w', Threw t)
        end)
  /\ (forall s,
        no_build s ->
        exec s w
        = (set_built true (fst (exec s (set_built false w))),
           snd (exec s (set_built false w))))
  /\ (forall s,
        clear_of_build s ->
        match snd (exec s w) with
        | Returned => True
        | Threw t => not_of_build t
        end).
Proof.
  intros Hbuild w.
  destruct (build_Ok b b1 out Hbuild) as (Hne & Hp & Hb).
  pose proof (exec_grown later {| doc := b1; frames := fs |}) as [Hflag Hmore].
  fold w in Hflag, Hmore. simpl in Hflag, Hmore.
  assert (Hbuilt : built (doc w) = true) by (apply Hflag, Hb).
  assert (Hpages : pages (doc w) <> []).
  { destruct Hmore as (more & ->). rewrite Hp.
    destruct (pages b); [congruence | discriminate]. }
  assert (Htwice : build (doc w) = (doc w, Throw BuildTwice))
    by (apply build_built; assumption).
  split; [exact Hbuilt|]. split; [exact Htwice|]. split; [reflexivity|].
  split; [|split; [|split]].
  - intros k. simpl. rewrite Htwice. destruct w. reflexivity.
  - intros size fn w'. subst w'. simpl.
    pose proof (exec_grown (fn (length (frames w))) (enter w)) as [Hflag' _].
    destruct (exec (fn (length (frames w))) (enter w)) as [w1 [|t]];
      [|reflexivity].
    simpl in Hflag' |- *. split; [reflexivity|].
    unfold leave. destruct (default (612%Q, 792%Q) size) as [wd ht]. simpl.
    destruct (finish_page_effect wd ht
                (default no_locals (frames w1 !! length (frames w))) (doc w1))
      as (b2 & o & ->).
    simpl. split; [apply Hflag', Hbuilt|]. eexists. reflexivity.
  - intros s Hs. rewrite <- (exec_set_built true s (set_built false w) Hs).
    f_equal. unfold set_built. simpl. destruct w as [[o p n f] fr].
    simpl in Hbuilt. subst f. reflexivity.
  - intros s Hs. apply exec_clear_of_build, Hs.
Qed.

Lemma build_only_once_witness :
  let P := sample_printer in
  let b0 := fst (page (page_fn []) pdf) in
  let later :=
    PageCall None
      (fun i => TryCatch (BuildCall (fun _ => Done))
                         (fun _ => CtxCall i (Rect 0%Q 0%Q 1%Q 1%Q "#fff") Done)
                         Done)
      Done in
  let w := fst (exec later {| doc := fst (build b0); frames := [] |}) in
  build (doc w) = (doc w, Throw BuildTwice)
  /\ length (pages (doc w)) = 2.
Proof.
  intros P b0 later w. split; [|vm_compute; reflexivity].
  subst w.
  destruct (build b0) as [b1 [e|out]] eqn:E; [vm_compute in E; discriminate|].
  exact (proj1 (proj2 (build_only_once b0 b1 out [] later E))).
Defined.

(** C10.  [page(fn)] is [page(612, 792, fn)]: the same result and the
    same builder state, whatever the callback draws; and when the call
    returns, the object allocated last is the page object, the one the
    new page reference names, with the media box [0 0 612 792]. *)
Theorem page_default_size `{NumberToString} (fn : Callback) (b : Builder) :
  page (page_fn fn) b = page (page_sized 612%Q 792%Q fn) b
  /\ forall b', page (page_fn fn) b = (b', Ok tt) ->
       exists o : PDFObject,
         last (objects b') = Some o
         /\ last (pages b') = Some (new_Ref (id o))
         /\ dict_get "Type" (dict o) = Some (VStr "/Page")
         /\ dict_get "MediaBox" (dict o)
            = Some (VArr [VNum 0%Q; VNum 0%Q; VNum 612%Q; VNum 792%Q]).
Proof.
  split; [reflexivity|].
  intros b' Hpage. pose proof (page_unfold (page_fn fn) b) as Hshape.
  simpl in Hshape.
  destruct (run fn b _) as [b1 [e|p]];
    [rewrite Hshape in Hpage; discriminate|].
  destruct Hshape as (b2 & o & cr & xo & an & E & _ & Hd & _).
  rewrite E in Hpage. injection Hpage as <-. exists o. simpl.
  rewrite !last_snoc, Hd. repeat split.
Qed.

Lemma page_default_size_witness :
  let P := sample_printer in
  let fn := [Text "Hello" 50%Q 700%Q 24%Q None] in
  exists o : PDFObject,
    last (objects (fst (page (page_fn fn) pdf))) = Some o
    /\ dict_get "MediaBox" (dict o)
       = Some (VArr [VNum 0%Q; VNum 0%Q; VNum 612%Q; VNum 792%Q]).
Proof.
  intros P fn.
  destruct (proj2 (page_default_size fn pdf) (fst (page (page_fn fn) pdf)))
    as (o & Hlast & _ & _ & Hbox).
  - reflexivity.
  - exists o. split; assumption.
Defined.

(** ** Object ids *)

Lemma ids_ok_pdf : ids_ok pdf.
Proof. split; reflexivity. Qed.

Lemma addObject_ids_ok d st b : ids_ok b -> ids_ok (fst (addObject d st b)).
Proof.
  intros [Hids Hnext]. split; simpl.
  - rewrite map_app, length_app, seq_app, Hids, Hnext. simpl.
    do 2 f_equal.
  - rewrite length_app, Hnext. simpl. lia.
Qed.

Section IdsFacts.

Context `{NumberToString}.

Lemma call_ids_ok c b p : ids_ok b -> ids_ok (fst (call c b p)).
Proof.
  intros Hb. destruct c; try exact Hb.
  simpl. unfold ctx.image. destruct (parseJpeg jpegBytes); [exact Hb|].
  apply (addObject_ids_ok _ _ b Hb).
Qed.

Lemma run_ids_ok fn : forall b p, ids_ok b -> ids_ok (fst (run fn b p)).
Proof.
  induction fn as [|c fn IH]; intros b p Hb; simpl; [exact Hb|].
  pose proof (call_ids_ok c b p Hb) as Hc.
  destruct (call c b p) as [b' [e|p']]; [exact Hc|].
  apply IH. exact Hc.
Qed.

Lemma add_annots_ids_ok lnks : forall b,
  ids_ok b -> ids_ok (fst (add_annots lnks b)).
Proof.
  induction lnks as [|[url r] lnks IH]; intros b Hb; simpl; [exact Hb|].
  match goal with
  | |- context [add_annots lnks ?b1] =>
      assert (H1 : ids_ok b1) by (apply (addObject_ids_ok _ _ b Hb));
      pose proof (IH b1 H1) as H2; destruct (add_annots lnks b1) as [b2 rs]
  end.
  exact H2.
Qed.

(** Every state reached from [pdf()] by [page] calls has its ids in
    order. *)
Lemma page_ids_ok args b : ids_ok b -> ids_ok (fst (page args b)).
Proof.
  intros Hb. destruct args as [fn|w h fn]; unfold page;
    (match goal with
     | |- context [run fn b ?p0] =>
         pose proof (run_ids_ok fn b p0 Hb) as H1;
         destruct (run fn b p0) as [b1 [e|p]]
     end; [exact H1|]; simpl in H1; simpl;
     match goal with
     | |- context [add_annots ?l ?b2] =>
         assert (H2 : ids_ok b2) by (apply (addObject_ids_ok _ _ b1 H1));
         pose proof (add_annots_ids_ok l b2 H2) as H3;
         destruct (add_annots l b2) as [b3 annots]
     end; simpl in H3; simpl;
     match goal with
     | |- context [page_dict ?w ?h ?c ?x ?a] =>
         exact (addObject_ids_ok (page_dict w h c x a) None b3 H3)
     end).
Qed.

End IdsFacts.

(** ** The writer *)

Section WriterFacts.

Lemma push_spec data w :
  concat (chunks (push data w)) = concat (chunks w) ++ data
  /\ byteOffset (push data w) = byteOffset w + length data
  /\ offsets (push data w) = offsets w.
Proof.
  unfold push; simpl. rewrite concat_app. simpl. rewrite app_nil_r.
  repeat split.
Qed.

Lemma write_object_spec w o :
  concat (chunks (write_object w o)) = concat (chunks w) ++ object_bytes o
  /\ byteOffset (write_object w o) = byteOffset w + length (object_bytes o)
  /\ offsets (write_object w o) = <[id o := byteOffset w]> (offsets w).
Proof.
  unfold write_object, object_bytes, push_string.
  destruct (stream o) as [bytes|].
  - repeat match goal with
           | |- context [push ?d ?w0] =>
               let Hc := fresh in let Hb := fresh in let Ho := fresh in
               destruct (push_spec d w0) as (Hc & Hb & Ho);
               rewrite ?Hc, ?Hb, ?Ho; clear Hc Hb Ho
           end.
    simpl. rewrite !length_app, <- !app_assoc. repeat split. simpl. lia.
  - match goal with
    | |- context [push ?d ?w0] =>
        destruct (push_spec d w0) as (Hc & Hb & Ho); rewrite Hc, Hb, Ho
    end.
    repeat split.
Qed.

(** The copy loop writes the chunks side by side over the part of the
    buffer it covers. *)
Lemma copy_chunks_spec cs : forall result offset,
  offset + length (concat cs) <= length result ->
  fst (fold_left copy_chunk cs (result, offset))
  = take offset result ++ concat cs
    ++ drop (offset + length (concat cs)) result.
Proof.
  induction cs as [|c cs IH]; intros result offset Hfit; simpl.
  - rewrite Nat.add_0_r, take_drop. reflexivity.
  - simpl in Hfit. rewrite length_app in Hfit.
    unfold copy_chunk at 2, set_at. simpl.
    assert (Htake : length (take offset result) = offset)
      by (rewrite length_take; lia).
    rewrite IH.
    + set (pre := take offset result ++ c).
      assert (Hpre : length pre = offset + length c)
        by (unfold pre; rewrite length_app; lia).
      replace (take offset result ++ c ++ drop (offset + length c) result)
        with (pre ++ drop (offset + length c) result)
        by (unfold pre; rewrite <- app_assoc; reflexivity).
      rewrite (take_app_length' pre) by lia.
      rewrite (drop_app_add' pre) by lia.
      rewrite drop_drop, length_app. unfold pre. rewrite <- !app_assoc.
      do 3 f_equal. f_equal. lia.
    + rewrite !length_app, length_drop. lia.
Qed.

Lemma push_in_step data w : in_step w -> in_step (push data w).
Proof.
  unfold in_step. intros Hw.
  destruct (push_spec data w) as (Hc & Hb & _).
  rewrite Hc, Hb, length_app, Hw. reflexivity.
Qed.

Lemma write_object_in_step w o : in_step w -> in_step (write_object w o).
Proof.
  unfold in_step. intros Hw.
  destruct (write_object_spec w o) as (Hc & Hb & _).
  rewrite Hc, Hb, length_app, Hw. reflexivity.
Qed.

Lemma write_objects_in_step objs : forall w,
  in_step w -> in_step (fold_left write_object objs w).
Proof.
  induction objs as [|o objs IH]; intros w Hw; simpl; [exact Hw|].
  apply IH, write_object_in_step, Hw.
Qed.

(** The buffer [build] returns is the chunks, one after the other. *)
Lemma write_concat objs catalogRef :
  write objs catalogRef = concat (chunks (written objs catalogRef)).
Proof.
  unfold write.
  assert (Hstep : in_step (written objs catalogRef)).
  { unfold written, push_string.
    do 3 apply push_in_step. apply write_objects_in_step, push_in_step.
    reflexivity. }
  rewrite copy_chunks_spec by (rewrite repeat_length, Hstep; simpl; lia).
  rewrite Hstep, drop_ge by (rewrite repeat_length; simpl; lia).
  simpl. apply app_nil_r.
Qed.

(** The loop over the objects, when their ids count up from [s]: the
    chunks grow by the bytes of each object in turn, and the offset
    recorded under the id of the object at position [k] is the number of
    bytes written before it. *)
Lemma write_objects_spec objs : forall w s,
  map id objs = seq s (length objs) ->
  let w' := fold_left write_object objs w in
  concat (chunks w') = concat (chunks w) ++ concat (map object_bytes objs)
  /\ byteOffset w' = byteOffset w + length (concat (map object_bytes objs))
  /\ (forall i, i < s -> offsets w' !! i = offsets w !! i)
  /\ (forall k, k < length objs ->
        offsets w' !! (s + k)
        = Some (byteOffset w
                + length (concat (map object_bytes (take k objs))))).
Proof.
  induction objs as [|o objs IH]; intros w s Hids; simpl.
  - rewrite app_nil_r. repeat split; [lia | intros k Hk; simpl in Hk; lia].
  - simpl in Hids. injection Hids as Hid Hrest.
    destruct (write_object_spec w o) as (Hc & Hb & Ho).
    destruct (IH (write_object w o) (S s) Hrest) as (Hc' & Hb' & Hlow & Hat).
    rewrite Hc', Hb', Hc, Hb, length_app, <- app_assoc.
    repeat split; [lia | |].
    + intros i Hi. rewrite Hlow by lia. rewrite Ho.
      apply lookup_insert_ne. lia.
    + intros [|k] Hk.
      * rewrite Nat.add_0_r, Hlow by lia. rewrite Ho, Hid. simpl.
        rewrite lookup_insert_eq. f_equal. lia.
      * replace (s + S k) with (S s + k) by lia.
        rewrite Hat by (simpl in Hk; lia). simpl.
        rewrite Hb, length_app. f_equal. lia.
Qed.

Lemma fold_append {A} (f : A -> string) (l : list A) : forall init,
  fold_left (fun acc i => acc +:+ f i) l init
  = init +:+ concat_strings (map f l).
Proof.
  induction l as [|a l IH]; intros init; simpl.
  - symmetry. apply append_empty_r.
  - rewrite IH. apply append_assoc.
Qed.

(** The table, when every id from 1 to [n] has its offset recorded. *)
Lemma xref_table_spec (offsets : gmap nat nat) (offs : list nat) :
  (forall k off, offs !! k = Some off -> offsets !! (S k) = Some off) ->
  xref_table offsets (length offs)
  = xref_head (length offs) +:+ concat_strings (map entry_of offs).
Proof.
  intros Hoffs. unfold xref_table. rewrite fold_append. f_equal. f_equal.
  apply list_eq. intros k. rewrite !list_lookup_fmap.
  destruct (offs !! k) as [off|] eqn:E.
  - rewrite (lookup_seq_lt 1 (length offs) k) by (eapply lookup_lt_Some; eauto).
    simpl. unfold xref_entry. rewrite (Hoffs k off E). reflexivity.
  - rewrite lookup_seq_ge by (apply lookup_ge_None; exact E). reflexivity.
Qed.

Lemma head_prefix o :
  head o = (Js.String_nat (id o) +:+ " 0 obj" +:+ Js.nl)
           +:+ (serialize (VDict (dict o)) +:+ Js.nl).
Proof. unfold head. rewrite !append_assoc. reflexivity. Qed.

(** Every object starts with its header line. *)
Lemma object_bytes_header o :
  exists rest,
    object_bytes o
    = Js.encode (Js.String_nat (id o) +:+ " 0 obj" +:+ Js.nl) ++ rest.
Proof.
  unfold object_bytes. destruct (stream o) as [bytes|];
    rewrite head_prefix, append_assoc, encode_app;
    rewrite <- ?app_assoc; eexists; reflexivity.
Qed.

End WriterFacts.

Section WriteSpec.

Variables (objs : list PDFObject) (catalogRef : Ref).
Hypothesis Hids : map id objs = seq 1 (length objs).

Lemma recorded_offsets_length : length (recorded_offsets objs) = length objs.
Proof. unfold recorded_offsets. rewrite length_map. apply length_seq. Qed.

(** The file as a whole: header and objects, then the table with one
    entry per object, the trailer, and the pointer to the table. *)
Lemma write_spec :
  write objs catalogRef
  = bytes_before objs (length objs)
    ++ Js.encode (xref_head (length objs)
                  +:+ concat_strings (map entry_of (recorded_offsets objs)))
    ++ Js.encode (trailer (length objs) catalogRef)
    ++ Js.encode (startxref (length (bytes_before objs (length objs)))).
Proof.
  rewrite write_concat. unfold written, push_string.
  set (w0 := push (Js.encode file_header) _).
  assert (Hw0 : concat (chunks w0) = Js.encode file_header
                /\ byteOffset w0 = length (Js.encode file_header)).
  { split; reflexivity. }
  destruct Hw0 as [Hc0 Hb0].
  destruct (write_objects_spec objs w0 1 Hids) as (Hc & Hb & _ & Hat).
  set (w1 := fold_left write_object objs w0) in *.
  assert (Hoff : byteOffset w1 = length (bytes_before objs (length objs))).
  { rewrite Hb, Hb0. unfold bytes_before. rewrite firstn_all, length_app.
    reflexivity. }
  assert (Htable : xref_table (offsets w1) (length objs)
                   = xref_head (length objs)
                     +:+ concat_strings (map entry_of (recorded_offsets objs))).
  { rewrite <- recorded_offsets_length at 1 2.
    apply xref_table_spec. intros k off Hk.
    unfold recorded_offsets in Hk.
    apply list_lookup_fmap_Some in Hk as (k' & -> & Hseq).
    apply lookup_seq in Hseq as [-> Hlt].
    change (S k) with (1 + k). rewrite (Hat k Hlt), Hb0.
    unfold bytes_before. rewrite length_app. reflexivity. }
  repeat match goal with
         | |- context [push ?d ?w] =>
             lazymatch w with
             | context [push] => fail
             | _ => idtac
             end;
             let Hc' := fresh in let Hb' := fresh in let Ho' := fresh in
             destruct (push_spec d w) as (Hc' & Hb' & Ho');
             generalize dependent (push d w); intros
         end.
  repeat match goal with
         | E : concat (chunks ?w) = _ |- context [concat (chunks ?w)] =>
             rewrite E
         end.
  rewrite Htable, Hoff.
  unfold bytes_before. rewrite !firstn_all, <- !app_assoc. reflexivity.
Qed.


End WriteSpec.

(** ** Decimal printing *)

Lemma digit_value d : (d < 10)%N -> (N_of_ascii (Js.digit d) - 48 = d)%N.
Proof.
  intros Hd. unfold Js.digit. rewrite N_ascii_embedding; lia.
Qed.

Lemma digits_value fuel : forall n acc,
  (n < 2 ^ N.of_nat fuel)%N ->
  decimal_value (Js.digits fuel n acc)
  = (n * 10 ^ N.of_nat (String.length acc) + decimal_value acc)%N.
Proof.
  induction fuel as [|fuel IH]; intros n acc Hn; simpl Js.digits.
  - simpl in Hn. assert (n = 0%N) by lia. subst. reflexivity.
  - pose proof (N.mod_lt n 10 ltac:(discriminate)) as Hmod.
    pose proof (N.div_mod n 10 ltac:(discriminate)) as Hdiv.
    destruct (N.eqb_spec (n / 10) 0) as [Hz|Hnz].
    + simpl. rewrite digit_value by exact Hmod.
      rewrite Hz in Hdiv. f_equal. f_equal. lia.
    + rewrite IH.
      * simpl. rewrite digit_value by exact Hmod.
        rewrite Nat2N.inj_succ, N.pow_succ_r'. lia.
      * rewrite Nat2N.inj_succ, N.pow_succ_r' in Hn.
        apply N.Div0.div_lt_upper_bound. lia.
Qed.

(** [String_N] prints the decimal digits of its argument. *)
Lemma String_N_value n : decimal_value (Js.String_N n) = n.
Proof.
  unfold Js.String_N. rewrite digits_value.
  - simpl. lia.
  - rewrite Nat2N.inj_succ, N2Nat.id.
    destruct n as [|p]; [reflexivity|].
    apply N.log2_spec. reflexivity.
Qed.






(** ** The file [build] returns *)

Lemma backfill_id pagesRef fontRef o : id (backfill pagesRef fontRef o) = id o.
Proof.
  unfold backfill. destruct (dict_get "Type" (dict o)) as [[]|]; try reflexivity.
  destruct (String.eqb s "/Page"); reflexivity.
Qed.

(** A successful [build] returns what the writer makes of the final
    object list, and the ids of that list are still in order. *)
Lemma build_Ok_write b b' out :
  ids_ok b -> build b = (b', Ok out) ->
  ids_ok b' /\ length (objects b') = length (objects b) + 3
  /\ exists catalogRef, out = write (objects b') catalogRef.
Proof.
  intros [Hids Hnext]. unfold build.
  destruct (length (pages b) =? 0); [discriminate|].
  destruct (built b); [discriminate|].
  simpl. intros [= <- <-]. simpl.
  assert (Hlen : forall (f : PDFObject -> PDFObject) l, length (map f l) = length l)
    by (intros; apply length_map).
  split; [split|split]; simpl.
  - rewrite map_app, map_map, (map_ext _ id (backfill_id _ _)), !map_app, Hids.
    rewrite !length_app, !Hlen. simpl.
    replace (length (objects b) + 1 + 1 + 1) with (length (objects b) + 3) by lia.
    rewrite Hnext, (seq_app (length (objects b)) 3 1), <- !app_assoc.
    reflexivity.
  - rewrite !length_app, Hlen, !length_app. simpl. lia.
  - rewrite !length_app, Hlen, !length_app. simpl. lia.
  - eexists. reflexivity.
Qed.



(** ** Comparisons of doubles *)

Lemma SFcompare_antisym (x y : spec_float) (c : comparison) :
  SFcompare x y = Some c -> SFcompare y x = Some (CompOpp c).
Proof.
  destruct x as [sx|sx| |sx mx ex], y as [sy|sy| |sy my ey]; simpl;
    try discriminate; try (intros [= <-]);
    try (destruct sx, sy; reflexivity); try (destruct sx; reflexivity);
    try (destruct sy; reflexivity); try reflexivity.
  f_equal. rewrite (Z.compare_antisym ex ey).
  rewrite !Pos.compare_cont_spec. simpl.
  rewrite (Pos.compare_antisym mx my).
  destruct sx, sy; try reflexivity;
    destruct (ex ?= ey)%Z; simpl; try reflexivity;
    destruct (mx ?= my)%positive; reflexivity.
Qed.

(** [a <= b] excludes [b < a]. *)
Lemma leb_not_gt (a b : float) :
  PrimFloat.leb a b = true -> PrimFloat.ltb b a = false.
Proof.
  rewrite FloatAxioms.leb_spec, FloatAxioms.ltb_spec. unfold SFleb, SFltb.
  destruct (SFcompare (Prim2SF a) (Prim2SF b)) as [c|] eqn:E; [|discriminate].
  rewrite (SFcompare_antisym _ _ _ E). destruct c; [reflexivity..|discriminate].
Qed.

Lemma SFcompare_refl (x : spec_float) :
  SFcompare x x = match x with S754_nan => None | _ => Some Eq end.
Proof.
  destruct x as [s|s| |s m e]; simpl; try (destruct s; reflexivity);
    try reflexivity.
  rewrite Z.compare_refl, Pos.compare_cont_spec, Pos.compare_refl.
  destruct s; reflexivity.
Qed.

Lemma is_nan_spec (a : float) :
  PrimFloat.is_nan a = false <-> Prim2SF a <> S754_nan.
Proof.
  unfold PrimFloat.is_nan. rewrite FloatAxioms.eqb_spec. unfold SFeqb.
  rewrite SFcompare_refl. destruct (Prim2SF a); simpl; split;
    congruence || discriminate.
Qed.

(** Among numbers, what is not greater is less or equal. *)
Lemma not_gt_leb (a b : float) :
  PrimFloat.is_nan a = false -> PrimFloat.is_nan b = false ->
  PrimFloat.ltb b a = false -> PrimFloat.leb a b = true.
Proof.
  rewrite !is_nan_spec, FloatAxioms.leb_spec, FloatAxioms.ltb_spec. unfold SFleb, SFltb.
  intros Ha Hb.
  destruct (SFcompare (Prim2SF a) (Prim2SF b)) as [c|] eqn:E.
  - rewrite (SFcompare_antisym _ _ _ E). destruct c; simpl; congruence.
  - destruct (Prim2SF a), (Prim2SF b); simpl in E; congruence.
Qed.

(** ** Word wrap, in binary64 *)

Lemma truthy_false s : Js.truthy s = false -> s = EmptyString.
Proof. destruct s; [reflexivity | discriminate]. Qed.

(** The letters of a text, and of the lines it is cut into. *)
Lemma list_ascii_app (s1 s2 : string) :
  list_ascii_of_string (s1 +:+ s2)
  = list_ascii_of_string s1 ++ list_ascii_of_string s2.
Proof.
  induction s1 as [|c s1 IH]; [reflexivity|].
  change (String c s1 +:+ s2) with (String c (s1 +:+ s2)).
  simpl. rewrite IH. reflexivity.
Qed.

Lemma letters_app (s1 s2 : string) :
  letters (s1 +:+ s2) = letters s1 ++ letters s2.
Proof. unfold letters. rewrite list_ascii_app. apply List.filter_app. Qed.

Lemma letters_split (text : string) :
  flat_map letters (Js.split " "%char text) = letters text.
Proof.
  induction text as [|a rest IH]; [reflexivity|].
  simpl. destruct (Ascii.eqb a " "%char) eqn:E.
  - simpl. rewrite IH. unfold letters. simpl. rewrite E. reflexivity.
  - destruct (Js.split " "%char rest) as [|w ws].
    + simpl in IH. unfold letters in *. simpl. rewrite E, <- IH. reflexivity.
    + simpl in *. unfold letters in *. simpl. rewrite E, <- IH. reflexivity.
Qed.

Lemma flat_map_snoc {A B} (f : A -> list B) (l : list A) (x : A) :
  flat_map f (l ++ [x]) = flat_map f l ++ f x.
Proof. rewrite flat_map_app. simpl. rewrite app_nil_r. reflexivity. Qed.

Lemma held_flush lines line :
  flat_map letters (if Js.truthy line then lines ++ [line] else lines)
  = held (lines, line).
Proof.
  unfold held. simpl. destruct line; simpl.
  - rewrite app_nil_r. reflexivity.
  - apply flat_map_snoc.
Qed.

Section Wrap64Facts.

Variables (size maxW : float).

Lemma kept_flush lines line :
  wrap64_inv size maxW (lines, line) ->
  Forall (kept size maxW) (if Js.truthy line then lines ++ [line] else lines).
Proof.
  intros [Hl Hc]. simpl in *. destruct (Js.truthy line) eqn:E; [|exact Hl].
  apply Forall_app. split; [exact Hl|]. apply Forall_singleton.
  destruct Hc as [->|Hc]; [discriminate | exact Hc].
Qed.

Lemma append_nonempty (s : string) (c : ascii) :
  s +:+ String c EmptyString <> EmptyString.
Proof. destruct s; discriminate. Qed.

Lemma wrap64_char_inv st ch :
  wrap64_inv size maxW st ->
  wrap64_inv size maxW (Markdown64.wrap_char size maxW st ch).
Proof.
  destruct st as [lines chunk]. intros Hinv. unfold Markdown64.wrap_char.
  destruct (PrimFloat.ltb maxW _) eqn:Hgt; simpl.
  - destruct (Js.truthy chunk) eqn:Ht; simpl.
    + split; simpl.
      * pose proof (kept_flush lines chunk Hinv) as Hf.
        rewrite Ht in Hf. exact Hf.
      * right. split; [discriminate | left; reflexivity].
    + apply truthy_false in Ht. subst chunk. destruct Hinv as [Hl _].
      split; simpl; [exact Hl|].
      right. split; [discriminate | left; reflexivity].
  - destruct Hinv as [Hl _]. split; simpl; [exact Hl|].
    right. split; [apply append_nonempty | right; exact Hgt].
Qed.

Lemma wrap64_chars_inv chars : forall st,
  wrap64_inv size maxW st ->
  wrap64_inv size maxW (fold_left (Markdown64.wrap_char size maxW) chars st).
Proof.
  induction chars as [|ch chars IH]; intros st Hinv; simpl; [exact Hinv|].
  apply IH, wrap64_char_inv, Hinv.
Qed.

Lemma wrap64_word_inv st word :
  wrap64_inv size maxW st ->
  wrap64_inv size maxW (Markdown64.wrap_word size maxW st word).
Proof.
  destruct st as [lines line]. intros Hinv. unfold Markdown64.wrap_word.
  pose proof (kept_flush lines line Hinv) as Hflush.
  destruct (PrimFloat.ltb maxW (F64.measureText word size)) eqn:Hgt.
  - apply wrap64_chars_inv. split; simpl; [exact Hflush | left; reflexivity].
  - destruct (PrimFloat.leb _ maxW) eqn:Hle.
    + split; simpl; [apply Hinv|].
      destruct (Js.truthy line) eqn:Ht.
      * right. split; [destruct line; discriminate|].
        right. apply leb_not_gt, Hle.
      * destruct word as [|c word]; [left; reflexivity|].
        right. split; [discriminate|]. right. exact Hgt.
    + split; simpl; [exact Hflush|].
      destruct word as [|c word]; [left; reflexivity|].
      right. split; [discriminate|]. right. exact Hgt.
Qed.

Lemma wrap64_words_inv words : forall st,
  wrap64_inv size maxW st ->
  wrap64_inv size maxW (fold_left (Markdown64.wrap_word size maxW) words st).
Proof.
  induction words as [|w words IH]; intros st Hinv; simpl; [exact Hinv|].
  apply IH, wrap64_word_inv, Hinv.
Qed.

Lemma wrap64_kept text :
  Markdown64.wrap size maxW text = [EmptyString]
  \/ Forall (kept size maxW) (Markdown64.wrap size maxW text).
Proof.
  unfold Markdown64.wrap.
  pose proof (wrap64_words_inv (Js.split " " text) ([], EmptyString)) as Hinv.
  destruct (fold_left _ _ _) as [lines line].
  specialize (Hinv ltac:(split; simpl; [constructor | left; reflexivity])).
  apply kept_flush in Hinv.
  destruct (0 <? length _); [right; exact Hinv | left; reflexivity].
Qed.

Lemma wrap64_nonempty text : 1 <= length (Markdown64.wrap size maxW text).
Proof.
  unfold Markdown64.wrap. destruct (fold_left _ _ _) as [lines line].
  destruct (Nat.ltb_spec 0 (length (if Js.truthy line then lines ++ [line] else lines)));
    [assumption | simpl; lia].
Qed.

(** The letters the loops hold, whatever the tests answer. *)
Lemma wrap64_char_held st ch :
  held (Markdown64.wrap_char size maxW st ch)
  = held st ++ letters (String ch EmptyString).
Proof.
  destruct st as [lines chunk]. unfold Markdown64.wrap_char.
  destruct (PrimFloat.ltb maxW _ && Js.truthy chunk); unfold held; simpl.
  - rewrite flat_map_snoc. reflexivity.
  - rewrite letters_app, app_assoc. reflexivity.
Qed.

Lemma wrap64_chars_held chars : forall st,
  held (fold_left (Markdown64.wrap_char size maxW) chars st)
  = held st ++ letters (string_of_list_ascii chars).
Proof.
  induction chars as [|ch chars IH]; intros st; simpl.
  - unfold letters. simpl. rewrite app_nil_r. reflexivity.
  - rewrite IH, wrap64_char_held, <- app_assoc. f_equal.
    unfold letters. simpl. destruct (negb _); reflexivity.
Qed.

Lemma wrap64_word_held st word :
  held (Markdown64.wrap_word size maxW st word) = held st ++ letters word.
Proof.
  destruct st as [lines line]. unfold Markdown64.wrap_word.
  destruct (PrimFloat.ltb maxW (F64.measureText word size)).
  - rewrite wrap64_chars_held, string_of_list_ascii_of_string.
    unfold held at 1. simpl. rewrite app_nil_r, held_flush. reflexivity.
  - destruct (PrimFloat.leb _ maxW).
    + unfold held. simpl. destruct line; simpl.
      * change (letters EmptyString) with (@nil ascii).
        rewrite app_nil_r. reflexivity.
      * change (String a line +:+ " " +:+ word)
          with (String a line +:+ (" " +:+ word)).
        rewrite letters_app, letters_app, <- app_assoc. reflexivity.
    + unfold held at 1. simpl. rewrite held_flush. reflexivity.
Qed.

Lemma wrap64_words_held words : forall st,
  held (fold_left (Markdown64.wrap_word size maxW) words st)
  = held st ++ flat_map letters words.
Proof.
  induction words as [|w words IH]; intros st; simpl.
  - rewrite app_nil_r. reflexivity.
  - rewrite IH, wrap64_word_held, <- app_assoc. reflexivity.
Qed.

Lemma wrap64_letters text :
  flat_map letters (Markdown64.wrap size maxW text) = letters text.
Proof.
  unfold Markdown64.wrap.
  pose proof (wrap64_words_held (Js.split " "%char text) ([], EmptyString)) as Hh.
  destruct (fold_left _ _ _) as [lines line].
  rewrite <- held_flush, letters_split in Hh. simpl in Hh.
  destruct (Nat.ltb_spec 0 (length (if Js.truthy line then lines ++ [line] else lines)))
    as [Hlt|Hge]; [exact Hh|].
  destruct (if Js.truthy line then lines ++ [line] else lines);
    [exact Hh | simpl in Hge; lia].
Qed.

End Wrap64Facts.

(** C7, as stated, fails when the budget is not a number, as it is for
    [markdown("ab cd", {width: NaN})]: both lines have two characters,
    and neither measures at most the budget, no comparison with NaN
    being true. *)
Lemma wrap_budget_not_a_number :
  map (fun p => map Markdown64.text (Markdown64.items p))
      (Markdown64.layout "ab cd"
         {| Markdown64.opt_width := Some PrimFloat.nan;
            Markdown64.opt_height := None;
            Markdown64.opt_margin := None |})
  = [["ab"; "cd"]]
  /\ Markdown64.wrap 11%float (PrimFloat.nan - 72 * 2)%float "ab cd"
     = ["ab"; "cd"]
  /\ PrimFloat.leb (F64.measureText "ab" 11) (PrimFloat.nan - 72 * 2)%float
     = false
  /\ PrimFloat.leb (F64.measureText "cd" 11) (PrimFloat.nan - 72 * 2)%float
     = false.
Proof. repeat split; vm_compute; reflexivity. Qed.

(** C7, amended.  For every text, size and budget, any doubles, [wrap]
    returns at least one line.  It returns the one empty line only for a
    text that holds nothing but spaces; otherwise no line it returns is
    empty, and each is a single character or is not measured wider than
    the budget (the test [measureText(line, size) > maxW] is false), so
    that it measures at most the budget unless the measure or the budget
    is NaN. *)
Theorem wrap_lines_fit (text : string) (size maxW : float) :
  1 <= length (Markdown64.wrap size maxW text)
  /\ (Markdown64.wrap size maxW text = [""] -> letters text = [])
  /\ (Markdown64.wrap size maxW text = [""]
      \/ forall l, In l (Markdown64.wrap size maxW text) ->
           l <> ""
           /\ (String.length l = 1
               \/ (PrimFloat.ltb maxW (F64.measureText l size) = false
                   /\ (PrimFloat.is_nan maxW = false ->
                       PrimFloat.is_nan (F64.measureText l size) = false ->
                       PrimFloat.leb (F64.measureText l size) maxW = true)))).
Proof.
  split; [apply wrap64_nonempty|]. split.
  - intros E. rewrite <- (wrap64_letters size maxW text), E. reflexivity.
  - destruct (wrap64_kept size maxW text) as [E|Hall]; [left; exact E|].
    right. intros l Hl. rewrite Forall_forall in Hall.
    destruct (Hall l (proj2 (list_elem_of_In _ _) Hl)) as [Hne [Hone|Hfit]].
    + split; [exact Hne | left; exact Hone].
    + split; [exact Hne|]. right. split; [exact Hfit|].
      intros Hm Hl'. apply not_gt_leb; assumption.
Qed.

(** ** Pagination, in binary64 *)

Section Paginate64Facts.

Import Markdown64.

Variables (H M : float).

Lemma descend_snoc its : forall y0 it,
  descend y0 (its ++ [it])
  = (descend y0 its - spaceBefore it - (size it + spaceAfter it))%float.
Proof.
  induction its as [|i its IH]; intros y0 it; simpl; [reflexivity|].
  apply IH.
Qed.

Lemma coords_snoc its : forall y0 it,
  coords y0 (its ++ [it])
  = coords y0 its ++ [(descend y0 its - spaceBefore it)%float].
Proof.
  induction its as [|i its IH]; intros y0 it; simpl; [reflexivity|].
  rewrite IH. reflexivity.
Qed.

Lemma page_ok64_empty : page_ok64 H M {| items := []; ys := [] |}.
Proof. split; [reflexivity|]. intros k item Hk. discriminate. Qed.

Lemma page_ok64_first item :
  page_ok64 H M {| items := [item];
                   ys := [(H - M - spaceBefore item)%float] |}.
Proof.
  split; [reflexivity|]. intros [|k] it; simpl; [lia | discriminate].
Qed.

Lemma flush64_ok c : cursor_ok64 H M c -> Forall (page_ok64 H M) (flush c).
Proof.
  intros (Hpages & Hcur & _). unfold flush.
  destruct (0 <? length (pg c)); [|exact Hpages].
  apply Forall_app. split; [exact Hpages|]. apply Forall_singleton, Hcur.
Qed.

Lemma flush64_nonempty c :
  Forall (fun p => items p <> []) (pages c) ->
  Forall (fun p => items p <> []) (flush c).
Proof.
  intros Hp. unfold flush. destruct (pg c) as [|i rest] eqn:E; simpl;
    [exact Hp|].
  apply Forall_app. split; [exact Hp|]. apply Forall_singleton. simpl.
  discriminate.
Qed.

(** One turn of the loop when the test finds an overflow: the page in
    progress is closed if it holds an item, and the item opens the next
    one. *)
Lemma place64_overflow c item :
  PrimFloat.ltb (y c - needed item)%float M = true ->
  place H M c item
  = {| pages := flush c;
       y := (H - M - spaceBefore item - (size item + spaceAfter item))%float;
       pg := [item];
       cur_ys := [(H - M - spaceBefore item)%float] |}.
Proof. intros Hlt. unfold place. rewrite Hlt. reflexivity. Qed.

(** One turn of the loop when it does not: the item joins the page in
    progress. *)
Lemma place64_fit c item :
  PrimFloat.ltb (y c - needed item)%float M = false ->
  place H M c item
  = {| pages := pages c;
       y := (y c - spaceBefore item - (size item + spaceAfter item))%float;
       pg := pg c ++ [item];
       cur_ys := cur_ys c ++ [(y c - spaceBefore item)%float] |}.
Proof. intros Hlt. unfold place. rewrite Hlt. reflexivity. Qed.

Lemma place64_ok c item :
  cursor_ok64 H M c -> cursor_ok64 H M (place H M c item).
Proof.
  intros Hc.
  destruct (PrimFloat.ltb (y c - needed item)%float M) eqn:Hlt.
  - rewrite (place64_overflow c item Hlt). split; [|split; [|split]]; simpl.
    + apply flush64_ok, Hc.
    + apply page_ok64_first.
    + reflexivity.
    + apply flush64_nonempty, Hc.
  - rewrite (place64_fit c item Hlt).
    destruct Hc as (Hpages & [Hys Htest] & Hy & Hne).
    simpl in Hys, Htest. split; [|split; [|split]]; simpl.
    + exact Hpages.
    + split; simpl.
      * rewrite Hys, Hy. symmetry. apply coords_snoc.
      * intros k it Hk Hk1.
        destruct (Nat.lt_ge_cases k (length (pg c))) as [Hin|Hout].
        -- rewrite lookup_app_l in Hk by exact Hin.
           rewrite take_app_le by lia. apply Htest; assumption.
        -- rewrite lookup_app_r in Hk by exact Hout.
           destruct (k - length (pg c)) as [|d] eqn:Hd; [|discriminate].
           injection Hk as <-.
           assert (k = length (pg c)) as -> by lia.
           rewrite take_app_length, <- Hy. exact Hlt.
    + rewrite Hy. symmetry. apply descend_snoc.
    + exact Hne.
Qed.

Lemma place64_all_ok all : forall c,
  cursor_ok64 H M c -> cursor_ok64 H M (fold_left (place H M) all c).
Proof.
  induction all as [|item all IH]; intros c Hc; simpl; [exact Hc|].
  apply IH, place64_ok, Hc.
Qed.

Lemma start64_ok : cursor_ok64 H M (start H M).
Proof.
  split; [constructor|]. split; [apply page_ok64_empty|].
  split; [reflexivity | constructor].
Qed.

Lemma paginate64_ok all : Forall (page_ok64 H M) (paginate H M all).
Proof.
  unfold paginate.
  pose proof (flush64_ok _ (place64_all_ok all _ start64_ok)) as Hf.
  destruct (0 <? length _); [exact Hf|].
  apply Forall_singleton, page_ok64_empty.
Qed.

Lemma flush64_items c : concat (map items (flush c)) = placed64 c.
Proof.
  unfold flush, placed64. destruct (pg c) as [|i rest]; simpl.
  - rewrite app_nil_r. reflexivity.
  - rewrite map_app, concat_app. simpl. rewrite app_nil_r. reflexivity.
Qed.

Lemma place64_placed c item :
  placed64 (place H M c item) = placed64 c ++ [item].
Proof.
  destruct (PrimFloat.ltb (y c - needed item)%float M) eqn:Hlt.
  - rewrite (place64_overflow c item Hlt). unfold placed64 at 1. simpl.
    rewrite flush64_items. reflexivity.
  - rewrite (place64_fit c item Hlt). unfold placed64. simpl.
    apply app_assoc.
Qed.

Lemma place64_all_placed all : forall c,
  placed64 (fold_left (place H M) all c) = placed64 c ++ all.
Proof.
  induction all as [|item all IH]; intros c; simpl.
  - rewrite app_nil_r. reflexivity.
  - rewrite IH, place64_placed, <- app_assoc. reflexivity.
Qed.

Lemma paginate64_items all : concat (map items (paginate H M all)) = all.
Proof.
  unfold paginate.
  pose proof (flush64_items (fold_left (place H M) all (start H M))) as Hf.
  rewrite place64_all_placed in Hf. simpl in Hf.
  destruct (Nat.ltb_spec 0 (length (flush (fold_left (place H M) all (start H M)))))
    as [Hlt|Hge]; [exact Hf|].
  destruct (flush _); [simpl in Hf; subst; reflexivity | simpl in Hge; lia].
Qed.

Lemma paginate64_nonempty all :
  all <> [] -> Forall (fun p => items p <> []) (paginate H M all).
Proof.
  intros Hne. pose proof (paginate64_items all) as Hitems.
  unfold paginate in *.
  destruct (place64_all_ok all _ start64_ok) as (_ & _ & _ & Hp).
  apply flush64_nonempty in Hp.
  destruct (0 <? length _); [exact Hp|].
  simpl in Hitems. congruence.
Qed.

End Paginate64Facts.

(** C8, as stated, fails when the page in progress is empty, as it is
    for the first item of [markdown("a", {height: 30, margin: 10})]: the
    paragraph needs 15 where 10 are left between the margins, the test
    finds an overflow, no page is closed for it, and the item is placed
    on the page it overflowed, where it leaves the cursor below the
    bottom margin.  Three such items make three pages, with no empty
    page before or between them. *)
Lemma first_item_closes_no_page :
  let opts := {| Markdown64.opt_width := None;
                 Markdown64.opt_height := Some 30%float;
                 Markdown64.opt_margin := Some 10%float |} in
  let it := {| Markdown64.text := "a"; Markdown64.size := 11%float;
               Markdown64.indent := 0%float;
               Markdown64.spaceBefore := 0%float;
               Markdown64.spaceAfter := 4%float; Markdown64.rule := None;
               Markdown64.color := Some "#111111" |} in
  let c := Markdown64.start 30%float 10%float in
  Markdown64.blocks (612 - 10 * 2)%float "a" = [it]
  /\ PrimFloat.ltb (Markdown64.y c - Markdown64.needed it)%float 10%float = true
  /\ Markdown64.pages (Markdown64.place 30%float 10%float c it) = []
  /\ Markdown64.layout "a" opts
     = [{| Markdown64.items := [it]; Markdown64.ys := [20%float] |}]
  /\ PrimFloat.ltb (descend 20%float [it]) 10%float = true
  /\ map (fun p => length (Markdown64.items p))
         (Markdown64.layout ("a" +:+ Js.nl +:+ Js.nl +:+ "b") opts)
     = [1; 1; 1].
Proof. repeat split; vm_compute; reflexivity. Qed.

(** C8, amended.  For every item sequence, heights and margins being
    any doubles: whenever the test the loop makes, cursor - (spaceBefore
    + size + spaceAfter) < margin on the rounded values, finds an
    overflow, the page in progress is closed if it holds at least one
    item (an empty one is not emitted) and the item becomes the first
    item of the next page; otherwise the item joins the page in
    progress.  So on every page the coordinates are those of its items
    placed from the top margin down, and every item but the first passed
    the test on the cursor the items before it left; the pages hold the
    items in order, each once; no page of a sequence that is not empty is
    empty; and without items, as for the empty text, there is exactly one
    empty page.  Where the test has failed and neither side of it is NaN,
    the margin is at most the cursor less what the item needs. *)
Theorem paginate_pages (H M : float) (all : list Markdown64.Item) :
  (forall c item,
     PrimFloat.ltb (Markdown64.y c - Markdown64.needed item)%float M = true ->
     Markdown64.pages (Markdown64.place H M c item)
     = (if 0 <? length (Markdown64.pg c)
        then Markdown64.pages c ++ [current64 c]
        else Markdown64.pages c)
     /\ Markdown64.pg (Markdown64.place H M c item) = [item]
     /\ Markdown64.cur_ys (Markdown64.place H M c item)
        = [(H - M - Markdown64.spaceBefore item)%float])
  /\ (forall c item,
        PrimFloat.ltb (Markdown64.y c - Markdown64.needed item)%float M
        = false ->
        Markdown64.pages (Markdown64.place H M c item) = Markdown64.pages c
        /\ Markdown64.pg (Markdown64.place H M c item)
           = Markdown64.pg c ++ [item]
        /\ Markdown64.cur_ys (Markdown64.place H M c item)
           = Markdown64.cur_ys c
             ++ [(Markdown64.y c - Markdown64.spaceBefore item)%float])
  /\ (forall p,
        In p (Markdown64.paginate H M all) ->
        Markdown64.ys p = coords (H - M)%float (Markdown64.items p)
        /\ forall k item,
             Markdown64.items p !! k = Some item -> 1 <= k ->
             let left :=
               reach (descend (H - M)%float (take k (Markdown64.items p)))
                     item in
             PrimFloat.ltb left M = false
             /\ (PrimFloat.is_nan left = false ->
                 PrimFloat.is_nan M = false ->
                 PrimFloat.leb M left = true))
  /\ concat (map Markdown64.items (Markdown64.paginate H M all)) = all
  /\ (all <> [] ->
      forall p, In p (Markdown64.paginate H M all) ->
                Markdown64.items p <> [])
  /\ Markdown64.paginate H M []
     = [{| Markdown64.items := []; Markdown64.ys := [] |}]
  /\ (forall opts,
        Markdown64.layout "" opts
        = [{| Markdown64.items := []; Markdown64.ys := [] |}]).
Proof.
  split; [|split; [|split; [|split; [|split; [|split]]]]].
  - intros c item Hlt. rewrite (place64_overflow H M c item Hlt). repeat split.
  - intros c item Hlt. rewrite (place64_fit H M c item Hlt). repeat split.
  - intros p Hp.
    pose proof (paginate64_ok H M all) as Hall. rewrite Forall_forall in Hall.
    destruct (Hall p (proj2 (list_elem_of_In _ _) Hp)) as [Hys Htest].
    split; [exact Hys|]. intros k item Hk Hk1 left.
    pose proof (Htest k item Hk Hk1) as Hlt. fold left in Hlt.
    split; [exact Hlt|]. intros Hl HM. apply not_gt_leb; assumption.
  - apply paginate64_items.
  - intros Hne p Hp.
    pose proof (paginate64_nonempty H M all Hne) as Hall.
    rewrite Forall_forall in Hall. apply Hall, list_elem_of_In, Hp.
  - reflexivity.
  - intros opts. reflexivity.
Qed.

Lemma paginate_pages_witness :
  let it := {| Markdown64.text := "x"; Markdown64.size := 11%float;
               Markdown64.indent := 0%float;
               Markdown64.spaceBefore := 0%float;
               Markdown64.spaceAfter := 4%float; Markdown64.rule := None;
               Markdown64.color := None |} in
  let all := [it; it; it; it; it; it; it] in
  concat (map Markdown64.items (Markdown64.paginate 100.5%float 10.25%float all))
  = all
  /\ length (Markdown64.paginate 100.5%float 10.25%float all) = 2.
Proof.
  intros it all. split; [|vm_compute; reflexivity].
  exact (proj1 (proj2 (proj2 (proj2
           (paginate_pages 100.5%float 10.25%float all))))).
Defined.

(** * Further properties *)

(** ** Colour codec *)

Lemma strip_hash_match (hex : string) :
  match hex with
  | String "#"%char rest => rest
  | _ => hex
  end = strip_hash hex.
Proof.
  destruct hex as [|c rest]; [reflexivity|].
  destruct c as [[] [] [] [] [] [] [] []]; reflexivity.
Qed.

Lemma hex_value_range c h : hex_value c = Some h -> (0 <= h <= 15)%Z.
Proof.
  unfold hex_value.
  repeat match goal with
         | |- context [(?a <=? ?b)%Z] => destruct (Z.leb_spec a b)
         end; simpl; try discriminate; intros [= <-]; lia.
Qed.

Lemma hex_value_digit c : is_hex_digit c = true <-> hex_value c <> None.
Proof.
  unfold is_hex_digit, hex_value.
  repeat match goal with
         | |- context [(?a <=? ?b)%Z] => destruct (Z.leb_spec a b)
         end;
    repeat match goal with
           | |- context [?a <=? ?b] => destruct (Nat.leb_spec a b)
           end;
    simpl; split; try discriminate; try congruence; intros _; lia.
Qed.

Lemma channel_range hi lo x : channel hi lo = Some x -> channel_ok x.
Proof.
  unfold channel.
  destruct (hex_value hi) as [h|] eqn:Hh; [|discriminate].
  destruct (hex_value lo) as [l|] eqn:Hl; [|discriminate].
  apply hex_value_range in Hh, Hl. intros [= <-].
  unfold channel_ok, Qdiv, Qle, Qmult, Qinv, inject_Z; simpl. lia.
Qed.

Lemma channel_digits hi lo :
  channel hi lo <> None <-> is_hex_digit hi = true /\ is_hex_digit lo = true.
Proof.
  rewrite !hex_value_digit. unfold channel.
  destruct (hex_value hi), (hex_value lo); intuition congruence.
Qed.

Lemma parseColor_unfold (s : string) :
  parseColor (Some s)
  = if negb (Js.truthy s) || String.eqb s "none" then None
    else parse_digits (list_ascii_of_string (strip_hash s)).
Proof.
  unfold parseColor. rewrite strip_hash_match.
  destruct (negb (Js.truthy s) || String.eqb s "none"); [reflexivity|].
  unfold parse_digits.
  destruct (list_ascii_of_string (strip_hash s))
    as [|a [|b [|c [|d [|e [|f [|g l]]]]]]]; reflexivity.
Qed.

Lemma parse_digits_range t l :
  parse_digits t = Some l ->
  exists r g b, l = [r; g; b] /\ channel_ok r /\ channel_ok g /\ channel_ok b.
Proof.
  unfold parse_digits.
  destruct t as [|a [|b [|c [|d [|e [|f [|g l']]]]]]]; try discriminate;
    (match goal with
     | |- context [match channel ?x1 ?x2 with _ => _ end] =>
         destruct (channel x1 x2) eqn:E1; [|discriminate]
     end;
     match goal with
     | |- context [match channel ?x1 ?x2 with _ => _ end] =>
         destruct (channel x1 x2) eqn:E2; [|discriminate]
     end;
     match goal with
     | |- context [match channel ?x1 ?x2 with _ => _ end] =>
         destruct (channel x1 x2) eqn:E3; [|discriminate]
     end;
     intros [= <-]; do 3 eexists; split; [reflexivity|];
     (split; [|split]); eapply channel_range; eassumption).
Qed.

Lemma parse_digits_Some t :
  parse_digits t <> None <->
  (length t = 3 \/ length t = 6) /\ forallb is_hex_digit t = true.
Proof.
  unfold parse_digits.
  destruct t as [|a [|b [|c [|d [|e [|f [|g l']]]]]]]; simpl;
    try (split; [congruence | intros [[?|?] _]; lia]).
  - pose proof (channel_digits a a). pose proof (channel_digits b b).
    pose proof (channel_digits c c).
    destruct (channel a a), (channel b b), (channel c c);
      rewrite !andb_true_iff; intuition congruence.
  - pose proof (channel_digits a b). pose proof (channel_digits c d).
    pose proof (channel_digits e f).
    destruct (channel a b), (channel c d), (channel e f);
      rewrite !andb_true_iff; intuition congruence.
Qed.

Lemma not_none_length s : String.eqb s "none" = true -> String.length s = 4.
Proof. intros E. apply String.eqb_eq in E. subst. reflexivity. Qed.

(** X1.  The three-digit shorthand is read as the six-digit token with
    every digit doubled, with or without the leading hash, whatever the
    three characters are. *)
Theorem parseColor_shorthand (a b c : ascii) :
  let short := String a (String b (String c EmptyString)) in
  let long :=
    String a (String a (String b (String b (String c (String c EmptyString))))) in
  parseColor (Some short) = parseColor (Some long)
  /\ parseColor (Some (String "#"%char short))
     = parseColor (Some (String "#"%char long)).
Proof.
  intros short long. rewrite !parseColor_unfold.
  assert (Hs : forall s, String.length s <> 4 -> String.length s <> 0 ->
               negb (Js.truthy s) || String.eqb s "none" = false).
  { intros s H4 H0. destruct s; [simpl in H0; lia|].
    destruct (String.eqb (String a0 s) "none") eqn:E; [|reflexivity].
    apply not_none_length in E. contradiction. }
  rewrite !Hs by (simpl; lia). split; [|reflexivity].
  unfold short, long, strip_hash.
  destruct (Ascii.eqb a "#"%char); reflexivity.
Qed.

Lemma parseColor_range (hex : option string) (rgb : list number) :
  parseColor hex = Some rgb ->
  exists r g b,
    rgb = [r; g; b] /\ (0 <= r <= 1)%Q /\ (0 <= g <= 1)%Q /\ (0 <= b <= 1)%Q.
Proof.
  destruct hex as [s|]; [|discriminate].
  rewrite parseColor_unfold.
  destruct (negb (Js.truthy s) || String.eqb s "none"); [discriminate|].
  apply parse_digits_range.
Qed.

(** X2.  Whatever the token, a colour that is returned has exactly three
    channels, each between 0 and 1. *)
Theorem parseColor_channels (hex : option string) (rgb : list number) :
  parseColor hex = Some rgb ->
  exists r g b,
    rgb = [r; g; b] /\ (0 <= r <= 1)%Q /\ (0 <= g <= 1)%Q /\ (0 <= b <= 1)%Q.
Proof. apply parseColor_range. Qed.

Lemma parseColor_channels_witness :
  exists r g b,
    parseColor (Some "#e0e0e0") = Some [r; g; b]
    /\ (0 <= r <= 1)%Q /\ (0 <= g <= 1)%Q /\ (0 <= b <= 1)%Q.
Proof.
  destruct (parseColor_channels (Some "#e0e0e0") _ eq_refl)
    as (r & g & b & E & Hr & Hg & Hb).
  exists r, g, b. split; [rewrite <- E; reflexivity | tauto].
Defined.

(** X3.  [parseColor] returns a colour exactly for the tokens that, after
    one leading hash is removed, are three or six hexadecimal digits; the
    empty token, [none] and everything else give [null]. *)
Theorem parseColor_accepts (s : string) :
  parseColor (Some s) <> None <-> hex_token s.
Proof.
  rewrite parseColor_unfold. unfold hex_token.
  destruct (negb (Js.truthy s) || String.eqb s "none") eqn:E.
  - split; [congruence|]. intros [Hlen _]. exfalso.
    apply orb_true_iff in E as [E|E].
    + destruct s; [simpl in Hlen; lia | discriminate].
    + apply String.eqb_eq in E. subst. simpl in Hlen. lia.
  - apply parse_digits_Some.
Qed.


Lemma truthy_append_r s1 s2 : Js.truthy s2 = true -> Js.truthy (s1 +:+ s2) = true.
Proof. destruct s1; [trivial | reflexivity]. Qed.

Lemma colorOp_truthy rgb op r g b :
  rgb = Some [r; g; b] -> Js.truthy (colorOp rgb op) = true.
Proof. intros ->. unfold colorOp. apply truthy_append_r. reflexivity. Qed.

(** X4.  A colour the codec rejects paints nothing: [rect] and [line]
    leave the page as it is, [link] records its annotation and draws no
    underline, and [text] falls back to black. *)
Theorem rejected_colour_paints_nothing `{NumberToString}
    (colour : string) (p : PageLocal) :
  parseColor (Some colour) = None ->
  (forall x y w h, ctx.rect x y w h colour p = p)
  /\ (forall x1 y1 x2 y2 lw, ctx.line x1 y1 x2 y2 colour lw p = p)
  /\ (forall url x y w h,
        let p' := ctx.link url x y w h (Some {| underline := Some colour |}) p in
        ops p' = ops p
        /\ links p' = links p ++ [(url, [x; y; (x + w)%Q; (y + h)%Q])])
  /\ (forall str x y size al bw,
        exists rest,
          ops (ctx.text str x y size
                 (Some {| align := al; width := bw; color := Some colour |}) p)
          = ops p ++ "0.000 0.000 0.000 rg" :: "BT" :: rest).
Proof.
  intros Hc. repeat split.
  - unfold ctx.rect. rewrite Hc. reflexivity.
  - unfold ctx.line. rewrite Hc. reflexivity.
  - unfold ctx.link. cbn -[parseColor colorOp Js.truthy]. rewrite Hc.
    destruct (Js.truthy colour); reflexivity.
  - unfold ctx.link. cbn -[parseColor colorOp Js.truthy]. rewrite Hc.
    destruct (Js.truthy colour); reflexivity.
  - unfold ctx.text. cbn -[parseColor colorOp Js.truthy]. rewrite Hc.
    eexists. reflexivity.
Qed.

Lemma rejected_colour_paints_nothing_witness :
  let p := {| ops := ["q"]; images := []; links := []; imageCount := 0 |} in
  ctx.rect 0%Q 0%Q 10%Q 10%Q "#12345" p = p.
Proof.
  intros p.
  exact (proj1 (@rejected_colour_paints_nothing sample_printer "#12345" p eq_refl)
           0%Q 0%Q 10%Q 10%Q).
Defined.

(** X5.  With a colour the codec accepts, [rect] appends exactly its
    three operators ending in the fill, and [line] its five ending in the
    stroke; neither touches the images or the links of the page. *)
Theorem accepted_colour_paints (colour : string) (p : PageLocal) :
  parseColor (Some colour) <> None ->
  (forall x y w h,
     exists c re,
       ctx.rect x y w h colour p
       = {| ops := ops p ++ [c; re; "f"]; images := images p;
            links := links p; imageCount := imageCount p |})
  /\ (forall x1 y1 x2 y2 lw,
        exists wd c m l,
          ctx.line x1 y1 x2 y2 colour lw p
          = {| ops := ops p ++ [wd; c; m; l; "S"]; images := images p;
               links := links p; imageCount := imageCount p |}).
Proof.
  intros Hc. destruct (parseColor (Some colour)) as [rgb|] eqn:E; [|congruence].
  destruct (parseColor_range _ _ E) as (r & g & b & -> & _).
  pose proof (colorOp_truthy _ "rg" r g b eq_refl) as Hrg.
  pose proof (colorOp_truthy _ "RG" r g b eq_refl) as HRG.
  split.
  - intros. unfold ctx.rect. rewrite E, Hrg. do 2 eexists. reflexivity.
  - intros. unfold ctx.line. rewrite E, HRG. do 4 eexists. reflexivity.
Qed.

Lemma accepted_colour_paints_witness :
  let p := {| ops := []; images := []; links := []; imageCount := 0 |} in
  exists c re, ops (ctx.rect 0%Q 0%Q 10%Q 10%Q "#fff" p) = [c; re; "f"].
Proof.
  intros p.
  destruct (proj1 (accepted_colour_paints "#fff" p ltac:(discriminate))
              0%Q 0%Q 10%Q 10%Q) as (c & re & E).
  exists c, re. rewrite E. reflexivity.
Defined.

(** ** Text metrics *)









(** ** Value serializer, continued *)

Lemma read_body_escape str : forall rest,
  read_body (escape str +:+ String ")"%char rest) = Some (str, rest).
Proof.
  induction str as [|c str IH]; intros rest; [reflexivity|].
  change (escape (String c str)) with (escape_char c +:+ escape str).
  rewrite append_assoc. unfold escape_char.
  specialize (IH rest). set (X := escape str +:+ String ")"%char rest) in *.
  destruct (Ascii.eqb_spec c "\"%char) as [->|H1].
  { simpl. change (EmptyString +:+ X) with X. rewrite IH. reflexivity. }
  destruct (Ascii.eqb_spec c "("%char) as [->|H2].
  { simpl. change (EmptyString +:+ X) with X. rewrite IH. reflexivity. }
  destruct (Ascii.eqb_spec c ")"%char) as [->|H3].
  { simpl. change (EmptyString +:+ X) with X. rewrite IH. reflexivity. }
  destruct (Ascii.eqb_spec c "013"%char) as [->|H4].
  { simpl. change (EmptyString +:+ X) with X. rewrite IH. reflexivity. }
  destruct (Ascii.eqb_spec c "010"%char) as [->|H5].
  { simpl. change (EmptyString +:+ X) with X. rewrite IH. reflexivity. }
  simpl. change (EmptyString +:+ X) with X.
  destruct (Ascii.eqb_spec c ")"%char); [contradiction|].
  destruct (Ascii.eqb_spec c "\"%char); [contradiction|].
  rewrite IH. reflexivity.
Qed.

(** X8.  Escaping loses nothing: a reader that undoes the backslash
    escapes and stops at the first parenthesis that is not escaped gets
    the text of [pdfString] back, character for character, and is left
    with exactly what follows the literal. *)
Theorem pdfString_round_trip (str rest : string) :
  read_literal (pdfString str +:+ rest) = Some (str, rest).
Proof.
  rewrite pdfString_escape.
  change (read_body ((escape str +:+ ")") +:+ rest) = Some (str, rest)).
  rewrite append_assoc. apply read_body_escape.
Qed.




(** X10.  A dictionary entry whose value is [undefined] leaves no trace
    in the output: the dictionary prints as if the entry were not
    there. *)
Theorem serialize_skips_undefined (before after : list (string * PDFValue))
    (key : string) :
  serialize (VDict (before ++ (key, VUndefined) :: after))
  = serialize (VDict (before ++ after)).
Proof.
  rewrite !serialize_VDict, !List.filter_app. reflexivity.
Qed.

(** The text operator of [text]: six operators, and the operand of the
    show-text one reads back as the string drawn. *)
Lemma text_ops `{NumberToString} str x y size opts p :
  exists c f t,
    ops (ctx.text str x y size opts p)
    = ops p ++ [c; "BT"; f; t; pdfString str +:+ " Tj"; "ET"].
Proof. unfold ctx.text. do 3 eexists. reflexivity. Qed.

(** X11.  [text] appends six operators whatever its options, and the
    operand of its show-text operator reads back as the string given,
    parentheses, backslashes and line breaks included. *)
Theorem text_shows_string `{NumberToString} (str : string) (x y size : number)
    (opts : option TextOptions) (p : PageLocal) :
  exists c f t show,
    ops (ctx.text str x y size opts p) = ops p ++ [c; "BT"; f; t; show; "ET"]
    /\ read_literal show = Some (str, " Tj")
    /\ images (ctx.text str x y size opts p) = images p
    /\ links (ctx.text str x y size opts p) = links p.
Proof.
  destruct (text_ops str x y size opts p) as (c & f & t & E).
  exists c, f, t, (pdfString str +:+ " Tj"). split; [exact E|].
  split; [|split; reflexivity].
  rewrite pdfString_escape.
  change (read_body ((escape str +:+ ")") +:+ " Tj") = Some (str, " Tj")).
  rewrite append_assoc. apply read_body_escape.
Qed.

(** ** JPEG header scanner, continued *)

Section JpegMore.

Variable bytes : list byte.

Lemma visits_ge_2 i : visits bytes i -> 2 <= i.
Proof.
  induction 1 as [|i j _ IH _ E]; [lia|].
  apply body_Next_gt in E. lia.
Qed.

Lemma be16_range i : (0 <= be16 bytes i <= 65535)%Z.
Proof.
  rewrite be16_value.
  pose proof (at_range bytes i). pose proof (at_range bytes (i + 1)). lia.
Qed.

(** When the body returns, it returns what the frame header at that index
    declares. *)
Lemma body_Return_inv i r :
  body bytes i = Return r ->
  frame_header_at bytes i /\ nonzero_size_at bytes i
  /\ r = {| jpeg_width := be16 bytes (i + 7);
            jpeg_height := be16 bytes (i + 5);
            jpeg_colorSpace := colorSpace_of (at_ bytes (i + 9)) |}.
Proof.
  unfold body, skip, frame_header_at, nonzero_size_at.
  destruct (Z.eqb_spec (at_ bytes i) 255) as [E|E]; simpl; [|discriminate].
  pose proof (SOF_at_test bytes i E) as Hsof.
  destruct (Z.eqb_spec (at_ bytes (i + 1)) 218); [discriminate|].
  destruct ((at_ bytes (i + 1) =? 192)%Z || (at_ bytes (i + 1) =? 194)%Z).
  - assert (Hs : SOF_at bytes i) by (apply Hsof; reflexivity).
    destruct (Nat.leb_spec (length bytes) (i + 9)); [discriminate|].
    destruct (Z.eqb_spec (be16 bytes (i + 7)) 0);
      destruct (Z.eqb_spec (be16 bytes (i + 5)) 0); simpl;
      try (destruct (length bytes <=? i + 3); discriminate).
    intros [= <-]. split; [split; [exact Hs | lia]|].
    split; [split; assumption | reflexivity].
  - destruct (length bytes <=? i + 3); discriminate.
Qed.

Lemma parseJpeg_Ok_inv r :
  parseJpeg bytes = Ok r ->
  has_SOI bytes = true
  /\ exists i, visits bytes i /\ i < length bytes - 1 /\ body bytes i = Return r.
Proof.
  unfold parseJpeg. destruct (has_SOI bytes); [|discriminate]. simpl.
  pose proof (scan_stops bytes (length bytes) 2 (visits_start bytes)
                ltac:(lia)) as Hstop.
  destruct (scan bytes (length bytes) 2); try discriminate.
  intros [= <-]. split; [reflexivity | exact Hstop].
Qed.

End JpegMore.

(** X12.  What [parseJpeg] returns is a usable image size: width and
    height between 1 and 65535, one of the three colour spaces, from a
    stream of at least twelve bytes that opens with the start-of-image
    marker. *)
Theorem parseJpeg_result_sane (bytes : list byte) (info : JpegInfo) :
  parseJpeg bytes = Ok info ->
  (1 <= jpeg_width info <= 65535)%Z
  /\ (1 <= jpeg_height info <= 65535)%Z
  /\ (jpeg_colorSpace info = "/DeviceGray"
      \/ jpeg_colorSpace info = "/DeviceCMYK"
      \/ jpeg_colorSpace info = "/DeviceRGB")
  /\ 12 <= length bytes
  /\ at_ bytes 0 = 255%Z /\ at_ bytes 1 = 216%Z.
Proof.
  intros Hok. destruct (parseJpeg_Ok_inv bytes info Hok) as (Hsoi & i & Hv & Hi & Hb).
  apply body_Return_inv in Hb as ([_ H9] & [Hh Hw] & ->). simpl.
  apply visits_ge_2 in Hv.
  pose proof (be16_range bytes (i + 7)). pose proof (be16_range bytes (i + 5)).
  unfold has_SOI in Hsoi. rewrite !andb_true_iff, !Z.eqb_eq in Hsoi.
  repeat split; try lia; try tauto.
  unfold colorSpace_of.
  destruct (at_ bytes (i + 9) =? 1)%Z; [tauto|].
  destruct (at_ bytes (i + 9) =? 4)%Z; tauto.
Qed.

Lemma parseJpeg_result_sane_witness :
  let bytes := [xff; xd8; xff; xc0; x00; x0b; x08; x00; x10; x00; x20; x01] in
  12 <= length bytes.
Proof.
  intros bytes.
  exact (proj1 (proj2 (proj2 (proj2
           (parseJpeg_result_sane bytes _ eq_refl))))).
Defined.

(** X13.  A stream of fewer than twelve bytes is never an image: two
    bytes of start-of-image marker and ten of frame header are the
    least [parseJpeg] accepts. *)
Theorem parseJpeg_short_stream (bytes : list byte) :
  length bytes < 12 -> fails_with (parseJpeg bytes) MalformedImage.
Proof.
  intros Hlen. destruct (parseJpeg bytes) as [e|info] eqn:E.
  - exists e. split; [reflexivity|]. eapply parseJpeg_Throw_kind. exact E.
  - destruct (parseJpeg_Ok_inv bytes info E) as (_ & i & Hv & _ & Hb).
    apply body_Return_inv in Hb as ([_ H9] & _). apply visits_ge_2 in Hv. lia.
Qed.

Lemma parseJpeg_short_stream_witness :
  fails_with (parseJpeg [xff; xd8; xff; xc0; x00; x0b; x08; x00; x10; x00; x20])
             MalformedImage.
Proof. apply parseJpeg_short_stream. simpl. lia. Defined.

Section JpegPrefix.

Variables (bytes more : list byte).

Lemma at_app i : i < length bytes -> at_ (bytes ++ more) i = at_ bytes i.
Proof. intros Hi. unfold at_. rewrite app_nth1 by exact Hi. reflexivity. Qed.

Lemma be16_app i :
  i + 1 < length bytes -> be16 (bytes ++ more) i = be16 bytes i.
Proof. intros Hi. unfold be16. rewrite !at_app by lia. reflexivity. Qed.

(** A turn of the loop that neither breaks nor runs out reads only bytes
    of the stream it was given: more bytes after them change nothing. *)
Lemma body_app i :
  i < length bytes - 1 ->
  match body bytes i with
  | Next _ | Return _ => body (bytes ++ more) i = body bytes i
  | _ => True
  end.
Proof.
  intros Hi. unfold body, skip. rewrite length_app.
  rewrite (at_app i), (at_app (i + 1)) by lia.
  destruct (negb (at_ bytes i =? 255)%Z); [reflexivity|].
  destruct (at_ bytes (i + 1) =? 218)%Z; [exact I|].
  destruct ((at_ bytes (i + 1) =? 192)%Z || (at_ bytes (i + 1) =? 194)%Z).
  - destruct (Nat.leb_spec (length bytes) (i + 9)) as [H9|H9]; [exact I|].
    destruct (Nat.leb_spec (length bytes + length more) (i + 9)); [lia|].
    rewrite (be16_app (i + 5)), (be16_app (i + 7)), (at_app (i + 9)) by lia.
    destruct (negb _ && negb _); [reflexivity|].
    destruct (Nat.leb_spec (length bytes) (i + 3)); [lia|].
    destruct (Nat.leb_spec (length bytes + length more) (i + 3)); [lia|].
    rewrite (be16_app (i + 2)) by lia. reflexivity.
  - destruct (Nat.leb_spec (length bytes) (i + 3)); [exact I|].
    destruct (Nat.leb_spec (length bytes + length more) (i + 3)); [lia|].
    rewrite (be16_app (i + 2)) by lia. reflexivity.
Qed.

Lemma visits_app i : visits bytes i -> visits (bytes ++ more) i.
Proof.
  induction 1 as [|i j _ IH Hi E]; [constructor|].
  apply (visits_next _ i j IH).
  - rewrite length_app. lia.
  - pose proof (body_app i Hi) as Hb. rewrite E in Hb. exact Hb.
Qed.

End JpegPrefix.

(** X14.  The header is read from the front of the stream only: once
    [parseJpeg] has returned a size, whatever bytes are appended to the
    stream, it returns the same size. *)
Theorem parseJpeg_prefix_stable (bytes more : list byte) (info : JpegInfo) :
  parseJpeg bytes = Ok info -> parseJpeg (bytes ++ more) = Ok info.
Proof.
  intros Hok.
  destruct (parseJpeg_Ok_inv bytes info Hok) as (Hsoi & i & Hv & Hi & Hb).
  assert (Hlen : 2 <= length bytes).
  { unfold has_SOI in Hsoi. rewrite !andb_true_iff in Hsoi.
    destruct Hsoi as [[H2 _] _]. apply Nat.leb_le in H2. exact H2. }
  unfold parseJpeg.
  assert (Hsoi' : has_SOI (bytes ++ more) = true).
  { unfold has_SOI in *. rewrite !at_app by lia. rewrite length_app.
    rewrite !andb_true_iff in *. destruct Hsoi as [[H2 H0] H1].
    repeat split; try assumption. apply Nat.leb_le. lia. }
  rewrite Hsoi'. simpl.
  rewrite (visits_scan _ i (visits_app bytes more i Hv)).
  assert (Hi' : i < length (bytes ++ more) - 1) by (rewrite length_app; lia).
  rewrite (scan_unfold _ i Hi').
  pose proof (body_app bytes more i Hi) as Happ. rewrite Hb in Happ.
  rewrite Happ. reflexivity.
Qed.

Lemma parseJpeg_prefix_stable_witness :
  parseJpeg ([xff; xd8; xff; xc0; x00; x0b; x08; x00; x10; x00; x20; x01]
             ++ [xff; xda; x00; x00])
  = Ok {| jpeg_width := 32; jpeg_height := 16; jpeg_colorSpace := "/DeviceGray" |}.
Proof.
  exact (parseJpeg_prefix_stable
           [xff; xd8; xff; xc0; x00; x0b; x08; x00; x10; x00; x20; x01]
           [xff; xda; x00; x00] _ eq_refl).
Defined.

(** ** More on word wrap *)

Section WrapLetters.

Import Markdown.

Variables (size maxW : number).

Lemma wrap_char_held st ch :
  held (wrap_char size maxW st ch) = held st ++ letters (String ch EmptyString).
Proof.
  destruct st as [lines chunk]. unfold wrap_char.
  destruct (Num.gtb _ maxW && Js.truthy chunk); unfold held; simpl.
  - rewrite flat_map_snoc. reflexivity.
  - rewrite letters_app, app_assoc. reflexivity.
Qed.

Lemma wrap_chars_held chars : forall st,
  held (fold_left (wrap_char size maxW) chars st)
  = held st ++ letters (string_of_list_ascii chars).
Proof.
  induction chars as [|ch chars IH]; intros st; simpl.
  - unfold letters. simpl. rewrite app_nil_r. reflexivity.
  - rewrite IH, wrap_char_held, <- app_assoc. f_equal.
    unfold letters. simpl. destruct (negb _); reflexivity.
Qed.

Lemma wrap_word_held st word :
  held (wrap_word size maxW st word) = held st ++ letters word.
Proof.
  destruct st as [lines line]. unfold wrap_word.
  destruct (Num.gtb (measureText word size) maxW).
  - rewrite wrap_chars_held, string_of_list_ascii_of_string.
    unfold held at 1. simpl. rewrite app_nil_r, held_flush. reflexivity.
  - destruct (Num.leb _ maxW).
    + unfold held. simpl. destruct line; simpl.
      * change (letters EmptyString) with (@nil ascii).
        rewrite app_nil_r. reflexivity.
      * change (String a line +:+ " " +:+ word)
          with (String a line +:+ (" " +:+ word)).
        rewrite letters_app, letters_app, <- app_assoc. reflexivity.
    + unfold held at 1. simpl. rewrite held_flush. reflexivity.
Qed.

Lemma wrap_words_held words : forall st,
  held (fold_left (wrap_word size maxW) words st)
  = held st ++ flat_map letters words.
Proof.
  induction words as [|w words IH]; intros st; simpl.
  - rewrite app_nil_r. reflexivity.
  - rewrite IH, wrap_word_held, <- app_assoc. reflexivity.
Qed.

Lemma wrap_letters text : flat_map letters (wrap size maxW text) = letters text.
Proof.
  unfold wrap.
  pose proof (wrap_words_held (Js.split " "%char text) ([], EmptyString)) as Hh.
  destruct (fold_left _ _ _) as [lines line].
  rewrite <- held_flush, letters_split in Hh. simpl in Hh.
  destruct (Nat.ltb_spec 0 (length (if Js.truthy line then lines ++ [line] else lines)))
    as [Hlt|Hge]; [exact Hh|].
  destruct (if Js.truthy line then lines ++ [line] else lines);
    [exact Hh | simpl in Hge; lia].
Qed.

End WrapLetters.

(** X15.  Wrapping loses nothing but spaces: the characters of the lines
    [wrap] returns, spaces left out, are those of the text, in the same
    order, for every size and every width budget. *)
Theorem wrap_keeps_letters (text : string) (size maxW : number) :
  flat_map letters (Markdown.wrap size maxW text) = letters text.
Proof. apply wrap_letters. Qed.

Lemma split_cons (c : ascii) (s : string) :
  exists w ws, Js.split c s = w :: ws.
Proof.
  destruct s as [|a rest]; simpl; [eauto|].
  destruct (Ascii.eqb a c); [eauto|].
  destruct (Js.split c rest); eauto.
Qed.

Section WrapNoEmpty.

Import Markdown.

Variables (size maxW : number).

Lemma push_truthy lines line :
  Forall (fun l => l <> EmptyString) lines ->
  Forall (fun l => l <> EmptyString)
         (if Js.truthy line then lines ++ [line] else lines).
Proof.
  intros Hl. destruct line; simpl; [exact Hl|].
  apply Forall_app. split; [exact Hl|]. apply Forall_singleton. discriminate.
Qed.

Lemma wrap_char_lines st ch :
  Forall (fun l => l <> EmptyString) (fst st) ->
  Forall (fun l => l <> EmptyString) (fst (wrap_char size maxW st ch)).
Proof.
  destruct st as [lines chunk]. unfold wrap_char. simpl. intros Hl.
  destruct (Num.gtb _ maxW); simpl; [|exact Hl].
  destruct chunk; simpl; [exact Hl|].
  apply Forall_app. split; [exact Hl|]. apply Forall_singleton. discriminate.
Qed.

Lemma wrap_chars_lines chars : forall st,
  Forall (fun l => l <> EmptyString) (fst st) ->
  Forall (fun l => l <> EmptyString)
         (fst (fold_left (wrap_char size maxW) chars st)).
Proof.
  induction chars as [|ch chars IH]; intros st Hl; simpl; [exact Hl|].
  apply IH, wrap_char_lines, Hl.
Qed.

Lemma wrap_word_lines st word :
  Forall (fun l => l <> EmptyString) (fst st) ->
  Forall (fun l => l <> EmptyString) (fst (wrap_word size maxW st word)).
Proof.
  destruct st as [lines line]. unfold wrap_word. simpl. intros Hl.
  pose proof (push_truthy lines line Hl) as Hp.
  destruct (Num.gtb (measureText word size) maxW).
  - apply wrap_chars_lines. exact Hp.
  - destruct (Num.leb _ maxW); simpl; assumption.
Qed.

Lemma wrap_words_lines words : forall st,
  Forall (fun l => l <> EmptyString) (fst st) ->
  Forall (fun l => l <> EmptyString)
         (fst (fold_left (wrap_word size maxW) words st)).
Proof.
  induction words as [|w words IH]; intros st Hl; simpl; [exact Hl|].
  apply IH, wrap_word_lines, Hl.
Qed.

Lemma wrap_lines_nonempty text :
  wrap size maxW text = [EmptyString]
  \/ Forall (fun l => l <> EmptyString) (wrap size maxW text).
Proof.
  unfold wrap.
  pose proof (wrap_words_lines (Js.split " "%char text) ([], EmptyString)
                ltac:(constructor)) as Hl.
  destruct (fold_left _ _ _) as [lines line]. simpl in Hl.
  apply (push_truthy lines line) in Hl.
  destruct (0 <? length _); [right; exact Hl | left; reflexivity].
Qed.

End WrapNoEmpty.

(** X17.  [wrap] returns no empty line among others: either it returns
    the one empty line (for a text of spaces only, the empty text
    included), or none of its lines is empty. *)
Theorem wrap_no_empty_line (text : string) (size maxW : number) :
  (Markdown.wrap size maxW text = [EmptyString] /\ letters text = [])
  \/ Forall (fun l => l <> EmptyString) (Markdown.wrap size maxW text).
Proof.
  destruct (wrap_lines_nonempty size maxW text) as [E|Hall];
    [left | right; exact Hall].
  split; [exact E|].
  rewrite <- (wrap_letters size maxW text), E. reflexivity.
Qed.

(** ** More on pagination *)

Section PaginateFacts.

Import Markdown.

Variables (H M : number).

Lemma ltb_true a b : Num.ltb a b = true <-> (a < b)%Q.
Proof.
  unfold Num.ltb. rewrite negb_true_iff. split.
  - intros E. apply Qnot_le_lt. intros Hle.
    apply Qle_bool_iff in Hle. congruence.
  - intros Hlt. destruct (Qle_bool b a) eqn:E; [|reflexivity].
    apply Qle_bool_iff in E. exfalso. exact (Qlt_not_le _ _ Hlt E).
Qed.

Lemma ltb_false a b : Num.ltb a b = false <-> (b <= a)%Q.
Proof.
  unfold Num.ltb. rewrite negb_false_iff. apply Qle_bool_iff.
Qed.

(** One turn of the loop, when the item does not fit: the page in
    progress is closed if it holds an item, and the item opens the next
    one, [spaceBefore] below the top margin. *)
Lemma place_overflow c item :
  (y c - needed item < M)%Q ->
  place H M c item
  = {| pages := flush c;
       y := (H - M - spaceBefore item - (size item + spaceAfter item))%Q;
       pg := [item];
       cur_ys := [(H - M - spaceBefore item)%Q] |}.
Proof.
  intros Hlt. unfold place. apply ltb_true in Hlt. rewrite Hlt. reflexivity.
Qed.

(** One turn of the loop, when the item fits: it joins the page in
    progress. *)
Lemma place_fit c item :
  (M <= y c - needed item)%Q ->
  place H M c item
  = {| pages := pages c;
       y := (y c - spaceBefore item - (size item + spaceAfter item))%Q;
       pg := pg c ++ [item];
       cur_ys := cur_ys c ++ [(y c - spaceBefore item)%Q] |}.
Proof.
  intros Hle. unfold place. apply ltb_false in Hle. rewrite Hle. reflexivity.
Qed.

Lemma flush_items c : concat (map items (flush c)) = placed c.
Proof.
  unfold flush, placed. destruct (pg c) as [|i rest]; simpl.
  - rewrite app_nil_r. reflexivity.
  - rewrite map_app, concat_app. simpl. rewrite app_nil_r. reflexivity.
Qed.

Lemma place_placed c item : placed (place H M c item) = placed c ++ [item].
Proof.
  destruct (Qlt_le_dec (y c - needed item) M) as [Hlt|Hle].
  - rewrite (place_overflow c item Hlt). unfold placed at 1. simpl.
    rewrite flush_items. reflexivity.
  - rewrite (place_fit c item Hle). unfold placed. simpl.
    apply app_assoc.
Qed.

Lemma place_all_placed all : forall c,
  placed (fold_left (place H M) all c) = placed c ++ all.
Proof.
  induction all as [|item all IH]; intros c; simpl.
  - rewrite app_nil_r. reflexivity.
  - rewrite IH, place_placed, <- app_assoc. reflexivity.
Qed.

Lemma paginate_items all : concat (map items (paginate H M all)) = all.
Proof.
  unfold paginate.
  pose proof (flush_items (fold_left (place H M) all (start H M))) as Hf.
  rewrite place_all_placed in Hf. simpl in Hf.
  destruct (Nat.ltb_spec 0 (length (flush (fold_left (place H M) all (start H M)))))
    as [Hlt|Hge]; [exact Hf|].
  destruct (flush _); [simpl in Hf; subst; reflexivity | simpl in Hge; lia].
Qed.

End PaginateFacts.

Section PaginateMoreFacts.

Import Markdown.

Variables (H M : number).

Lemma flush_nonempty c :
  Forall (fun p => items p <> []) (pages c) ->
  Forall (fun p => items p <> []) (flush c).
Proof.
  intros Hp. unfold flush. destruct (pg c) as [|i rest] eqn:E; simpl;
    [exact Hp|].
  apply Forall_app. split; [exact Hp|]. apply Forall_singleton. simpl.
  discriminate.
Qed.

Lemma place_nonempty c item :
  Forall (fun p => items p <> []) (pages c) ->
  Forall (fun p => items p <> []) (pages (place H M c item)).
Proof.
  intros Hp. unfold place. destruct (Num.ltb _ M); simpl; [|exact Hp].
  apply flush_nonempty, Hp.
Qed.

Lemma place_all_nonempty all : forall c,
  Forall (fun p => items p <> []) (pages c) ->
  Forall (fun p => items p <> []) (pages (fold_left (place H M) all c)).
Proof.
  induction all as [|item all IH]; intros c Hp; simpl; [exact Hp|].
  apply IH, place_nonempty, Hp.
Qed.

Lemma concat_length_ge {A} (ls : list (list A)) :
  Forall (fun l => l <> []) ls -> length ls <= length (concat ls).
Proof.
  induction 1 as [|l ls Hl _ IH]; simpl; [lia|].
  rewrite length_app. destruct l; [congruence | simpl; lia].
Qed.

Lemma paginate_nonempty all :
  all <> [] ->
  Forall (fun p => items p <> []) (paginate H M all)
  /\ 1 <= length (paginate H M all) <= length all.
Proof.
  intros Hne.
  pose proof (paginate_items H M all) as Hitems.
  assert (Hall : Forall (fun p => items p <> []) (paginate H M all)).
  { unfold paginate in *.
    pose proof (flush_nonempty _
                  (place_all_nonempty all (start H M) ltac:(constructor))) as Hf.
    destruct (0 <? length _); [exact Hf|].
    simpl in Hitems. congruence. }
  split; [exact Hall|]. split.
  - destruct (paginate H M all); [simpl in Hitems; congruence | simpl; lia].
  - rewrite <- Hitems at 2.
    rewrite <- (length_map items (paginate H M all)).
    apply concat_length_ge. rewrite Forall_map. exact Hall.
Qed.

End PaginateMoreFacts.

(** X18.  Pagination makes no empty page out of items: for an item
    sequence that is not empty, every page holds at least one item, and
    there are at least one page and at most as many pages as items. *)
Theorem paginate_no_empty_page (H M : number) (all : list Markdown.Item) :
  all <> [] ->
  (forall p, In p (Markdown.paginate H M all) -> Markdown.items p <> [])
  /\ 1 <= length (Markdown.paginate H M all) <= length all.
Proof.
  intros Hne. destruct (paginate_nonempty H M all Hne) as [Hall Hlen].
  split; [|exact Hlen]. intros p Hp. rewrite Forall_forall in Hall.
  apply Hall, list_elem_of_In, Hp.
Qed.

Lemma paginate_no_empty_page_witness :
  let big := {| Markdown.text := "x"; Markdown.size := 200%Q;
                Markdown.indent := 0%Q; Markdown.spaceBefore := 0%Q;
                Markdown.spaceAfter := 4%Q; Markdown.rule := None;
                Markdown.color := None |} in
  1 <= length (Markdown.paginate 100%Q 10%Q [big; big]) <= 2.
Proof.
  intros big.
  exact (proj2 (paginate_no_empty_page 100%Q 10%Q [big; big]
                  ltac:(discriminate))).
Defined.

(** ** Block classification *)

Section BlocksFacts.

Import Markdown.

Variable textW : number.

Lemma trimStart_blank cs : forallb is_space cs = true -> trimStart cs = [].
Proof.
  induction cs as [|c cs IH]; simpl; [reflexivity|].
  intros Hb. apply andb_true_iff in Hb as [Hc Hcs]. rewrite Hc. apply IH, Hcs.
Qed.

Lemma forallb_rev {A} (f : A -> bool) (l : list A) :
  forallb f (rev l) = forallb f l.
Proof.
  induction l as [|a l IH]; simpl; [reflexivity|].
  rewrite forallb_app, IH. simpl. rewrite andb_true_r. apply andb_comm.
Qed.

Lemma trimEnd_blank cs : forallb is_space cs = true -> trimEnd cs = [].
Proof.
  intros Hb. unfold trimEnd. rewrite trimStart_blank; [reflexivity|].
  rewrite forallb_rev. exact Hb.
Qed.

(** A blank line adds the spacer, unless it comes first or follows
    another blank line. *)
Lemma classify_blank items prev raw :
  is_blank raw = true ->
  classify textW (items, prev) raw
  = ((if is_start_or_blank prev then items else items ++ [spacer]), blank).
Proof.
  intros Hb. unfold classify. rewrite (trimEnd_blank _ Hb). reflexivity.
Qed.

Lemma classify_blanks raws : forall items prev,
  raws <> [] -> Forall (fun raw => is_blank raw = true) raws ->
  fold_left (classify textW) raws (items, prev)
  = ((if is_start_or_blank prev then items else items ++ [spacer]), blank).
Proof.
  induction raws as [|raw raws IH]; intros items prev Hne Hall; [congruence|].
  apply Forall_cons in Hall as [Hraw Hall]. cbn [fold_left].
  rewrite (classify_blank items prev raw Hraw).
  destruct raws as [|raw' raws']; [reflexivity|].
  rewrite IH by (assumption || discriminate). reflexivity.
Qed.

End BlocksFacts.

(** X20.  Blank lines collapse: a run of one or more lines of white
    space only leaves a single spacer item (empty text, body size, 4
    after), and leaves nothing at the start of the text or right after
    another blank line; the next block sees a blank line before it. *)
Theorem blank_lines_collapse (textW : number) (raws : list string)
    (items : list Markdown.Item) (prev : Markdown.BlockType) :
  raws <> [] ->
  Forall (fun raw => is_blank raw = true) raws ->
  fold_left (Markdown.classify textW) raws (items, prev)
  = ((if Markdown.is_start_or_blank prev then items else items ++ [spacer]),
     Markdown.blank).
Proof. apply classify_blanks. Qed.

Lemma blank_lines_collapse_witness :
  Markdown.blocks 468%Q ("a" +:+ Js.nl +:+ Js.nl +:+ "  " +:+ Js.nl)
  = fst (Markdown.classify 468%Q ([], Markdown.start_) "a") ++ [spacer].
Proof.
  unfold Markdown.blocks.
  change (Js.split "010"%char ("a" +:+ Js.nl +:+ Js.nl +:+ "  " +:+ Js.nl))
    with (["a"] ++ [""; "  "; ""]).
  rewrite fold_left_app.
  change (fold_left (Markdown.classify 468%Q) ["a"] ([], Markdown.start_))
    with (fst (Markdown.classify 468%Q ([], Markdown.start_) "a"),
          Markdown.para).
  rewrite blank_lines_collapse;
    [reflexivity | discriminate | repeat constructor].
Defined.

(** ** The effect of a page call *)

Lemma extends_refl b : extends b b [].
Proof.
  repeat split; simpl; [rewrite app_nil_r; reflexivity | lia].
Qed.

Lemma extends_trans b b1 b2 new1 new2 :
  extends b b1 new1 -> extends b1 b2 new2 -> extends b b2 (new1 ++ new2).
Proof.
  intros (Ho1 & Hn1 & Hi1 & Hb1) (Ho2 & Hn2 & Hi2 & Hb2).
  split; [|split; [|split]].
  - rewrite Ho2, Ho1, app_assoc. reflexivity.
  - rewrite Hn2, Hn1, length_app. lia.
  - rewrite map_app, Hi1, Hi2, Hn1, length_app, seq_app. reflexivity.
  - congruence.
Qed.

Lemma addObject_extends d st b :
  extends b (fst (addObject d st b))
          [{| id := nextId b; dict := d; stream := st |}].
Proof. repeat split; simpl; lia. Qed.

Section PageEffect.

Context `{NumberToString}.

Lemma call_effect c b p :
  exists new,
    extends b (fst (call c b p)) new
    /\ pages (fst (call c b p)) = pages b
    /\ Forall stream_ok new
    /\ match snd (call c b p) with
       | inr p' =>
           accepts c = true
           /\ length new = (if is_image c then 1 else 0)
           /\ length (links p') = length (links p) + (if is_link c then 1 else 0)
       | inl _ => accepts c = false /\ new = []
       end.
Proof.
  destruct c; simpl;
    try (exists []; split; [apply extends_refl|];
         split; [reflexivity|]; split; [constructor|];
         split; [reflexivity|]; split; [reflexivity|]).
  - unfold ctx.text, push_ops. simpl. lia.
  - unfold ctx.rect, push_ops. destruct (Js.truthy _); simpl; lia.
  - unfold ctx.line, push_ops. destruct (Js.truthy _); simpl; lia.
  - unfold ctx.image. destruct (parseJpeg jpegBytes) as [e|info]; simpl.
    + exists []. split; [apply extends_refl|]. repeat split. constructor.
    + eexists. split; [apply addObject_extends|]. split; [reflexivity|].
      split.
      * apply Forall_singleton. intros bytes [= <-]. reflexivity.
      * simpl. repeat split. lia.
  - unfold ctx.link, push_ops. simpl.
    destruct opts as [[[u|]]|]; simpl;
      try (destruct (Js.truthy u); simpl);
      try (destruct (Js.truthy (colorOp _ _)); simpl);
      rewrite length_app; reflexivity.
Qed.

Lemma run_effect fn : forall b p,
  exists new,
    extends b (fst (run fn b p)) new
    /\ pages (fst (run fn b p)) = pages b
    /\ Forall stream_ok new
    /\ match snd (run fn b p) with
       | inr p' =>
           forallb accepts fn = true
           /\ length new = length (List.filter is_image fn)
           /\ length (links p') = length (links p) + length (List.filter is_link fn)
       | inl e => forallb accepts fn = false /\ kind e = MalformedImage
       end.
Proof.
  induction fn as [|c fn IH]; intros b p.
  - exists []. split; [apply extends_refl|]. simpl. repeat split; try lia.
    constructor.
  - cbn [run forallb].
    destruct (call_effect c b p) as (new1 & Hext1 & Hp1 & Hs1 & Hres).
    destruct (call c b p) as [b1 [e|p1]] eqn:E; simpl in Hext1, Hp1, Hres.
    + destruct Hres as [Hacc ->]. exists []. split; [exact Hext1|].
      split; [exact Hp1|]. split; [constructor|]. simpl.
      rewrite Hacc. split; [reflexivity|]. eapply call_Throw. exact E.
    + destruct Hres as (Hacc & Hlen & Hlinks).
      destruct (IH b1 p1) as (new2 & Hext2 & Hp2 & Hs2 & Hres2).
      exists (new1 ++ new2). split; [eapply extends_trans; eassumption|].
      split; [congruence|]. split; [apply Forall_app; split; assumption|].
      rewrite Hacc. simpl.
      destruct (snd (run fn b1 p1)) as [e|p2]; [exact Hres2|].
      destruct Hres2 as (Hacc2 & Hlen2 & Hlinks2).
      split; [exact Hacc2|]. rewrite length_app, Hlen, Hlen2, Hlinks2, Hlinks.
      simpl. destruct (is_image c), (is_link c); simpl; split; lia.
Qed.

Lemma add_annots_effect lnks : forall b,
  exists new,
    extends b (fst (add_annots lnks b)) new
    /\ pages (fst (add_annots lnks b)) = pages b
    /\ Forall stream_ok new
    /\ length new = length lnks.
Proof.
  induction lnks as [|[url r] lnks IH]; intros b.
  - exists []. split; [apply extends_refl|]. repeat split. constructor.
  - cbn [add_annots].
    match goal with
    | |- context [addObject ?d None b] =>
        pose proof (addObject_extends d None b) as Hext1;
        destruct (addObject d None b) as [b1 r1] eqn:E1
    end.
    assert (Hp1 : pages b1 = pages b) by (injection E1 as <- _; reflexivity).
    simpl in Hext1.
    destruct (IH b1) as (new2 & Hext2 & Hp2 & Hs2 & Hlen2).
    destruct (add_annots lnks b1) as [b2 rs]. simpl in *.
    eexists. split; [eapply extends_trans; eassumption|].
    split; [congruence|]. split.
    + apply Forall_app. split; [|exact Hs2].
      apply Forall_singleton. intros bytes. discriminate.
    + rewrite length_app, Hlen2. reflexivity.
Qed.

(** What a [page] call does to the builder. *)
Lemma page_effect args b :
  exists new,
    extends b (fst (page args b)) new
    /\ Forall stream_ok new
    /\ match snd (page args b) with
       | inr _ =>
           forallb accepts (callback args) = true
           /\ length new
              = length (List.filter is_image (callback args))
                + length (List.filter is_link (callback args)) + 2
           /\ exists front o,
                new = front ++ [o] /\ page_like o
                /\ pages (fst (page args b)) = pages b ++ [new_Ref (id o)]
       | inl e =>
           forallb accepts (callback args) = false
           /\ kind e = MalformedImage
           /\ pages (fst (page args b)) = pages b
       end.
Proof.
  unfold page.
  set (size := match args with
               | page_fn fn => (612%Q, 792%Q, fn)
               | page_sized w h fn => (w, h, fn)
               end).
  assert (Hfn : callback args = snd size) by (destruct args; reflexivity).
  destruct size as [[width height] fn]. simpl in Hfn. rewrite Hfn.
  set (p0 := {| ops := []; images := []; links := []; imageCount := 0 |}).
  destruct (run_effect fn b p0) as (new1 & Hext1 & Hp1 & Hs1 & Hres).
  destruct (run fn b p0) as [b1 [e|p]]; simpl in Hext1, Hp1, Hres.
  - exists new1. simpl. split; [exact Hext1|]. split; [exact Hs1|].
    destruct Hres as [Hacc Hkind]. repeat split; assumption.
  - destruct Hres as (Hacc & Hlen1 & Hlinks).
    match goal with
    | |- context [addObject ?d (Some ?s) b1] =>
        pose proof (addObject_extends d (Some s) b1) as Hext2;
        destruct (addObject d (Some s) b1) as [b2 contentRef] eqn:E2
    end.
    assert (Hp2 : pages b2 = pages b1) by (injection E2 as <- _; reflexivity).
    simpl in Hext2.
    destruct (add_annots_effect (links p) b2) as (new3 & Hext3 & Hp3 & Hs3 & Hlen3).
    destruct (add_annots (links p) b2) as [b3 annots]. simpl in Hext3, Hp3.
    match goal with
    | |- context [addObject ?d None b3] =>
        pose proof (addObject_extends d None b3) as Hext4;
        destruct (addObject d None b3) as [b4 pageRef] eqn:E4
    end.
    assert (Hp4 : pages b4 = pages b3 /\ pageRef = new_Ref (nextId b3))
      by (injection E4 as <- <-; split; reflexivity).
    destruct Hp4 as [Hp4 ->]. simpl in Hext4.
    pose proof (extends_trans _ _ _ _ _
                  (extends_trans _ _ _ _ _
                     (extends_trans _ _ _ _ _ Hext1 Hext2) Hext3) Hext4)
      as Hext.
    match type of Hext with extends _ _ ?n => exists n end.
    simpl. split; [|split; [|split; [|split]]].
    + destruct Hext as (Ho & Hn & Hi & Hb).
      split; [|split; [|split]]; simpl; assumption.
    + repeat (apply Forall_app; split); try assumption.
      * apply Forall_singleton. intros bytes [= <-]. reflexivity.
      * apply Forall_singleton. intros bytes. discriminate.
    + exact Hacc.
    + rewrite !length_app, Hlen1, Hlen3. simpl in Hlinks |- *. lia.
    + eexists _, _. split; [reflexivity|]. split.
      * split; [reflexivity|]. split; [reflexivity|].
        eexists _, _. split; reflexivity.
      * simpl. rewrite Hp4, Hp3, Hp2, Hp1. reflexivity.
Qed.

End PageEffect.


Section ReachableFacts.

Context `{NumberToString}.

Lemma build_Throw b e : snd (build b) = Throw e -> fst (build b) = b.
Proof.
  unfold build. destruct (length (pages b) =? 0); [reflexivity|].
  destruct (built b); [reflexivity|]. discriminate.
Qed.

Lemma build_cases b :
  (exists e, build b = (b, Throw e)) \/ (exists b' out, build b = (b', Ok out)).
Proof.
  unfold build. destruct (length (pages b) =? 0); [left; eauto|].
  destruct (built b); [left; eauto|]. right. simpl. eauto.
Qed.

Lemma reachable_ids_ok b : reachable b -> ids_ok b.
Proof.
  induction 1 as [|args b _ IH|b _ IH].
  - apply ids_ok_pdf.
  - apply page_ids_ok, IH.
  - destruct (build_cases b) as [(e & E)|(b' & out & E)]; rewrite E; simpl;
      [exact IH|].
    exact (proj1 (build_Ok_write b b' out IH E)).
Qed.

End ReachableFacts.

Section ScriptIds.

Context `{NumberToString}.





End ScriptIds.

(** The same of a [page] call with a callback of [Callback], in terms of
    the builder alone. *)
Lemma page_outcome `{NumberToString} (args : PageArgs) (b : Builder) :
  (snd (page args b) = Ok tt <-> forallb accepts (callback args) = true)
  /\ (forall e, snd (page args b) = Throw e ->
        kind e = MalformedImage
        /\ pages (fst (page args b)) = pages b
        /\ built (fst (page args b)) = built b).
Proof.
  destruct (page_effect args b) as (new & Hext & _ & Hres).
  destruct Hext as (_ & _ & _ & Hbuilt).
  destruct (snd (page args b)) as [e|[]].
  - destruct Hres as (Hacc & Hkind & Hpages). split.
    + split; [discriminate | congruence].
    + intros e' [= <-]. repeat split; assumption.
  - destruct Hres as (Hacc & _). split.
    + split; [intros _; exact Hacc | reflexivity].
    + discriminate.
Qed.

(** X21.  For a callback that only draws (it calls the methods of its
    context one after the other, catches no exception and calls neither
    [page] nor [build]), a page call succeeds exactly when the context
    can serve every call, that is, when [parseJpeg] accepts the bytes of
    every image.  When it fails, it fails as a malformed image, and the
    document has the pages it had, and is built or not as it was. *)
Theorem page_succeeds_iff `{NumberToString} (args : PageArgs) (w : World) :
  let r := exec (PageCall (size_of args) (straight (callback args)) Done) w in
  (snd r = Returned <-> forallb accepts (callback args) = true)
  /\ (forall t, snd r = Threw t ->
        exists e,
          t = Lib e
          /\ kind e = MalformedImage
          /\ pages (doc (fst r)) = pages (doc w)
          /\ built (doc (fst r)) = built (doc w)).
Proof.
  intros r. subst r.
  destruct (exec_page args w) as [Edoc Eout]. rewrite Edoc, Eout.
  destruct (page_outcome args (doc w)) as [Hiff Hthrow].
  destruct (snd (page args (doc w))) as [e|[]] eqn:E; simpl.
  - split.
    + split; [discriminate|]. intros Hacc. apply Hiff in Hacc. discriminate.
    + intros t [= <-]. exists e. split; [reflexivity|]. exact (Hthrow e eq_refl).
  - split.
    + split; [intros _; apply Hiff; reflexivity | reflexivity].
    + discriminate.
Qed.

(** X22.  In every state of a builder, the objects carry the ids 1, 2,
    3, ... in the order they were allocated, and the next id is one past
    the last: no id is skipped or handed out twice, whatever pages were
    added, whichever of them failed, and whether or not the document was
    built. *)
Theorem reachable_ids_in_order `{NumberToString} (b : Builder) :
  reachable b ->
  map id (objects b) = seq 1 (length (objects b))
  /\ nextId b = S (length (objects b)).
Proof. apply reachable_ids_ok. Qed.

Lemma reachable_ids_in_order_witness :
  let P := sample_printer in
  let b := fst (build (fst (page (page_fn [Image [] 0%Q 0%Q 1%Q 1%Q])
                              (fst (page (page_fn []) pdf))))) in
  map id (objects b) = seq 1 5 /\ nextId b = 6.
Proof.
  intros P b.
  apply (@reachable_ids_in_order P b).
  apply reachable_build, reachable_page, reachable_page, reachable_pdf.
Defined.




(** ** Dictionaries *)

Lemma dict_get_set_eq k v d : dict_get k (dict_set k v d) = Some v.
Proof.
  induction d as [|[k' v'] d IH]; simpl.
  - rewrite String.eqb_refl. reflexivity.
  - destruct (String.eqb k' k) eqn:E; simpl.
    + rewrite String.eqb_refl. reflexivity.
    + rewrite E. exact IH.
Qed.

Lemma dict_get_set_ne k k' v d :
  k <> k' -> dict_get k' (dict_set k v d) = dict_get k' d.
Proof.
  intros Hne. induction d as [|[k0 v0] d IH]; simpl.
  - destruct (String.eqb_spec k k'); [contradiction | reflexivity].
  - destruct (String.eqb_spec k0 k) as [->|Hk0]; simpl.
    + destruct (String.eqb_spec k k'); [contradiction | reflexivity].
    + destruct (String.eqb k0 k'); [reflexivity | exact IH].
Qed.

(** ** What [build] does to the objects *)

Lemma backfill_stream pagesRef fontRef o :
  stream (backfill pagesRef fontRef o) = stream o.
Proof.
  unfold backfill. destruct (dict_get "Type" (dict o)) as [[]|]; try reflexivity.
  destruct (String.eqb _ _); reflexivity.
Qed.

Lemma backfill_Length pagesRef fontRef o :
  dict_get "Length" (dict (backfill pagesRef fontRef o))
  = dict_get "Length" (dict o).
Proof.
  unfold backfill. destruct (dict_get "Type" (dict o)) as [[]|]; try reflexivity.
  destruct (String.eqb _ _); [|reflexivity]. simpl.
  destruct (dict_get "Resources" (dict_set "Parent" (VRef pagesRef) (dict o)))
    as [[]|]; try (apply dict_get_set_ne; discriminate).
  destruct (dict_get "Font" entries) as [[]|];
    try (apply dict_get_set_ne; discriminate).
  rewrite dict_get_set_ne by discriminate.
  apply dict_get_set_ne. discriminate.
Qed.

Lemma backfill_stream_ok pagesRef fontRef o :
  stream_ok o -> stream_ok (backfill pagesRef fontRef o).
Proof.
  intros Hok bytes. rewrite backfill_stream, backfill_Length. apply Hok.
Qed.

(** A page object, completed. *)
Lemma backfill_page pagesRef fontRef o :
  page_like o ->
  page_like (backfill pagesRef fontRef o)
  /\ dict_get "Parent" (dict (backfill pagesRef fontRef o))
     = Some (VRef pagesRef)
  /\ exists resources font,
       dict_get "Resources" (dict (backfill pagesRef fontRef o))
       = Some (VDict resources)
       /\ dict_get "Font" resources = Some (VDict font)
       /\ dict_get "F1" font = Some (VRef fontRef).
Proof.
  intros (Htype & Hstream & res & font & Hres & Hfont).
  unfold backfill. rewrite Htype. simpl.
  rewrite (dict_get_set_ne "Parent" "Resources") by discriminate.
  rewrite Hres, Hfont. split; [|split].
  - split; [|split]; simpl.
    + rewrite !dict_get_set_ne by discriminate. exact Htype.
    + exact Hstream.
    + eexists _, _. split; [apply dict_get_set_eq | apply dict_get_set_eq].
  - simpl. rewrite dict_get_set_ne by discriminate. apply dict_get_set_eq.
  - simpl. eexists _, _. split; [apply dict_get_set_eq|].
    split; apply dict_get_set_eq.
Qed.

(** The objects after a [build] that returns: those it found, completed,
    then the font, the page tree and the catalog. *)
Lemma build_objects b b' out :
  build b = (b', Ok out) ->
  let fontRef := new_Ref (nextId b) in
  let pagesRef := new_Ref (S (nextId b)) in
  let catalogRef := new_Ref (S (S (nextId b))) in
  objects b'
  = map (backfill pagesRef fontRef) (objects b)
    ++ [{| id := nextId b;
           dict := [("Type", VStr "/Font"); ("Subtype", VStr "/Type1");
                    ("BaseFont", VStr "/Helvetica")];
           stream := None |};
        {| id := S (nextId b);
           dict := [("Type", VStr "/Pages");
                    ("Kids", VArr (map VRef (pages b)));
                    ("Count", VNum (Num.of_nat (length (pages b))))];
           stream := None |};
        {| id := S (S (nextId b));
           dict := [("Type", VStr "/Catalog"); ("Pages", VRef pagesRef)];
           stream := None |}]
  /\ pages b' = pages b
  /\ out = write (objects b') catalogRef.
Proof.
  unfold build. destruct (length (pages b) =? 0); [discriminate|].
  destruct (built b); [discriminate|].
  simpl. intros [= <- <-]. simpl. rewrite !map_app, <- !app_assoc.
  repeat split.
Qed.

Lemma resolve_lookup objs n k o :
  n = S k -> objs !! k = Some o -> id o = n ->
  resolve objs (new_Ref n) = Some o.
Proof.
  intros -> Hk Hid. unfold resolve. simpl. rewrite Hk, Hid, Nat.eqb_refl.
  reflexivity.
Qed.

Lemma resolve_Some objs r o :
  resolve objs r = Some o ->
  exists k, ref_id r = S k /\ objs !! k = Some o /\ id o = S k.
Proof.
  unfold resolve. destruct (ref_id r) as [|k]; [discriminate|].
  destruct (objs !! k) as [o'|] eqn:E; [|discriminate].
  destruct (Nat.eqb_spec (id o') (S k)); [|discriminate].
  intros [= <-]. eauto.
Qed.

Lemma resolve_app objs new r o :
  resolve objs r = Some o -> resolve (objs ++ new) r = Some o.
Proof.
  intros Hr. destruct (resolve_Some _ _ _ Hr) as (k & Hk & Hlook & Hid).
  unfold resolve. rewrite Hk.
  rewrite lookup_app_l by (eapply lookup_lt_Some; exact Hlook).
  rewrite Hlook, Hid, Nat.eqb_refl. reflexivity.
Qed.

Lemma resolve_map f objs r o :
  (forall o, id (f o) = id o) ->
  resolve objs r = Some o -> resolve (map f objs) r = Some (f o).
Proof.
  intros Hf Hr. destruct (resolve_Some _ _ _ Hr) as (k & Hk & Hlook & Hid).
  unfold resolve. rewrite Hk, list_lookup_fmap, Hlook. simpl.
  rewrite Hf, Hid, Nat.eqb_refl. reflexivity.
Qed.

Section InvariantFacts.

Context `{NumberToString}.

Lemma reachable_streams_ok b : reachable b -> Forall stream_ok (objects b).
Proof.
  induction 1 as [|args b _ IH|b _ IH].
  - constructor.
  - destruct (page_effect args b) as (new & (-> & _) & Hnew & _).
    apply Forall_app. split; assumption.
  - destruct (build_cases b) as [(e & E)|(b' & out & E)]; rewrite E; simpl;
      [exact IH|].
    destruct (build_objects b b' out E) as (-> & _).
    apply Forall_app. split.
    + apply Forall_map. eapply Forall_impl; [exact IH|].
      intros o. apply backfill_stream_ok.
    + repeat constructor; intros bytes; discriminate.
Qed.

Lemma reachable_pages_ok b : reachable b -> pages_ok b.
Proof.
  induction 1 as [|args b Hreach IH|b Hreach IH].
  - constructor.
  - pose proof (reachable_ids_ok _ (reachable_page args b Hreach)) as [Hids' _].
    destruct (page_effect args b) as (new & (Hobjs & _) & _ & Hres).
    assert (Hold : Forall (fun r => exists o,
                      resolve (objects (fst (page args b))) r = Some o
                      /\ page_like o) (pages b)).
    { eapply Forall_impl; [exact IH|]. intros r (o & Hr & Hp).
      exists o. split; [|exact Hp]. rewrite Hobjs. apply resolve_app, Hr. }
    unfold pages_ok. destruct (snd (page args b)) as [e|[]].
    + destruct Hres as (_ & _ & ->). exact Hold.
    + destruct Hres as (_ & _ & front & o & -> & Hpage & ->).
      apply Forall_app. split; [exact Hold|]. apply Forall_singleton.
      exists o. split; [|exact Hpage].
      rewrite Hobjs, app_assoc in Hids' |- *.
      rewrite map_app, length_app, seq_app in Hids'. simpl in Hids'.
      apply app_inj_tail in Hids' as [_ Hid].
      apply (resolve_lookup _ _ (length (objects b ++ front)));
        [exact Hid | | reflexivity].
      rewrite lookup_app_r by lia. rewrite Nat.sub_diag. reflexivity.
  - destruct (build_cases b) as [(e & E)|(b' & out & E)]; rewrite E; simpl;
      [exact IH|].
    destruct (build_objects b b' out E) as (Hobjs & Hpages & _).
    unfold pages_ok. rewrite Hpages, Hobjs.
    eapply Forall_impl; [exact IH|]. intros r (o & Hr & Hp).
    eexists. split.
    + apply resolve_app, resolve_map; [apply backfill_id | exact Hr].
    + apply backfill_page, Hp.
Qed.

End InvariantFacts.

(** X24.  In every state of a builder, an object with a stream says how
    long it is: its [Length] entry is the number of bytes of the stream,
    for content streams and images alike, before and after [build]. *)
Theorem stream_lengths `{NumberToString} (b : Builder) (o : PDFObject)
    (bytes : list byte) :
  reachable b ->
  In o (objects b) ->
  stream o = Some bytes ->
  dict_get "Length" (dict o) = Some (VNum (Num.of_nat (length bytes))).
Proof.
  intros Hreach Hin. pose proof (reachable_streams_ok b Hreach) as Hall.
  rewrite Forall_forall in Hall. apply Hall, list_elem_of_In, Hin.
Qed.

Lemma stream_lengths_witness :
  let P := sample_printer in
  let b := fst (build (fst (page (page_fn [Text "Hi" 0%Q 0%Q 9%Q None]) pdf))) in
  exists o bytes,
    objects b !! 0 = Some o /\ stream o = Some bytes
    /\ dict_get "Length" (dict o) = Some (VNum (Num.of_nat (length bytes))).
Proof.
  intros P b.
  destruct (objects b) as [|o rest] eqn:E; [discriminate|].
  destruct (stream o) as [bytes|] eqn:Es;
    [|vm_compute in E; injection E as <- _; discriminate].
  exists o, bytes. split; [reflexivity|]. split; [exact Es|].
  apply (@stream_lengths P b o bytes).
  - apply reachable_build, reachable_page, reachable_pdf.
  - rewrite E. left. reflexivity.
  - exact Es.
Defined.

(** X25.  The page tree of a built document is complete.  After a
    [build] that returns, with the font, the page tree and the catalog
    as the last three objects: the catalog points to the page tree; the
    page tree lists the page references in the order of the [page] calls
    and counts them; and every page reference names a page object whose
    [Parent] is the page tree and whose font slot [F1] is the font. *)
Theorem build_completes_page_tree `{NumberToString} (b b' : Builder)
    (out : list byte) :
  reachable b ->
  build b = (b', Ok out) ->
  exists fontRef pagesRef catalogRef font tree catalog,
    out = write (objects b') catalogRef
    /\ resolve (objects b') catalogRef = Some catalog
    /\ dict catalog = [("Type", VStr "/Catalog"); ("Pages", VRef pagesRef)]
    /\ resolve (objects b') pagesRef = Some tree
    /\ dict tree = [("Type", VStr "/Pages");
                    ("Kids", VArr (map VRef (pages b)));
                    ("Count", VNum (Num.of_nat (length (pages b))))]
    /\ resolve (objects b') fontRef = Some font
    /\ dict font = [("Type", VStr "/Font"); ("Subtype", VStr "/Type1");
                    ("BaseFont", VStr "/Helvetica")]
    /\ forall r, In r (pages b) ->
         exists o resources fnt,
           resolve (objects b') r = Some o
           /\ dict_get "Type" (dict o) = Some (VStr "/Page")
           /\ dict_get "Parent" (dict o) = Some (VRef pagesRef)
           /\ dict_get "Resources" (dict o) = Some (VDict resources)
           /\ dict_get "Font" resources = Some (VDict fnt)
           /\ dict_get "F1" fnt = Some (VRef fontRef).
Proof.
  intros Hreach Hbuild.
  destruct (build_objects b b' out Hbuild) as (Hobjs & Hpages & Hout).
  pose proof (reachable_ids_ok b Hreach) as [_ Hnext].
  pose proof (reachable_pages_ok b Hreach) as Hpok.
  assert (Hlen : length (map (backfill (new_Ref (S (nextId b)))
                                (new_Ref (nextId b))) (objects b))
                 = length (objects b)) by apply length_map.
  eexists (new_Ref (nextId b)), (new_Ref (S (nextId b))),
          (new_Ref (S (S (nextId b)))), _, _, _.
  split; [exact Hout|].
  split; [|split].
  { rewrite Hobjs. apply (resolve_lookup _ _ (length (objects b) + 2)).
    - lia.
    - rewrite lookup_app_r by (rewrite Hlen; lia).
      rewrite Hlen.
      replace (length (objects b) + 2 - length (objects b)) with 2 by lia.
      reflexivity.
    - reflexivity. }
  { reflexivity. }
  split; [|split].
  { rewrite Hobjs. apply (resolve_lookup _ _ (length (objects b) + 1)).
    - lia.
    - rewrite lookup_app_r by (rewrite Hlen; lia).
      rewrite Hlen.
      replace (length (objects b) + 1 - length (objects b)) with 1 by lia.
      reflexivity.
    - reflexivity. }
  { reflexivity. }
  split; [|split].
  { rewrite Hobjs. apply (resolve_lookup _ _ (length (objects b))).
    - exact Hnext.
    - rewrite lookup_app_r by (rewrite Hlen; lia).
      rewrite Hlen, Nat.sub_diag. reflexivity.
    - reflexivity. }
  { reflexivity. }
  intros r Hr. unfold pages_ok in Hpok. rewrite Forall_forall in Hpok.
  destruct (Hpok r (proj2 (list_elem_of_In _ _) Hr)) as (o & Hres & Hpage).
  destruct (backfill_page (new_Ref (S (nextId b))) (new_Ref (nextId b)) o Hpage)
    as ((Htype & _) & Hparent & res & fnt & Hr1 & Hr2 & Hr3).
  exists (backfill (new_Ref (S (nextId b))) (new_Ref (nextId b)) o), res, fnt.
  split; [|repeat split; assumption].
  rewrite Hobjs. apply resolve_app, resolve_map; [apply backfill_id | exact Hres].
Qed.

Lemma build_completes_page_tree_witness :
  let P := sample_printer in
  let b := fst (page (page_fn []) (fst (page (page_fn []) pdf))) in
  exists b' tree,
    fst (build b) = b'
    /\ resolve (objects b') (new_Ref 6) = Some tree
    /\ dict_get "Kids" (dict tree) = Some (VArr [VRef (new_Ref 2); VRef (new_Ref 4)]).
Proof.
  intros P b.
  destruct (build b) as [b' [e|out]] eqn:E; [vm_compute in E; discriminate|].
  destruct (@build_completes_page_tree P b b' out
              ltac:(apply reachable_page, reachable_page, reachable_pdf) E)
    as (fontRef & pagesRef & catalogRef & font & tree & catalog
        & _ & Hcat & Hcatd & Htree & Htreed & _).
  exists b', tree. split; [reflexivity|].
  assert (Hb' : b' = fst (build b)) by (rewrite E; reflexivity).
  assert (HpR : pagesRef = new_Ref 6).
  { destruct (resolve_Some _ _ _ Hcat) as (k & _ & Hk & _).
    rewrite Hb' in Hk. vm_compute in Hk.
    destruct k as [|[|[|[|[|[|[|k]]]]]]]; try discriminate;
      injection Hk as <-; simpl in Hcatd; try discriminate.
    injection Hcatd as <-. reflexivity. }
  rewrite <- HpR. split; [exact Htree|]. rewrite Htreed. reflexivity.
Defined.

(** ** The whole of [markdown] *)

Section MarkdownFacts.

Context `{NumberToString}.






End MarkdownFacts.


(** ** The frame of the file *)

(** X28.  Every file [build] returns begins with the 19 bytes of the
    header (the four characters U+00FF of its second line written as two
    bytes each), right after them the line "1 0 obj" of the first
    object, and ends with the line of the end-of-file marker. *)
Theorem build_file_frame `{NumberToString} (b b' : Builder) (out : list byte) :
  reachable b ->
  build b = (b', Ok out) ->
  exists body,
    out = [x25; x50; x44; x46; x2d; x31; x2e; x34; x0a;
           x25; xc3; xbf; xc3; xbf; xc3; xbf; xc3; xbf; x0a]
          ++ Js.encode ("1 0 obj" +:+ Js.nl)
          ++ body
          ++ Js.encode ("%%EOF" +:+ Js.nl).
Proof.
  intros Hreach Hbuild.
  pose proof (reachable_ids_ok b Hreach) as Hok.
  destruct (build_Ok_write b b' out Hok Hbuild) as ([Hids _] & Hlen & cat & ->).
  rewrite (write_spec (objects b') cat Hids).
  set (off := length (bytes_before (objects b') (length (objects b')))).
  set (table := Js.encode (xref_head _ +:+ _)).
  set (trail := Js.encode (trailer _ _)).
  clearbody off table trail.
  unfold bytes_before. rewrite firstn_all.
  destruct (objects b') as [|o1 rest] eqn:E; [simpl in Hlen; lia|].
  assert (Hid : id o1 = 1) by (simpl in Hids; congruence).
  destruct (object_bytes_header o1) as (tail & Hhead).
  rewrite Hid in Hhead.
  change (Js.String_nat 1 +:+ " 0 obj" +:+ Js.nl)
    with ("1 0 obj" +:+ Js.nl) in Hhead.
  cbn [map concat]. rewrite Hhead.
  exists (tail ++ concat (map object_bytes rest) ++ table ++ trail
          ++ Js.encode ("startxref" +:+ Js.nl +:+ Js.String_nat off +:+ Js.nl)).
  unfold startxref.
  replace ("startxref" +:+ Js.nl +:+ Js.String_nat off +:+ Js.nl
           +:+ "%%EOF" +:+ Js.nl)
    with (("startxref" +:+ Js.nl +:+ Js.String_nat off +:+ Js.nl)
          +:+ ("%%EOF" +:+ Js.nl))
    by (rewrite !append_assoc; reflexivity).
  rewrite (encode_app ("startxref" +:+ Js.nl +:+ Js.String_nat off +:+ Js.nl)).
  change (Js.encode file_header)
    with [x25; x50; x44; x46; x2d; x31; x2e; x34; x0a;
          x25; xc3; xbf; xc3; xbf; xc3; xbf; xc3; xbf; x0a].
  rewrite <- !app_assoc. reflexivity.
Qed.

Lemma build_file_frame_witness :
  let P := sample_printer in
  let out := match snd (build (fst (page (page_fn []) pdf))) with
             | inr out => out
             | inl _ => []
             end in
  exists body,
    out = [x25; x50; x44; x46; x2d; x31; x2e; x34; x0a;
           x25; xc3; xbf; xc3; xbf; xc3; xbf; xc3; xbf; x0a]
          ++ Js.encode ("1 0 obj" +:+ Js.nl)
          ++ body
          ++ Js.encode ("%%EOF" +:+ Js.nl).
Proof.
  intros P out. subst out.
  destruct (build (fst (page (page_fn []) pdf))) as [b' [e|out]] eqn:E;
    [vm_compute in E; discriminate|].
  apply (@build_file_frame P (fst (page (page_fn []) pdf)) b' out);
    [apply reachable_page, reachable_pdf | exact E].
Defined.

(** ** What a page declares *)

Lemma String_nat_inj (j k : nat) : Js.String_nat j = Js.String_nat k -> j = k.
Proof.
  intros E. apply (f_equal decimal_value) in E. unfold Js.String_nat in E.
  rewrite !String_N_value in E. lia.
Qed.

Lemma dict_set_fresh k v (d : Dict) :
  Forall (fun kv => fst kv <> k) d -> dict_set k v d = d ++ [(k, v)].
Proof.
  induction 1 as [|[k' v'] d Hk _ IH]; simpl; [reflexivity|].
  simpl in Hk. destruct (String.eqb_spec k' k); [contradiction|].
  rewrite IH. reflexivity.
Qed.

Lemma named_from_keys {A} (imgs : list A) : forall k id0 j,
  j < k ->
  Forall (fun kv : string * PDFValue => fst kv <> "Im" +:+ Js.String_nat j)
         (xobject_entries k id0 imgs).
Proof.
  unfold xobject_entries.
  induction imgs as [|x imgs IH]; intros k id0 j Hj; simpl; constructor.
  - simpl. intros E. injection E as E. apply String_nat_inj in E. lia.
  - apply IH. lia.
Qed.

(** The loop that fills [xobjects]: no name is written twice, so every
    image keeps its entry, in the order of the calls. *)
Lemma xobjects_fold {A} (imgs : list A) : forall k id0 (d : Dict),
  Forall (fun kv => exists j, j < k /\ fst kv = "Im" +:+ Js.String_nat j) d ->
  fold_left (fun d img => dict_set (slice1 (fst img)) (VRef (snd img)) d)
            (named_from k id0 imgs) d
  = d ++ xobject_entries k id0 imgs.
Proof.
  induction imgs as [|x imgs IH]; intros k id0 d Hd; simpl.
  - unfold xobject_entries. simpl. rewrite app_nil_r. reflexivity.
  - change (slice1 ("/Im" +:+ Js.String_nat k)) with ("Im" +:+ Js.String_nat k).
    rewrite dict_set_fresh.
    + rewrite IH.
      * unfold xobject_entries. simpl. rewrite <- app_assoc. reflexivity.
      * apply Forall_app. split.
        -- eapply Forall_impl; [exact Hd|]. intros kv (j & Hj & E).
           exists j. split; [lia | exact E].
        -- apply Forall_singleton. exists k. split; [lia | reflexivity].
    + eapply Forall_impl; [exact Hd|]. intros kv (j & Hj & E) E'.
      rewrite E in E'. injection E' as E'. apply String_nat_inj in E'. lia.
Qed.

Lemma xobject_entries_cons {A} (x : A) (imgs : list A) k id0 :
  xobject_entries k id0 (x :: imgs)
  = ("Im" +:+ Js.String_nat k, VRef (new_Ref id0))
    :: xobject_entries (S k) (S id0) imgs.
Proof. reflexivity. Qed.

Lemma xobject_entries_get {A} (imgs : list A) : forall k id0 j x,
  imgs !! j = Some x ->
  dict_get ("Im" +:+ Js.String_nat (k + j)) (xobject_entries k id0 imgs)
  = Some (VRef (new_Ref (id0 + j))).
Proof.
  induction imgs as [|y imgs IH]; intros k id0 [|j] x Hj; try discriminate;
    rewrite xobject_entries_cons; cbn [dict_get].
  - rewrite !Nat.add_0_r, String.eqb_refl. reflexivity.
  - destruct (String.eqb_spec ("Im" +:+ Js.String_nat k)
                              ("Im" +:+ Js.String_nat (k + S j))) as [E|_].
    + injection E as E. apply String_nat_inj in E. lia.
    + simpl in Hj. specialize (IH (S k) (S id0) j x Hj).
      replace (k + S j) with (S k + j) by lia.
      replace (id0 + S j) with (S id0 + j) by lia. exact IH.
Qed.

Section PageDetail.

Context `{NumberToString}.

(** One call that returns: what it allocates and what it records. *)
Lemma call_detail c b p b1 p1 :
  call c b p = (b1, Ok p1) ->
  match c with
  | Image bytes _ _ _ _ =>
      exists info,
        parseJpeg bytes = Ok info
        /\ objects b1
           = objects b ++ [{| id := nextId b; dict := ctx.image_dict info bytes;
                              stream := Some bytes |}]
        /\ nextId b1 = S (nextId b)
        /\ images p1
           = images p ++ [("/Im" +:+ Js.String_nat (imageCount p),
                           new_Ref (nextId b))]
        /\ imageCount p1 = S (imageCount p)
        /\ links p1 = links p
  | Link url x y w h _ =>
      b1 = b /\ images p1 = images p /\ imageCount p1 = imageCount p
      /\ links p1 = links p ++ [(url, [x; y; (x + w)%Q; (y + h)%Q])]
  | _ =>
      b1 = b /\ images p1 = images p /\ imageCount p1 = imageCount p
      /\ links p1 = links p
  end.
Proof.
  destruct c; simpl.
  - intros [= <- <-]. repeat split.
  - intros [= <- <-]. unfold ctx.rect. destruct (Js.truthy _); repeat split.
  - intros [= <- <-]. unfold ctx.line. destruct (Js.truthy _); repeat split.
  - unfold ctx.image.
    destruct (parseJpeg jpegBytes) as [e|info] eqn:Ej; [discriminate|].
    simpl. intros [= <- <-]. exists info. repeat split.
  - intros [= <- <-]. unfold ctx.link, push_ops.
    destruct opts as [[[u|]]|]; simpl;
      try (destruct (Js.truthy u); simpl);
      try (destruct (Js.truthy (colorOp _ _)); simpl);
      repeat split.
Qed.

(** The objects and the local variables a callback that returns leaves
    behind. *)
Lemma run_detail fn : forall b p b' p',
  run fn b p = (b', Ok p') ->
  exists new,
    objects b' = objects b ++ new
    /\ nextId b' = nextId b + length new
    /\ length new = length (image_calls fn)
    /\ images p'
       = images p ++ named_from (imageCount p) (nextId b) (image_calls fn)
    /\ imageCount p' = imageCount p + length (image_calls fn)
    /\ links p' = links p ++ link_calls fn
    /\ (forall k bytes, image_calls fn !! k = Some bytes ->
          exists info,
            parseJpeg bytes = Ok info
            /\ new !! k = Some {| id := nextId b + k;
                                  dict := ctx.image_dict info bytes;
                                  stream := Some bytes |}).
Proof.
  induction fn as [|c fn IH]; intros b p b' p'.
  - simpl. intros [= <- <-]. exists []. simpl.
    rewrite !app_nil_r, !Nat.add_0_r. repeat split. intros k bytes. discriminate.
  - cbn [run]. destruct (call c b p) as [b1 [e|p1]] eqn:E; [discriminate|].
    intros Hrun. destruct (IH b1 p1 b' p' Hrun)
      as (new & Hobjs & Hnext & Hlen & Himgs & Hcount & Hlinks & Hnew).
    apply call_detail in E.
    destruct c;
      try (destruct E as (-> & E1 & E2 & E3); rewrite E1, E2, E3 in *;
           exists new; cbn [image_calls link_calls flat_map app];
           rewrite ?app_nil_r; repeat split; assumption).
    + destruct E as (info & Ej & Eo & En & Ei & Ec & El).
      rewrite Eo, En, Ei, Ec, El in *.
      eexists (_ :: new). cbn [image_calls flat_map app length named_from].
      split; [|split; [|split; [|split; [|split; [|split]]]]].
      * rewrite Hobjs, <- app_assoc. reflexivity.
      * rewrite Hnext. simpl. lia.
      * rewrite Hlen. reflexivity.
      * rewrite Himgs, <- app_assoc. reflexivity.
      * rewrite Hcount. unfold image_calls. lia.
      * exact Hlinks.
      * intros [|k] bytes Hk.
        -- injection Hk as <-. exists info. split; [exact Ej|].
           rewrite Nat.add_0_r. reflexivity.
        -- change (image_calls fn !! k = Some bytes) in Hk.
           destruct (Hnew k bytes Hk) as (info' & Hj & Hlook).
           exists info'. split; [exact Hj|].
           transitivity (new !! k); [reflexivity|]. rewrite Hlook.
           replace (S (nextId b) + k) with (nextId b + S k) by lia.
           reflexivity.
    + destruct E as (-> & E1 & E2 & E3). rewrite E1, E2, E3 in *.
      exists new. cbn [image_calls link_calls flat_map app].
      rewrite <- app_assoc in Hlinks. repeat split; assumption.
Qed.

Lemma add_annots_detail lnks : forall b,
  exists new,
    objects (fst (add_annots lnks b)) = objects b ++ new
    /\ nextId (fst (add_annots lnks b)) = nextId b + length lnks
    /\ length new = length lnks
    /\ snd (add_annots lnks b) = map new_Ref (seq (nextId b) (length lnks))
    /\ (forall k lnk, lnks !! k = Some lnk ->
          new !! k = Some {| id := nextId b + k; dict := annot_dict lnk;
                             stream := None |}).
Proof.
  induction lnks as [|[url r] lnks IH]; intros b.
  - exists []. simpl. rewrite app_nil_r, Nat.add_0_r. repeat split.
    intros k lnk. discriminate.
  - cbn [add_annots].
    match goal with
    | |- context [addObject ?d None b] =>
        destruct (addObject d None b) as [b1 r1] eqn:E1
    end.
    injection E1 as <- <-.
    match goal with
    | |- context [add_annots lnks ?b1] =>
        destruct (IH b1) as (new & Hobjs & Hnext & Hlen & Hrs & Hnew);
        destruct (add_annots lnks b1) as [b2 rs]
    end.
    simpl in *. eexists (_ :: new). split; [|split; [|split; [|split]]].
    + rewrite Hobjs, <- app_assoc. reflexivity.
    + rewrite Hnext. lia.
    + simpl. rewrite Hlen. reflexivity.
    + rewrite Hrs. reflexivity.
    + intros [|k] lnk Hk; simpl in Hk.
      * injection Hk as <-. simpl. rewrite Nat.add_0_r. reflexivity.
      * simpl. rewrite (Hnew k lnk Hk).
        replace (S (nextId b + k)) with (nextId b + S k) by lia. reflexivity.
Qed.

(** A [page] call that returns, object by object. *)
Lemma page_detail args b :
  snd (page args b) = Ok tt ->
  let imgs := image_calls (callback args) in
  let lnks := link_calls (callback args) in
  exists images content annots pageobj contentRef width height,
    objects (fst (page args b))
    = objects b ++ images ++ [content] ++ annots ++ [pageobj]
    /\ length images = length imgs
    /\ length annots = length lnks
    /\ (forall k bytes, imgs !! k = Some bytes ->
          exists info,
            parseJpeg bytes = Ok info
            /\ images !! k = Some {| id := nextId b + k;
                                     dict := ctx.image_dict info bytes;
                                     stream := Some bytes |})
    /\ (forall k lnk, lnks !! k = Some lnk ->
          annots !! k
          = Some {| id := nextId b + length imgs + 1 + k;
                    dict := annot_dict lnk; stream := None |})
    /\ dict pageobj
       = page_dict width height contentRef
           (xobject_entries 0 (nextId b) imgs)
           (map new_Ref (seq (nextId b + length imgs + 1) (length lnks))).
Proof.
  unfold page.
  set (size := match args with
               | page_fn fn => (612%Q, 792%Q, fn)
               | page_sized w h fn => (w, h, fn)
               end).
  assert (Hfn : callback args = snd size) by (destruct args; reflexivity).
  destruct size as [[width height] fn]. simpl in Hfn. rewrite Hfn.
  set (p0 := {| ops := []; images := []; links := []; imageCount := 0 |}).
  destruct (run fn b p0) as [b1 [e|p]] eqn:Erun; [discriminate|].
  destruct (run_detail fn b p0 b1 p Erun)
    as (new & Hobjs & Hnext & Hlen & Himgs & _ & Hlinks & Hnew).
  simpl in Himgs, Hlinks.
  match goal with
  | |- context [addObject ?d (Some ?s) b1] =>
      destruct (addObject d (Some s) b1) as [b2 contentRef] eqn:E2
  end.
  injection E2 as <- <-.
  match goal with
  | |- context [add_annots (links p) ?b2] =>
      destruct (add_annots_detail (links p) b2)
        as (ann & Hobjs3 & Hnext3 & Hlen3 & Hrs3 & Hann);
      destruct (add_annots (links p) b2) as [b3 annots]
  end.
  simpl in Hobjs3, Hnext3, Hrs3, Hann. simpl. intros _.
  rewrite Hlinks in *.
  eexists new, _, ann, _, _, width, height.
  split; [|split; [|split; [|split; [|split]]]].
  - rewrite Hobjs3, Hobjs, <- !app_assoc. reflexivity.
  - exact Hlen.
  - exact Hlen3.
  - exact Hnew.
  - intros k lnk Hk. rewrite (Hann k lnk Hk), Hnext, Hlen.
    replace (S (nextId b + length (image_calls fn) + k))
      with (nextId b + length (image_calls fn) + 1 + k) by lia.
    reflexivity.
  - simpl. rewrite Himgs, Hrs3, Hnext, Hlen.
    rewrite (xobjects_fold (image_calls fn) 0 (nextId b) []) by constructor.
    replace (S (nextId b + length (image_calls fn)))
      with (nextId b + length (image_calls fn) + 1) by lia.
    reflexivity.
Qed.

End PageDetail.

Lemma xobject_entries_length {A} (imgs : list A) : forall k id0,
  length (xobject_entries k id0 imgs) = length imgs.
Proof.
  unfold xobject_entries.
  induction imgs as [|x imgs IH]; intros k id0; simpl; [reflexivity|].
  rewrite IH. reflexivity.
Qed.

Lemma page_images `{NumberToString} (args : PageArgs) (b : Builder) :
  snd (page args b) = Ok tt ->
  let imgs := image_calls (callback args) in
  let b' := fst (page args b) in
  exists pageobj resources,
    last (objects b') = Some pageobj
    /\ dict_get "Resources" (dict pageobj) = Some (VDict resources)
    /\ dict_get "XObject" resources
       = Some (if 0 <? length imgs
               then VDict (xobject_entries 0 (nextId b) imgs)
               else VUndefined)
    /\ forall k bytes, imgs !! k = Some bytes ->
         dict_get ("Im" +:+ Js.String_nat k)
                  (xobject_entries 0 (nextId b) imgs)
         = Some (VRef (new_Ref (nextId b + k)))
         /\ exists o info,
              objects b' !! (length (objects b) + k) = Some o
              /\ id o = nextId b + k
              /\ stream o = Some bytes
              /\ parseJpeg bytes = Ok info
              /\ dict o = ctx.image_dict info bytes.
Proof.
  intros Hok imgs b'.
  destruct (page_detail args b Hok)
    as (images & content & annots & pageobj & contentRef & width & height
        & Hobjs & Hlen & _ & Himgs & _ & Hdict).
  fold imgs in Hlen, Himgs, Hdict. fold b' in Hobjs.
  exists pageobj. eexists. split; [|split; [|split]].
  - rewrite Hobjs, !app_assoc. apply last_snoc.
  - rewrite Hdict. reflexivity.
  - simpl. rewrite xobject_entries_length. reflexivity.
  - intros k bytes Hk. split.
    + exact (xobject_entries_get imgs 0 (nextId b) k bytes Hk).
    + destruct (Himgs k bytes Hk) as (info & Hj & Hlook).
      eexists _, info. split.
      { rewrite Hobjs, lookup_app_r by lia.
        replace (length (objects b) + k - length (objects b)) with k by lia.
        rewrite lookup_app_l by (eapply lookup_lt_Some; exact Hlook).
        exact Hlook. }
      split; [reflexivity|]. split; [reflexivity|].
      split; [exact Hj | reflexivity].
Qed.

(** X29.  A page declares the images it draws.  After a page call that
    returns and whose callback only draws (context calls one after the
    other, no exception caught, no call of [page] or [build]), the
    [XObject] dictionary of the page's resources holds one entry per
    image call, in order, under the names Im0, Im1, ... (none written
    twice), each naming the object allocated for that call, whose stream
    is the bytes given and whose dictionary is made from what
    [parseJpeg] read in them; without image calls the entry is left
    undefined. *)
Theorem page_declares_images `{NumberToString} (args : PageArgs) (w : World) :
  let r := exec (PageCall (size_of args) (straight (callback args)) Done) w in
  snd r = Returned ->
  let imgs := image_calls (callback args) in
  let b := doc w in
  let b' := doc (fst r) in
  exists pageobj resources,
    last (objects b') = Some pageobj
    /\ dict_get "Resources" (dict pageobj) = Some (VDict resources)
    /\ dict_get "XObject" resources
       = Some (if 0 <? length imgs
               then VDict (xobject_entries 0 (nextId b) imgs)
               else VUndefined)
    /\ forall k bytes, imgs !! k = Some bytes ->
         dict_get ("Im" +:+ Js.String_nat k)
                  (xobject_entries 0 (nextId b) imgs)
         = Some (VRef (new_Ref (nextId b + k)))
         /\ exists o info,
              objects b' !! (length (objects b) + k) = Some o
              /\ id o = nextId b + k
              /\ stream o = Some bytes
              /\ parseJpeg bytes = Ok info
              /\ dict o = ctx.image_dict info bytes.
Proof.
  intros r Hret imgs b b'. subst r imgs b b'.
  destruct (exec_page args w) as [Edoc Eout]. rewrite Edoc.
  rewrite Eout in Hret.
  apply (page_images args (doc w)).
  destruct (snd (page args (doc w))) as [e|[]]; [discriminate | reflexivity].
Qed.

Lemma page_declares_images_witness :
  let P := sample_printer in
  let jpeg := [xff; xd8; xff; xc0; x00; x0b; x08; x00; x10; x00; x20; x01] in
  let w := {| doc := pdf; frames := [] |} in
  let b' := doc (fst (exec (PageCall None
                              (straight [Image jpeg 0%Q 0%Q 32%Q 16%Q]) Done)
                           w)) in
  exists o, objects b' !! 0 = Some o /\ stream o = Some jpeg.
Proof.
  intros P jpeg w b'.
  destruct (@page_declares_images P (page_fn [Image jpeg 0%Q 0%Q 32%Q 16%Q])
              w eq_refl)
    as (pageobj & resources & _ & _ & _ & Himg).
  destruct (Himg 0 jpeg eq_refl) as (_ & o & info & Hlook & _ & Hstream & _).
  exists o. split; [exact Hlook | exact Hstream].
Defined.

(** X30.  A page declares its links.  After a page call that returns,
    the [Annots] array of the page object lists one annotation per link
    call, in order, allocated right after the content stream; the
    annotation of a call [link(url, x, y, w, h)] is a link with the
    rectangle [x y x+w y+h] and the URI action [url]; without link calls
    the entry is left undefined. *)
Theorem page_declares_links `{NumberToString} (args : PageArgs) (b : Builder) :
  snd (page args b) = Ok tt ->
  let lnks := link_calls (callback args) in
  let n := length (image_calls (callback args)) in
  let b' := fst (page args b) in
  exists pageobj,
    last (objects b') = Some pageobj
    /\ dict_get "Annots" (dict pageobj)
       = Some (if 0 <? length lnks
               then VArr (map VRef (map new_Ref
                                      (seq (nextId b + n + 1) (length lnks))))
               else VUndefined)
    /\ forall k url rect, lnks !! k = Some (url, rect) ->
         exists o,
           objects b' !! (length (objects b) + n + 1 + k) = Some o
           /\ id o = nextId b + n + 1 + k
           /\ stream o = None
           /\ dict_get "Subtype" (dict o) = Some (VStr "/Link")
           /\ dict_get "Rect" (dict o) = Some (VArr (map VNum rect))
           /\ dict_get "A" (dict o)
              = Some (VDict [("Type", VStr "/Action"); ("S", VStr "/URI");
                             ("URI", VStr url)]).
Proof.
  intros Hok lnks n b'.
  destruct (page_detail args b Hok)
    as (images & content & annots & pageobj & contentRef & width & height
        & Hobjs & Hlen & Hlen' & _ & Hann & Hdict).
  fold lnks in Hlen', Hann, Hdict. fold n in Hann, Hdict, Hlen.
  fold b' in Hobjs.
  exists pageobj. split; [|split].
  - rewrite Hobjs, !app_assoc. apply last_snoc.
  - rewrite Hdict. simpl. rewrite !length_map, length_seq. reflexivity.
  - intros k url rect Hk. specialize (Hann k (url, rect) Hk).
    eexists. split.
    { rewrite Hobjs, lookup_app_r by lia.
      rewrite lookup_app_r by lia.
      replace (length (objects b) + n + 1 + k - length (objects b)
               - length images)
        with (S k) by lia.
      change (([content] ++ annots ++ [pageobj]) !! S k)
        with ((annots ++ [pageobj]) !! k).
      rewrite lookup_app_l by (eapply lookup_lt_Some; exact Hann).
      exact Hann. }
    repeat split.
Qed.

Lemma page_declares_links_witness :
  let P := sample_printer in
  let b' := fst (page (page_fn [Link "http://a" 1%Q 2%Q 3%Q 4%Q None]) pdf) in
  exists o,
    objects b' !! 1 = Some o
    /\ dict_get "Rect" (dict o)
       = Some (VArr [VNum 1%Q; VNum 2%Q; VNum (1 + 3)%Q; VNum (2 + 4)%Q]).
Proof.
  intros P b'.
  destruct (@page_declares_links P
              (page_fn [Link "http://a" 1%Q 2%Q 3%Q 4%Q None]) pdf eq_refl)
    as (pageobj & _ & _ & Hl).
  destruct (Hl 0 "http://a" [1%Q; 2%Q; (1 + 3)%Q; (2 + 4)%Q] eq_refl)
    as (o & Hlook & _ & _ & _ & Hrect & _).
  exists o. split; [exact Hlook | exact Hrect].
Defined.
